(** * Lego train controller for the Arduino YUN: a shallow embedding

    The sketch [lego-train-controller-arduino-yun.ino] is one translation
    unit of global arrays and functions that mutate them.  The embedding
    below keeps the globals in a record [state], threads it through a small
    state monad, and records every call that leaves the sketch (servo
    writes, pin writes, IR frames, sensor notifications, MQTT messages) in a
    trace.

    Integers are [Z] with the conversions of the target written out: the
    ATmega32U4 has 8-bit [unsigned char] and 16-bit [int].  A C array is a
    list of fixed length.  The AVR has no memory protection, so an access
    past the end of an array does not stop the program: a store lands in
    whatever object the linker placed there, a load returns that object's
    byte.  The model keeps such accesses visible: a stray store is recorded
    in the trace and changes none of the modelled arrays, a stray load
    returns a value handed in by the caller of the model ([wild]).

    What the sketch reads from outside (pin levels, the state of the MQTT
    connection, the clock of the status LED, incoming requests) is an
    argument of the function that reads it.

    Not modelled: [Serial] logging, [delay] and [pinMode].  The text
    printed to an HTTP client and the topics handed to the MQTT client for
    subscription are the results of the functions that produce them.

    The first part of the file is the embedding, function by function in
    the order of the sketch, followed by the notions the properties are
    stated with.  The second part proves the properties. *)

From Stdlib Require Import ZArith String Ascii List Lia Bool.
From stdpp Require Import base option list gmap.
Import ListNotations.

Local Open Scope Z_scope.

(** ** Machine integers and C strings *)

(** Conversion to [unsigned char]. *)
Definition uchar (v : Z) : Z := v mod 256.

(** Conversion to the 16-bit [int] of the AVR. *)
Definition int16 (v : Z) : Z := (v + 32768) mod 65536 - 32768.

(** The characters of a string literal, as character codes. *)
Definition chars (s : string) : list Z :=
  map (fun a => Z.of_N (N_of_ascii a)) (list_ascii_of_string s).

(** [str[i]] for a NUL-terminated string given by its characters: the
    terminator is read at the end of the list. *)
Definition str_at (str : list Z) (i : Z) : Z :=
  if 0 <=? i then default 0 (str !! Z.to_nat i) else 0.

(** The C string held by a buffer: its cells up to the first NUL. *)
Fixpoint c_str (buf : list Z) : list Z :=
  match buf with
  | [] => []
  | c :: rest => if c =? 0 then [] else c :: c_str rest
  end.

(** [strcmp(a, b) == 0]. *)
Definition strcmp_eq (a b : list Z) : bool :=
  bool_decide (c_str a = c_str b).

(** [a[i]] inside the bounds of [a]. *)
Definition aget (a : list Z) (i : Z) : option Z :=
  if 0 <=? i then a !! Z.to_nat i else None.

(** [a[i]] on the target: inside the bounds the cell, outside them the
    byte [wild] that happens to lie there. *)
Definition load (a : list Z) (i : Z) (wild : Z) : Z :=
  default wild (aget a i).

(** *** [atoi] of avr-libc: blanks, an optional sign, decimal digits;
    the value wraps to 16 bits. *)
Definition isspace (c : Z) : bool := (c =? 32) || ((9 <=? c) && (c <=? 13)).
Definition isdigit (c : Z) : bool := (48 <=? c) && (c <=? 57).

Fixpoint skip_space (s : list Z) : list Z :=
  match s with
  | c :: rest => if isspace c then skip_space rest else s
  | [] => []
  end.

Fixpoint digits (acc : Z) (s : list Z) : Z :=
  match s with
  | c :: rest => if isdigit c then digits (acc * 10 + (c - 48)) rest else acc
  | [] => acc
  end.

Definition atoi (s : list Z) : Z :=
  match skip_space s with
  | 45 :: rest => int16 (- digits 0 rest)
  | 43 :: rest => int16 (digits 0 rest)
  | rest => int16 (digits 0 rest)
  end.

(** ** Global constants of the sketch *)

Definition LOW : Z := 0.
Definition HIGH : Z := 1.

(** Analog pin numbers of the YUN (the Leonardo pin map of the Arduino
    core). *)
Definition A0 : Z := 18.
Definition A1 : Z := 19.
Definition A2 : Z := 20.
Definition A3 : Z := 21.

Definition NUM_LEGO_PF : Z := 2.

Definition NUM_POSITION_SENSORS : Z := 2.
Definition POSITION_SENSOR_PINS : list Z := [2; 3].
Definition POSITION_SENSOR_IDS : list Z := [0; 1].

Definition SERVO_SWITCH_MIN_ANGLE : Z := 68.
Definition SERVO_SWITCH_MAX_ANGLE : Z := 85.
Definition SERVO_SWITCH_ANGLES : list Z :=
  [SERVO_SWITCH_MIN_ANGLE; SERVO_SWITCH_MAX_ANGLE].
Definition NUM_SERVO_SWITCHES : Z := 4.

Definition SERVO_BARRIER_MIN_ANGLE : Z := 30.
Definition SERVO_BARRIER_MAX_ANGLE : Z := 128.
Definition SERVO_BARRIER_ANGLES : list Z :=
  [SERVO_BARRIER_MIN_ANGLE; SERVO_BARRIER_MAX_ANGLE].
Definition NUM_SERVO_BARRIERS : Z := 4.

Definition STATUS_LED_PIN : Z := 13.

Definition NUM_SIGNALS : Z := 2.
Definition SIGNAL_PINS : list Z := [A0; A1; A2; A3].

Definition CONFIG : list Z := chars "config".
Definition SWITCH : list Z := chars "switch".
Definition SIGNAL : list Z := chars "signal".
Definition BARRIER : list Z := chars "barrier".
Definition POSITION : list Z := chars "position".
Definition MOTOR : list Z := chars "motor".
Definition LEGO : list Z := chars "lego".
Definition TRAIN : list Z := chars "train".
Definition PF : list Z := chars "pf".
Definition SLASH : list Z := chars "/".

Definition MAX_BUFFER_SIZE : Z := 255.

(** The constants of [legopowerfunctions.h], which is not part of the
    sources at hand: the mode [PWM] and the sixteen PWM steps. *)
Class LegoPowerFunctions := {
  PWM : Z;
  PWM_FLT : Z;
  PWM_FWD1 : Z; PWM_FWD2 : Z; PWM_FWD3 : Z; PWM_FWD4 : Z;
  PWM_FWD5 : Z; PWM_FWD6 : Z; PWM_FWD7 : Z;
  PWM_REV1 : Z; PWM_REV2 : Z; PWM_REV3 : Z; PWM_REV4 : Z;
  PWM_REV5 : Z; PWM_REV6 : Z; PWM_REV7 : Z
}.

(** The usual values of these constants in the LEGO Power Functions RC
    protocol, for concrete runs. *)
Definition lpf_protocol : LegoPowerFunctions := {|
  PWM := 0;
  PWM_FLT := 0;
  PWM_FWD1 := 1; PWM_FWD2 := 2; PWM_FWD3 := 3; PWM_FWD4 := 4;
  PWM_FWD5 := 5; PWM_FWD6 := 6; PWM_FWD7 := 7;
  PWM_REV1 := 15; PWM_REV2 := 14; PWM_REV3 := 13; PWM_REV4 := 12;
  PWM_REV5 := 11; PWM_REV6 := 10; PWM_REV7 := 9
|}.

Definition fwdSpeed `{LegoPowerFunctions} : list Z :=
  [PWM_FLT; PWM_FWD1; PWM_FWD2; PWM_FWD3; PWM_FWD4; PWM_FWD5; PWM_FWD6; PWM_FWD7].
Definition revSpeed `{LegoPowerFunctions} : list Z :=
  [PWM_FLT; PWM_REV1; PWM_REV2; PWM_REV3; PWM_REV4; PWM_REV5; PWM_REV6; PWM_REV7].

(** ** Global variables and the trace of outward calls *)

Inductive array_id := Aqueue | Abuffer1 | Abuffer2.

Inductive event :=
| ServoSwitchWrite (i a : Z)            (* servo_switch[i].write(a) *)
| ServoBarrierWrite (i a : Z)           (* servo_barrier[i].write(a) *)
| DigitalWrite (pin level : Z)          (* digitalWrite(pin, level) *)
| SingleOutput (led mode step output channel : Z)
                                        (* lego_pf[led].SingleOutput(...) *)
| PositionChanged (i v : Z)             (* mqtt_publish_position_sensor(i, v) *)
| MqttPublish (topic payload : list Z)  (* mqtt_client.publish(topic, payload) *)
| StrayStore (a : array_id) (i v : Z).  (* a store past the end of an array *)

Record state := mkState {
  queue : list Z;                  (* unsigned char queue[4] *)
  status_led_is_on : bool;         (* bool status_led_is_on *)
  position_sensor : list Z;        (* unsigned char position_sensor[2] *)
  servo_switch : list (option Z);  (* angle last written to servo_switch[i] *)
  servo_barrier : list (option Z); (* angle last written to servo_barrier[i] *)
  pins : gmap Z Z;                 (* level last written to each pin *)
  buffer1 : list Z;                (* char buffer1[MAX_BUFFER_SIZE] *)
  buffer2 : list Z;                (* char buffer2[MAX_BUFFER_SIZE] *)
  trace : list event               (* the outward calls so far, oldest first *)
}.

Definition set_queue (q : list Z) (s : state) : state :=
  mkState q (status_led_is_on s) (position_sensor s) (servo_switch s)
          (servo_barrier s) (pins s) (buffer1 s) (buffer2 s) (trace s).
Definition set_status_led_is_on (b : bool) (s : state) : state :=
  mkState (queue s) b (position_sensor s) (servo_switch s) (servo_barrier s)
          (pins s) (buffer1 s) (buffer2 s) (trace s).
Definition set_position_sensor (p : list Z) (s : state) : state :=
  mkState (queue s) (status_led_is_on s) p (servo_switch s) (servo_barrier s)
          (pins s) (buffer1 s) (buffer2 s) (trace s).
Definition set_servo_switch (v : list (option Z)) (s : state) : state :=
  mkState (queue s) (status_led_is_on s) (position_sensor s) v
          (servo_barrier s) (pins s) (buffer1 s) (buffer2 s) (trace s).
Definition set_servo_barrier (v : list (option Z)) (s : state) : state :=
  mkState (queue s) (status_led_is_on s) (position_sensor s) (servo_switch s)
          v (pins s) (buffer1 s) (buffer2 s) (trace s).
Definition set_pins (p : gmap Z Z) (s : state) : state :=
  mkState (queue s) (status_led_is_on s) (position_sensor s) (servo_switch s)
          (servo_barrier s) p (buffer1 s) (buffer2 s) (trace s).
Definition set_buffer1 (b : list Z) (s : state) : state :=
  mkState (queue s) (status_led_is_on s) (position_sensor s) (servo_switch s)
          (servo_barrier s) (pins s) b (buffer2 s) (trace s).
Definition set_buffer2 (b : list Z) (s : state) : state :=
  mkState (queue s) (status_led_is_on s) (position_sensor s) (servo_switch s)
          (servo_barrier s) (pins s) (buffer1 s) b (trace s).
Definition set_trace (t : list event) (s : state) : state :=
  mkState (queue s) (status_led_is_on s) (position_sensor s) (servo_switch s)
          (servo_barrier s) (pins s) (buffer1 s) (buffer2 s) t.

(** The globals as the C++ start-up code leaves them, before [setup]. *)
Definition power_on : state := {|
  queue := [0; 0; 0; 0];
  status_led_is_on := false;
  position_sensor := [2; 2];
  servo_switch := [None; None; None; None];
  servo_barrier := [None; None; None; None];
  pins := ∅;
  buffer1 := replicate (Z.to_nat MAX_BUFFER_SIZE) 0;
  buffer2 := replicate (Z.to_nat MAX_BUFFER_SIZE) 0;
  trace := []
|}.

(** ** The state monad of the sketch *)

Definition M (A : Type) : Type := state -> A * state.

Definition ret {A} (a : A) : M A := fun s => (a, s).
Definition bind {A B} (m : M A) (k : A -> M B) : M B :=
  fun s => let (a, s') := m s in k a s'.
Definition get : M state := fun s => (s, s).
Definition modify (f : state -> state) : M unit := fun s => (tt, f s).
Definition emit (e : event) : M unit :=
  modify (fun s => set_trace (trace s ++ [e]) s).

Declare Scope sketch_scope.
Delimit Scope sketch_scope with sketch.
Notation "'let!' x ':=' m 'in' k" := (bind m (fun x => k))
  (at level 10, x name, m at level 99, k at level 200) : sketch_scope.
Notation "'do' m ';;' k" := (bind m (fun _ => k))
  (at level 10, m at level 99, k at level 200) : sketch_scope.
Local Open Scope sketch_scope.

(** A [for] loop over the values of its counter. *)
Fixpoint for_each {A} (l : list A) (body : A -> M unit) : M unit :=
  match l with
  | [] => ret tt
  | x :: rest => do body x;; for_each rest body
  end.

(** [a[i] = v] for an array of the state; past the end the store strays. *)
Definition store (id : array_id) (read : state -> list Z)
    (write : list Z -> state -> state) (i v : Z) : M unit :=
  let! s := get in
  if (0 <=? i) && (i <? Z.of_nat (length (read s)))
  then modify (write (<[Z.to_nat i := v]> (read s)))
  else emit (StrayStore id i v).

Definition store_queue := store Aqueue queue set_queue.
Definition store_buffer1 := store Abuffer1 buffer1 set_buffer1.
Definition store_buffer2 := store Abuffer2 buffer2 set_buffer2.

(** ** Serial functions: the path tokenizer *)

(** The [while] loop of [get_char_until_next_slash], on the cursor [i] and
    the write position [j]; [n] bounds the number of iterations. *)
Fixpoint slash_loop (n : nat) (str : list Z) (i j : Z) : M (Z * Z) :=
  match n with
  | O => ret (i, j)
  | S n' =>
    if negb (str_at str i =? 0) && (i <? MAX_BUFFER_SIZE) then
      if negb (str_at str i =? 47) then
        do store_buffer1 j (str_at str i);;
        slash_loop n' str (uchar (i + 1)) (uchar (j + 1))
      else
        ret (uchar (i + 1), j)
    else ret (i, j)
  end.

(** [get_char_until_next_slash(str, buffer1, i)]; the result is the cursor
    [i], which the C++ function updates through a reference.  The loop
    leaves by its guard once [i] reaches [MAX_BUFFER_SIZE], so that many
    iterations are enough (see [slash_loop_enough]). *)
Definition get_char_until_next_slash (str : list Z) (i : Z) : M Z :=
  let! ij := slash_loop (Z.to_nat MAX_BUFFER_SIZE) str i 0 in
  do store_buffer1 (snd ij) 0;;
  ret (fst ij).

(** [strcmp(buffer1, lit) == 0] and [atoi(buffer1)]. *)
Definition strcmp_buffer1 (lit : list Z) : M bool :=
  let! s := get in ret (strcmp_eq (buffer1 s) lit).
Definition atoi_buffer1 : M Z :=
  let! s := get in ret (atoi (c_str (buffer1 s))).

(** [get_char_from_client(client, buf)], as the string it leaves in
    [buf]: the characters the client has sent, without CR and LF, as long
    as the index is below [MAX_BUFFER_SIZE]; the terminator goes to the
    index reached, which is [MAX_BUFFER_SIZE] itself for a long request. *)
Definition get_char_from_client (incoming : list Z) : list Z :=
  take (Z.to_nat MAX_BUFFER_SIZE)
       (filter (fun c => c <> 13 /\ c <> 10) incoming).

(** ** Train controller functions *)

Definition digitalWrite (pin level : Z) : M unit :=
  do modify (fun s => set_pins (<[pin := level]> (pins s)) s);;
  emit (DigitalWrite pin level).

(** *** Status LED *)

Definition status_led_switch : M unit :=
  let! s := get in
  if status_led_is_on s then
    do digitalWrite STATUS_LED_PIN LOW;;
    modify (set_status_led_is_on false)
  else
    do digitalWrite STATUS_LED_PIN HIGH;;
    modify (set_status_led_is_on true).

Definition status_led_on : M unit :=
  do modify (set_status_led_is_on true);;
  digitalWrite STATUS_LED_PIN HIGH.

Definition status_led_off : M unit :=
  do modify (set_status_led_is_on false);;
  digitalWrite STATUS_LED_PIN LOW.

(** [update_status_led]; [due] tells whether [micros()] has passed the
    blinking timeout. *)
Definition update_status_led (due : bool) : M unit :=
  if due then status_led_switch else ret tt.

(** [set_servo]: the servo object keeps the angle it was last sent. *)
Definition set_servo (switch_or_barrier : bool) (i a : Z) : M unit :=
  if switch_or_barrier then
    do modify (fun s =>
         set_servo_switch (<[Z.to_nat i := Some a]> (servo_switch s)) s);;
    emit (ServoSwitchWrite i a)
  else
    do modify (fun s =>
         set_servo_barrier (<[Z.to_nat i := Some a]> (servo_barrier s)) s);;
    emit (ServoBarrierWrite i a).

Definition set_switch (i a : Z) : M unit := set_servo true i a.
Definition set_barrier (i a : Z) : M unit := set_servo false i a.

Definition switch_off (wild i : Z) : M unit :=
  set_switch i (load SERVO_SWITCH_ANGLES 0 wild).
Definition switch_on (wild i : Z) : M unit :=
  set_switch i (load SERVO_SWITCH_ANGLES 1 wild).
Definition barrier_off (wild i : Z) : M unit :=
  set_barrier i (load SERVO_BARRIER_ANGLES 0 wild).
Definition barrier_on (wild i : Z) : M unit :=
  set_barrier i (load SERVO_BARRIER_ANGLES 1 wild).

(** [set_signal(s, l, v)]: a lamp is lit by driving its pin [LOW]. *)
Definition set_signal (wild s l : Z) (v : bool) : M unit :=
  for_each (seqZ 0 2) (fun j =>
    let pin := uchar (load SIGNAL_PINS (2 * s + j) wild) in
    if eqb v (j =? l) then digitalWrite pin LOW
    else digitalWrite pin HIGH).

(** ** Setup functions *)

Definition init_servo_switches (wild : Z) : M unit :=
  for_each (seqZ 0 NUM_SERVO_SWITCHES) (fun i => switch_off wild i).

Definition init_servo_barriers (wild : Z) : M unit :=
  for_each (seqZ 0 NUM_SERVO_BARRIERS) (fun i => barrier_off wild i).

Definition init_signals (wild : Z) : M unit :=
  for_each (seqZ 0 NUM_SIGNALS) (fun i =>
    for_each (seqZ 0 2) (fun j =>
      if j =? 0 then set_signal wild i j true
      else set_signal wild i j false)).

(** [setup], without the calls that only configure the serial port, the
    bridge, the web server, the MQTT client and the pin modes. *)
Definition setup (wild : Z) : M unit :=
  do status_led_on;;
  do init_servo_switches wild;;
  do init_servo_barriers wild;;
  do init_signals wild;;
  status_led_off.

(** ** The command dispatcher *)

(** [process_request_by_char(request, send_json_configuration)]; the result
    is the pair of the returned [isok] and of [send_json_configuration]. *)
Definition process_request_by_char `{LegoPowerFunctions}
    (wild : Z) (request : list Z) : M (bool * bool) :=
  let! index := get_char_until_next_slash request 0 in
  let! is_lego := strcmp_buffer1 LEGO in
  if is_lego then
    let! index := get_char_until_next_slash request index in
    let! is_train := strcmp_buffer1 TRAIN in
    if is_train then
      let! index := get_char_until_next_slash request index in
      let! is_config := strcmp_buffer1 CONFIG in
      if is_config then
        ret (true, true)
      else
      let! is_motor := strcmp_buffer1 MOTOR in
      if is_motor then
        let! index := get_char_until_next_slash request index in
        let! is_pf := strcmp_buffer1 PF in
        if is_pf then
          let! index := get_char_until_next_slash request index in
          let! ch := atoi_buffer1 in
          let CH := uchar ch in
          let! index := get_char_until_next_slash request index in
          let! co := atoi_buffer1 in
          let CO := uchar co in
          let! index := get_char_until_next_slash request index in
          let! va := atoi_buffer1 in
          let VA := if 0 <=? va then load fwdSpeed va wild
                    else load revSpeed (int16 (- va)) wild in
          do store_queue 0 5;;
          do store_queue 1 (uchar PWM);;
          do store_queue 2 (uchar VA);;
          do store_queue 3 CO;;
          do store_queue 4 CH;;
          ret (true, false)
        else ret (false, false)
      else
      let! is_signal := strcmp_buffer1 SIGNAL in
      if is_signal then
        let! index := get_char_until_next_slash request index in
        let! sg := atoi_buffer1 in
        let Signal := uchar sg in
        do (if (0 <=? Signal) && (Signal <? NUM_SIGNALS) then
              let! index := get_char_until_next_slash request index in
              let! li := atoi_buffer1 in
              let Light := uchar li in
              if (0 <=? Light) && (Light <? 2) then
                let! index := get_char_until_next_slash request index in
                let! va := atoi_buffer1 in
                let Value := uchar va in
                if (0 <=? Value) && (Value <=? 1) then
                  set_signal wild Signal Light (Value =? 1)
                else ret tt
              else ret tt
            else ret tt);;
        ret (true, false)
      else
      let! is_switch := strcmp_buffer1 SWITCH in
      if is_switch then
        let! index := get_char_until_next_slash request index in
        let! sw := atoi_buffer1 in
        let s := uchar sw in
        let! index := get_char_until_next_slash request index in
        let! an := atoi_buffer1 in
        let a := uchar an in
        do (if (0 <=? s) && (s <? NUM_SERVO_SWITCHES) && (0 <=? a) && (a <? 2)
            then
              let ang := uchar (load SERVO_SWITCH_ANGLES a wild) in
              set_switch s ang
            else ret tt);;
        ret (true, false)
      else
      let! is_barrier := strcmp_buffer1 BARRIER in
      if is_barrier then
        let! index := get_char_until_next_slash request index in
        let! ba := atoi_buffer1 in
        let b := uchar ba in
        let! index := get_char_until_next_slash request index in
        let! an := atoi_buffer1 in
        let a := uchar an in
        do (if (0 <=? b) && (b <? NUM_SERVO_BARRIERS) && (0 <=? a) && (a <? 2)
            then
              let ang := uchar (load SERVO_BARRIER_ANGLES a wild) in
              set_barrier b ang
            else ret tt);;
        ret (true, false)
      else ret (false, false)
    else ret (false, false)
  else ret (false, false).

(** ** Power function IR-LED queue *)

(** [update_pf_ir_queue]; [wild] is the byte read at [queue[4]], one past
    the end of the array. *)
Definition update_pf_ir_queue (wild : Z) : M unit :=
  let! s := get in
  if load (queue s) 0 wild >? 0 then
    do for_each (seqZ 0 NUM_LEGO_PF) (fun i =>
         let! s := get in
         emit (SingleOutput i (load (queue s) 1 wild) (load (queue s) 2 wild)
                              (load (queue s) 3 wild) (load (queue s) 4 wild)));;
    let! s := get in
    store_queue 0 (uchar (load (queue s) 0 wild - 1))
  else ret tt.

(** ** MQTT functions *)

(** [itoa(n, buf, 10)]: the decimal digits of [n], most significant
    first, with a minus sign for a negative [n]. *)
Fixpoint decimal (fuel : nat) (n : Z) (acc : list Z) : list Z :=
  match fuel with
  | O => acc
  | S fuel' =>
    if n <? 10 then (48 + n) :: acc
    else decimal fuel' (n / 10) ((48 + n mod 10) :: acc)
  end.

Definition itoa (n : Z) : list Z :=
  if n <? 0 then 45 :: decimal 5 (- n) [] else decimal 5 n [].

(** Storing the characters [cs] and a terminator from position [pos] on:
    what [strcpy] ([pos = 0]) and [strcat] ([pos = strlen]) do. *)
Fixpoint store_chars (st : Z -> Z -> M unit) (pos : Z) (cs : list Z) : M unit :=
  match cs with
  | [] => st pos 0
  | c :: rest => do st pos c;; store_chars st (pos + 1) rest
  end.

Definition strcpy_buffer1 (src : list Z) : M unit :=
  store_chars store_buffer1 0 (c_str src).
Definition strcat_buffer1 (src : list Z) : M unit :=
  let! s := get in
  store_chars store_buffer1 (Z.of_nat (length (c_str (buffer1 s)))) (c_str src).
Definition itoa_buffer2 (n : Z) : M unit :=
  store_chars store_buffer2 0 (itoa n).

(** [mqtt_publish_position_sensor(i, v)]; [connected] is the answer of
    [mqtt_client.connected()].  The call itself is recorded as
    [PositionChanged i v], the message handed to the client as
    [MqttPublish]. *)
Definition mqtt_publish_position_sensor (wild : Z) (connected : bool)
    (i v : Z) : M unit :=
  do emit (PositionChanged i v);;
  if connected then
    do strcpy_buffer1 LEGO;;
    do strcat_buffer1 SLASH;;
    do strcat_buffer1 TRAIN;;
    do strcat_buffer1 SLASH;;
    do strcat_buffer1 POSITION;;
    do strcat_buffer1 SLASH;;
    do itoa_buffer2 (load POSITION_SENSOR_IDS i wild);;
    do (let! s := get in strcat_buffer1 (buffer2 s));;
    do itoa_buffer2 v;;
    let! s := get in
    emit (MqttPublish (c_str (buffer1 s)) (c_str (buffer2 s)))
  else ret tt.

(** ** Position sensors *)

(** [update_position_sensors]; [digitalRead pin] is the raw level read on
    a pin during this poll. *)
Definition update_position_sensors (wild : Z) (digitalRead : Z -> Z)
    (connected : bool) : M unit :=
  for_each (seqZ 0 NUM_POSITION_SENSORS) (fun i =>
    let v := uchar (digitalRead (load POSITION_SENSOR_PINS i wild)) in
    let v := uchar ((v + 1) mod 2) in
    let! s := get in
    if negb (v =? load (position_sensor s) i wild) then
      do modify (fun s =>
           set_position_sensor (<[Z.to_nat i := v]> (position_sensor s)) s);;
      mqtt_publish_position_sensor wild connected i v
    else ret tt).

(** The request [mqtt_callback(topic, payload, length)] assembles: the
    topic, a ['/'] and the bytes of the payload ([strcat] of a NUL byte
    appends nothing). *)
Definition mqtt_callback_request (topic payload : list Z) : list Z :=
  c_str topic ++ SLASH ++ filter (fun c => c <> 0) payload.

Definition mqtt_callback `{LegoPowerFunctions} (wild : Z)
    (topic payload : list Z) : M unit :=
  do process_request_by_char wild (mqtt_callback_request topic payload);;
  ret tt.

(** ** Running the model *)

Definition exec {A} (m : M A) (s : state) : state := snd (m s).
Definition eval {A} (m : M A) (s : state) : A := fst (m s).

(** The state [setup] leaves. *)
Definition ready (wild : Z) : state := exec (setup wild) power_on.

(** The events a computation adds to the trace. *)
Definition emitted {A} (m : M A) (s : state) : list event :=
  drop (length (trace s)) (trace (exec m s)).

(** ** What the tokenizer computes

    The token read at cursor [i] is made of the characters from [i] up to
    the next ['/'] or NUL; no character at index [MAX_BUFFER_SIZE] or
    beyond goes into a token. *)

Definition token_char (c : Z) : bool := negb (c =? 0) && negb (c =? 47).

Fixpoint token (l : list Z) : list Z :=
  match l with
  | c :: rest => if token_char c then c :: token rest else []
  | [] => []
  end.

(** The characters the loop may read from cursor [i] on. *)
Definition window (str : list Z) (i : Z) : list Z :=
  take (Z.to_nat (MAX_BUFFER_SIZE - i)) (drop (Z.to_nat i) str).

Definition tok (str : list Z) (i : Z) : list Z := token (window str i).

(** The cursor after the token read at [i]: past the token, and past the
    ['/'] that ends it if there is one. *)
Definition next (str : list Z) (i : Z) : Z :=
  i + Z.of_nat (length (tok str i)) +
  match drop (length (tok str i)) (window str i) with
  | 47 :: _ => 1
  | _ => 0
  end.

(** A stray store into the scratch buffer [buffer1]. *)
Definition is_scratch_event (e : event) : Prop :=
  match e with StrayStore Abuffer1 _ _ => True | _ => False end.

(** Only the scratch buffer differs between [s] and [s']: [buffer1] is
    rewritten, and the trace gains at most stray stores into it. *)
Definition scratch (s s' : state) : Prop :=
  exists b t, length b = Z.to_nat MAX_BUFFER_SIZE /\
              Forall is_scratch_event t /\
              s' = set_trace (trace s ++ t) (set_buffer1 b s).

(** The state after the tokenizer has delivered the token [t]: the token
    and its terminator in [buffer1]; a token that fills the whole buffer
    has its terminator stored one cell past the end. *)
Definition after_token (t : list Z) (s : state) : state :=
  if Z.of_nat (length t) <? MAX_BUFFER_SIZE then
    set_buffer1 (t ++ 0 :: drop (S (length t)) (buffer1 s)) s
  else
    set_trace (trace s ++ [StrayStore Abuffer1 (Z.of_nat (length t)) 0])
              (set_buffer1 (t ++ drop (length t) (buffer1 s)) s).

(** ** The dispatcher, read as parse-then-act

    Every path of [process_request_by_char] first reads tokens and then
    acts on the numbers they hold.  [parse] is the first half as a pure
    function of the request, [act] the second half. *)

Inductive command :=
| Config
| MotorPf (CH CO va : Z)
| SetSignal (Signal Light Value : Z)
| SetSwitch (s a : Z)
| SetBarrier (b a : Z)
| Malformed.

Definition parse (req : list Z) : command :=
  let i1 := next req 0 in
  let i2 := next req i1 in
  let i3 := next req i2 in
  let i4 := next req i3 in
  let i5 := next req i4 in
  let i6 := next req i5 in
  if bool_decide (tok req 0 = LEGO) then
    if bool_decide (tok req i1 = TRAIN) then
      if bool_decide (tok req i2 = CONFIG) then Config
      else if bool_decide (tok req i2 = MOTOR) then
        if bool_decide (tok req i3 = PF) then
          MotorPf (uchar (atoi (tok req i4))) (uchar (atoi (tok req i5)))
                  (atoi (tok req i6))
        else Malformed
      else if bool_decide (tok req i2 = SIGNAL) then
        SetSignal (uchar (atoi (tok req i3))) (uchar (atoi (tok req i4)))
                  (uchar (atoi (tok req i5)))
      else if bool_decide (tok req i2 = SWITCH) then
        SetSwitch (uchar (atoi (tok req i3))) (uchar (atoi (tok req i4)))
      else if bool_decide (tok req i2 = BARRIER) then
        SetBarrier (uchar (atoi (tok req i3))) (uchar (atoi (tok req i4)))
      else Malformed
    else Malformed
  else Malformed.

Definition act `{LegoPowerFunctions} (wild : Z) (c : command) : M (bool * bool) :=
  match c with
  | Config => ret (true, true)
  | MotorPf CH CO va =>
    let VA := if 0 <=? va then load fwdSpeed va wild
              else load revSpeed (int16 (- va)) wild in
    do store_queue 0 5;;
    do store_queue 1 (uchar PWM);;
    do store_queue 2 (uchar VA);;
    do store_queue 3 CO;;
    do store_queue 4 CH;;
    ret (true, false)
  | SetSignal Signal Light Value =>
    do (if (0 <=? Signal) && (Signal <? NUM_SIGNALS) then
          if (0 <=? Light) && (Light <? 2) then
            if (0 <=? Value) && (Value <=? 1) then
              set_signal wild Signal Light (Value =? 1)
            else ret tt
          else ret tt
        else ret tt);;
    ret (true, false)
  | SetSwitch s a =>
    do (if (0 <=? s) && (s <? NUM_SERVO_SWITCHES) && (0 <=? a) && (a <? 2)
        then set_switch s (uchar (load SERVO_SWITCH_ANGLES a wild))
        else ret tt);;
    ret (true, false)
  | SetBarrier b a =>
    do (if (0 <=? b) && (b <? NUM_SERVO_BARRIERS) && (0 <=? a) && (a <? 2)
        then set_barrier b (uchar (load SERVO_BARRIER_ANGLES a wild))
        else ret tt);;
    ret (true, false)
  | Malformed => ret (false, false)
  end.

(** What is known of the state right after a token has been read. *)
Definition holds (s s1 : state) (t : list Z) : Prop :=
  scratch s s1 /\ c_str (buffer1 s1) = t /\
  length (buffer1 s1) = Z.to_nat MAX_BUFFER_SIZE.

(** ** Relations between the state before and after a computation *)

(** [rel R m]: whatever the state [s], running [m] leads to a state
    related to [s] by [R]. *)
Definition rel (R : state -> state -> Prop) {A} (m : M A) : Prop :=
  forall s, R s (exec m s).

(** The arrays keep their sizes. *)
Definition same_shape (s s' : state) : Prop :=
  length (queue s') = length (queue s) /\
  length (position_sensor s') = length (position_sensor s) /\
  length (servo_switch s') = length (servo_switch s) /\
  length (servo_barrier s') = length (servo_barrier s) /\
  length (buffer1 s') = length (buffer1 s) /\
  length (buffer2 s') = length (buffer2 s).

(** The sizes the declarations give the arrays. *)
Definition well_formed (s : state) : Prop :=
  length (queue s) = 4%nat /\
  length (position_sensor s) = Z.to_nat NUM_POSITION_SENSORS /\
  length (servo_switch s) = Z.to_nat NUM_SERVO_SWITCHES /\
  length (servo_barrier s) = Z.to_nat NUM_SERVO_BARRIERS /\
  length (buffer1 s) = Z.to_nat MAX_BUFFER_SIZE /\
  length (buffer2 s) = Z.to_nat MAX_BUFFER_SIZE.

(** The pin levels are left alone. *)
Definition same_pins (s s' : state) : Prop := pins s' = pins s.

(** ** The vocabulary of the properties *)

(** A request written as its tokens: [join [a; b; c]] is [a/b/c]. *)
Fixpoint join (ts : list (list Z)) : list Z :=
  match ts with
  | [] => []
  | [t] => t
  | t :: rest => t ++ 47 :: join rest
  end.

(** A token of a request: no ['/'] and no NUL in it. *)
Definition is_token (t : list Z) : Prop := Forall (fun c => token_char c = true) t.

(** A request that fits the [MAX_BUFFER_SIZE] characters of the request
    buffer together with its terminator. *)
Definition fits (req : list Z) : Prop := Z.of_nat (length req) < MAX_BUFFER_SIZE.

(** The first [n] tokens the tokenizer delivers, from cursor [i] on. *)
Fixpoint tokens_from (n : nat) (str : list Z) (i : Z) : list (list Z) :=
  match n with
  | O => []
  | S n' => tok str i :: tokens_from n' str (next str i)
  end.

(** The grammar of the top-level tokens:
    [lego/train/<config | motor/pf | signal | switch | barrier>]. *)
Definition top_level_match (req : list Z) : bool :=
  match tokens_from 4 req 0 with
  | [t0; t1; t2; t3] =>
    bool_decide (t0 = LEGO) && bool_decide (t1 = TRAIN) &&
    (bool_decide (t2 = CONFIG) ||
     (bool_decide (t2 = MOTOR) && bool_decide (t3 = PF)) ||
     bool_decide (t2 = SIGNAL) || bool_decide (t2 = SWITCH) ||
     bool_decide (t2 = BARRIER))
  | _ => false
  end.

(** A motor command: its tokens lead to the [pf] branch. *)
Definition motor_command (req : list Z) : Prop :=
  tokens_from 4 req 0 = [LEGO; TRAIN; MOTOR; PF].

(** The pin of lamp [j] of signal [sg]. *)
Definition lamp_pin (sg j : Z) : Z := uchar (load SIGNAL_PINS (2 * sg + j) 0).

(** Lamp [j] of signal [sg] is lit: its pin was last driven [LOW]. *)
Definition lit (s : state) (sg j : Z) : bool :=
  bool_decide (pins s !! lamp_pin sg j = Some LOW).

Definition one_lamp_lit (s : state) (sg : Z) : Prop :=
  xorb (lit s sg 0) (lit s sg 1) = true.

(** The states the sketch can be in between two steps of [loop]: the state
    [setup] leaves, and what a dispatched request, a sensor poll, a queue
    update or an update of the status LED makes of such a state. *)
Inductive reachable `{LegoPowerFunctions} : state -> Prop :=
| reach_setup wild : reachable (ready wild)
| reach_request wild req s :
    reachable s -> reachable (exec (process_request_by_char wild req) s)
| reach_sensors wild rd connected s :
    reachable s ->
    reachable (exec (update_position_sensors wild rd connected) s)
| reach_queue wild s :
    reachable s -> reachable (exec (update_pf_ir_queue wild) s)
| reach_status_led due s :
    reachable s -> reachable (exec (update_status_led due) s)
| reach_scratch b1 b2 s :
    (* the MQTT plumbing (mqtt_subscribe) rewrites the scratch buffers *)
    length b1 = Z.to_nat MAX_BUFFER_SIZE ->
    length b2 = Z.to_nat MAX_BUFFER_SIZE ->
    reachable s -> reachable (set_buffer2 b2 (set_buffer1 b1 s)).

(** The sensor changes a trace reports. *)
Definition notifications (t : list event) : list (Z * Z) :=
  omap (fun e => match e with PositionChanged i v => Some (i, v) | _ => None end) t.

(** The messages a trace hands to the MQTT client. *)
Definition published (t : list event) : list (list Z * list Z) :=
  omap (fun e => match e with MqttPublish a b => Some (a, b) | _ => None end) t.

(** The logical value of a raw pin level. *)
Definition inverted (raw : Z) : Z := uchar ((uchar raw + 1) mod 2).

(** Successive controller ticks of the IR queue; each tick comes with the
    byte it finds past the end of [queue]. *)
Definition ticks (wilds : list Z) : M unit := for_each wilds update_pf_ir_queue.

(** The frames one tick broadcasts for a loaded queue. *)
Definition broadcast (mode step output channel : Z) : list event :=
  map (fun led => SingleOutput led mode step output channel) (seqZ 0 NUM_LEGO_PF).

(** The states a dispatched request leaves alone as far as actuators go. *)
Definition actuators_untouched (s s' : state) : Prop :=
  queue s' = queue s /\ servo_switch s' = servo_switch s /\
  servo_barrier s' = servo_barrier s /\ pins s' = pins s /\
  position_sensor s' = position_sensor s /\
  exists t, trace s' = trace s ++ t /\ Forall is_scratch_event t.

(** [parse] on the tokens themselves. *)
Definition route (ts : list (list Z)) : command :=
  match ts with
  | [t0; t1; t2; t3; t4; t5; t6] =>
    if bool_decide (t0 = LEGO) then
      if bool_decide (t1 = TRAIN) then
        if bool_decide (t2 = CONFIG) then Config
        else if bool_decide (t2 = MOTOR) then
          if bool_decide (t3 = PF) then
            MotorPf (uchar (atoi t4)) (uchar (atoi t5)) (atoi t6)
          else Malformed
        else if bool_decide (t2 = SIGNAL) then
          SetSignal (uchar (atoi t3)) (uchar (atoi t4)) (uchar (atoi t5))
        else if bool_decide (t2 = SWITCH) then
          SetSwitch (uchar (atoi t3)) (uchar (atoi t4))
        else if bool_decide (t2 = BARRIER) then
          SetBarrier (uchar (atoi t3)) (uchar (atoi t4))
        else Malformed
      else Malformed
    else Malformed
  | _ => Malformed
  end.

(** The first [n] tokens of a request written as [ts]; a request with
    fewer tokens yields empty tokens at its end. *)
Fixpoint pad (n : nat) (ts : list (list Z)) : list (list Z) :=
  match n with
  | O => []
  | S n' =>
    match ts with
    | [] => [] :: pad n' []
    | t :: rest => t :: pad n' rest
    end
  end.

(** The speed level the [pf] branch resolves a speed to: the forward
    table for a speed of 0 or more, the reverse table at the negated speed
    below 0. *)
Definition speed_level `{LegoPowerFunctions} (wild va : Z) : Z :=
  if 0 <=? va then load fwdSpeed va wild else load revSpeed (int16 (- va)) wild.

(** The four cells of [queue] a motor command loads: the repeat count,
    the mode, the speed level and the output side. *)
Definition motor_payload `{LegoPowerFunctions} (wild : Z) (req : list Z) : list Z :=
  match tokens_from 7 req 0 with
  | [_; _; _; _; _; co; va] =>
    [5; uchar PWM; uchar (speed_level wild (atoi va)); uchar (atoi co)]
  | _ => []
  end.

(** The channel of a motor command. *)
Definition motor_channel (req : list Z) : Z :=
  match tokens_from 5 req 0 with
  | [_; _; _; _; ch] => uchar (atoi ch)
  | _ => 0
  end.

(** The sensor values are left alone and no sensor change is reported. *)
Definition quiet (s s' : state) : Prop :=
  position_sensor s' = position_sensor s /\
  exists t, trace s' = trace s ++ t /\ notifications t = [].

(** The events a dispatched request may add to the trace: a servo sent
    one of its two registered angles, a signal pin driven, the channel of
    a motor command stored past [queue], the terminator of a token stored
    past [buffer1]. *)
Definition command_event (e : event) : Prop :=
  match e with
  | ServoSwitchWrite i a =>
    0 <= i < NUM_SERVO_SWITCHES /\
    (a = SERVO_SWITCH_MIN_ANGLE \/ a = SERVO_SWITCH_MAX_ANGLE)
  | ServoBarrierWrite i a =>
    0 <= i < NUM_SERVO_BARRIERS /\
    (a = SERVO_BARRIER_MIN_ANGLE \/ a = SERVO_BARRIER_MAX_ANGLE)
  | DigitalWrite pin level =>
    pin ∈ SIGNAL_PINS /\ (level = LOW \/ level = HIGH)
  | StrayStore Aqueue i _ => i = 4
  | StrayStore Abuffer1 _ _ => True
  | _ => False
  end.

(** What a dispatched request leaves alone whatever it says: the status
    LED, the sensor values, the second scratch buffer; and what it may
    emit. *)
Definition command_frame (s s' : state) : Prop :=
  status_led_is_on s' = status_led_is_on s /\
  position_sensor s' = position_sensor s /\
  buffer2 s' = buffer2 s /\
  pins s' !! STATUS_LED_PIN = pins s !! STATUS_LED_PIN /\
  exists t, trace s' = trace s ++ t /\ Forall command_event t.

(** The answer of the dispatcher that goes with each command. *)
Definition answer (c : command) : bool * bool :=
  match c with
  | Config => (true, true)
  | Malformed => (false, false)
  | _ => (true, false)
  end.
(** The commands that reach an actuator: a motor command always does, a
    signal, switch or barrier command when its numbers are in range. *)
Definition drives (c : command) : bool :=
  match c with
  | MotorPf _ _ _ => true
  | SetSignal sg l v => (sg <? NUM_SIGNALS) && (l <? 2) && (v <=? 1)
  | SetSwitch i a => (i <? NUM_SERVO_SWITCHES) && (a <? 2)
  | SetBarrier i a => (i <? NUM_SERVO_BARRIERS) && (a <? 2)
  | Config | Malformed => false
  end.

(** The level the speed tables give a speed from -7 to 7: the forward
    table for 0 and more, the reverse table at the distance from 0
    below. *)
Definition table_level `{LegoPowerFunctions} (speed : Z) : Z :=
  nth (Z.abs_nat speed) (if 0 <=? speed then fwdSpeed else revSpeed) 0.

(** Reading [n] tokens in a row from cursor [i] on, as the dispatcher
    does: the C string found in [buffer1] after each call of the
    tokenizer. *)
Fixpoint read_tokens (n : nat) (str : list Z) (i : Z) : M (list (list Z)) :=
  match n with
  | O => ret []
  | S n' =>
    let! j := get_char_until_next_slash str i in
    let! s := get in
    let! rest := read_tokens n' str j in
    ret (c_str (buffer1 s) :: rest)
  end.

(** The status LED and the pins are left alone. *)
Definition same_led (s s' : state) : Prop :=
  status_led_is_on s' = status_led_is_on s /\ pins s' = pins s.

(** The flag [status_led_is_on] tells the level of the status LED pin. *)
Definition led_consistent (s : state) : Prop :=
  pins s !! STATUS_LED_PIN = Some (if status_led_is_on s then HIGH else LOW).

(** *** Switches and barriers, all at once *)

Definition all_switches_off (wild : Z) : M unit :=
  for_each (seqZ 0 NUM_SERVO_SWITCHES) (fun i => switch_off wild i).

Definition all_switches_on (wild : Z) : M unit :=
  for_each (seqZ 0 NUM_SERVO_SWITCHES) (fun i => switch_on wild i).

Definition all_barriers_off (wild : Z) : M unit :=
  for_each (seqZ 0 NUM_SERVO_BARRIERS) (fun i => barrier_off wild i).

Definition all_barriers_on (wild : Z) : M unit :=
  for_each (seqZ 0 NUM_SERVO_BARRIERS) (fun i => barrier_on wild i).

(** ** Reading the request of a client, cell by cell *)

(** The [while] loop of [get_char_from_client] on the buffer [buf] of the
    caller and the index [i]; [incoming] is what the client has
    available. *)
Fixpoint client_loop (incoming buf : list Z) (i : Z) : list Z * Z :=
  match incoming with
  | [] => (buf, i)
  | c :: rest =>
    if i <? MAX_BUFFER_SIZE then
      if negb (c =? 13) && negb (c =? 10)
      then client_loop rest (<[Z.to_nat i := c]> buf) (uchar (i + 1))
      else client_loop rest buf i
    else (buf, i)
  end.

(** [get_char_from_client(client, buf)] on the cells of [buf]: the buffer
    it leaves, and whether the terminator was stored past its end. *)
Definition get_char_from_client_cells (incoming buf : list Z) : list Z * bool :=
  let (buf', i) := client_loop incoming buf 0 in
  if (0 <=? i) && (i <? Z.of_nat (length buf'))
  then (<[Z.to_nat i := 0]> buf', false)
  else (buf', true).

(** ** String building in the scratch buffers *)

(** Only the scratch buffers differ between [s0] and [s]; they hold the C
    strings [t] and [u]. *)
Definition building (s0 : state) (t u : list Z) (s : state) : Prop :=
  (exists b1 b2, s = set_buffer2 b2 (set_buffer1 b1 s0)) /\
  length (buffer1 s) = Z.to_nat MAX_BUFFER_SIZE /\
  length (buffer2 s) = Z.to_nat MAX_BUFFER_SIZE /\
  c_str (buffer1 s) = t /\ c_str (buffer2 s) = u.
(** The topic a change of sensor [i] is published on, and the events a
    reported change of sensor [i] to [v] leaves in the trace when the MQTT
    client is connected. *)
Definition position_topic (i : Z) : list Z :=
  join [LEGO; TRAIN; POSITION; itoa (load POSITION_SENSOR_IDS i 0)].

Definition report (i v : Z) : list event :=
  [PositionChanged i v; MqttPublish (position_topic i) (itoa v)].

(** *** Subscriptions *)

Definition WILDCARD : list Z := chars "#".

(** A [for] loop that hands back what each round yields. *)
Fixpoint for_collect {A B} (l : list A) (body : A -> M B) : M (list B) :=
  match l with
  | [] => ret []
  | x :: rest =>
    let! b := body x in
    let! bs := for_collect rest body in
    ret (b :: bs)
  end.

(** [mqtt_client.subscribe(buffer1)]: the topic handed to the client. *)
Definition subscribe_buffer1 : M (list Z) :=
  let! s := get in ret (c_str (buffer1 s)).

(** [mqtt_subscribe]; the result is the list of the topics handed to
    [mqtt_client.subscribe], in the order of the calls. *)
Definition mqtt_subscribe : M (list (list Z)) :=
  do strcpy_buffer1 LEGO;;
  do strcat_buffer1 SLASH;;
  do strcat_buffer1 TRAIN;;
  do strcat_buffer1 SLASH;;
  do strcat_buffer1 MOTOR;;
  do strcat_buffer1 SLASH;;
  do strcat_buffer1 PF;;
  do strcat_buffer1 SLASH;;
  do strcat_buffer1 WILDCARD;;
  let! motor := subscribe_buffer1 in
  let! switches :=
    for_collect (seqZ 0 NUM_SERVO_SWITCHES) (fun i =>
      do strcpy_buffer1 LEGO;;
      do strcat_buffer1 SLASH;;
      do strcat_buffer1 TRAIN;;
      do strcat_buffer1 SLASH;;
      do strcat_buffer1 SWITCH;;
      do strcat_buffer1 SLASH;;
      do itoa_buffer2 i;;
      do (let! s := get in strcat_buffer1 (buffer2 s));;
      subscribe_buffer1) in
  let! barriers :=
    for_collect (seqZ 0 NUM_SERVO_BARRIERS) (fun i =>
      do strcpy_buffer1 LEGO;;
      do strcat_buffer1 SLASH;;
      do strcat_buffer1 TRAIN;;
      do strcat_buffer1 SLASH;;
      do strcat_buffer1 BARRIER;;
      do strcat_buffer1 SLASH;;
      do itoa_buffer2 i;;
      do (let! s := get in strcat_buffer1 (buffer2 s));;
      subscribe_buffer1) in
  let! signals :=
    for_collect (seqZ 0 NUM_SIGNALS) (fun i =>
      for_collect (seqZ 0 2) (fun j =>
        do strcpy_buffer1 LEGO;;
        do strcat_buffer1 SLASH;;
        do strcat_buffer1 TRAIN;;
        do strcat_buffer1 SLASH;;
        do strcat_buffer1 SIGNAL;;
        do strcat_buffer1 SLASH;;
        do itoa_buffer2 i;;
        do (let! s := get in strcat_buffer1 (buffer2 s));;
        do strcat_buffer1 SLASH;;
        do itoa_buffer2 j;;
        do (let! s := get in strcat_buffer1 (buffer2 s));;
        subscribe_buffer1)) in
  ret (motor :: switches ++ barriers ++ concat signals).

(** [reconnect_mqtt]; [accepted] is the answer of [mqtt_client.connect]. *)
Definition reconnect_mqtt (accepted : bool) : M (list (list Z)) :=
  if accepted then mqtt_subscribe else ret [].

(** The topics of the commands: the motors under a wildcard, one topic
    per switch, per barrier and per lamp of a signal. *)
Definition command_topics : list (list Z) :=
  join [LEGO; TRAIN; MOTOR; PF; WILDCARD] ::
  map (fun i => join [LEGO; TRAIN; SWITCH; itoa i]) (seqZ 0 NUM_SERVO_SWITCHES) ++
  map (fun i => join [LEGO; TRAIN; BARRIER; itoa i]) (seqZ 0 NUM_SERVO_BARRIERS) ++
  flat_map (fun i => map (fun j => join [LEGO; TRAIN; SIGNAL; itoa i; itoa j]) (seqZ 0 2))
           (seqZ 0 NUM_SIGNALS).

(** ** The answer to an HTTP client *)

(** Pins and ids of the devices that the dispatcher does not name. *)
Definition A4 : Z := 22.
Definition A5 : Z := 23.
Definition SERVO_SWITCH_PINS : list Z := [4; 5; 6; 7].
Definition SERVO_SWITCH_IDS : list Z := [0; 1; 2; 3].
Definition SERVO_BARRIER_PINS : list Z := [8; 9; 10; 11].
Definition SERVO_BARRIER_IDS : list Z := [0; 1; 2; 3].
Definition SIGNAL_IDS : list Z := [0; 1].
Definition NUM_PF_IR_LEDS : Z := 2.
Definition PF_IR_LED_PINS : list Z := [A4; A5].
Definition PF_IR_LED_IDS : list Z := [0; 1].

(** JSON text; [S_] is the constant [S] of the sketch. *)
Definition COMMA : list Z := chars ",".
Definition COLONS : list Z := chars ":".
Definition ISOK : list Z := chars "isok".
Definition TRUE : list Z := chars "true".
Definition FALSE : list Z := chars "false".
Definition CURLY_BRACE_ON : list Z := chars "{".
Definition CURLY_BRACE_OFF : list Z := chars "}".
Definition BRACKET_ON : list Z := chars "[".
Definition BRACKET_OFF : list Z := chars "]".
Definition ES : list Z := chars "es".
Definition S_ : list Z := chars "s".
Definition PIN : list Z := chars "pin".
Definition ID : list Z := chars "id".
Definition QUOTES : list Z := [34].

(** [client.print] of a string constant and of an [unsigned char], which
    is printed as a decimal number; what is printed is collected in
    order. *)
Definition print (text : list Z) : list Z := c_str text.
Definition print_number (wild : Z) (a : list Z) (i : Z) : list Z :=
  itoa (uchar (load a i wild)).

(** [send_json_configuration]: the text it prints. *)
Definition send_json_configuration (wild : Z) : list Z :=
  print QUOTES ++ print LEGO ++ print QUOTES ++ print COLONS ++ print CURLY_BRACE_ON ++
  print QUOTES ++ print TRAIN ++ print QUOTES ++ print COLONS ++ print CURLY_BRACE_ON ++
  print QUOTES ++ print MOTOR ++ print S_ ++ print QUOTES ++ print COLONS ++
  print CURLY_BRACE_ON ++
  print QUOTES ++ print PF ++ print QUOTES ++ print COLONS ++ print BRACKET_ON ++
  flat_map (fun i =>
    (if i >? 0 then print COMMA else []) ++
    print CURLY_BRACE_ON ++
    print QUOTES ++ print ID ++ print QUOTES ++ print COLONS ++
    print_number wild PF_IR_LED_IDS i ++
    print COMMA ++
    print QUOTES ++ print PIN ++ print QUOTES ++ print COLONS ++
    print_number wild PF_IR_LED_PINS i ++
    print CURLY_BRACE_OFF) (seqZ 0 NUM_PF_IR_LEDS) ++
  print BRACKET_OFF ++
  print CURLY_BRACE_OFF ++
  print COMMA ++
  print QUOTES ++ print POSITION ++ print S_ ++ print QUOTES ++ print COLONS ++
  print BRACKET_ON ++
  flat_map (fun i =>
    (if i >? 0 then print COMMA else []) ++
    print CURLY_BRACE_ON ++
    print QUOTES ++ print ID ++ print QUOTES ++ print COLONS ++
    print_number wild POSITION_SENSOR_IDS i ++
    print COMMA ++
    print QUOTES ++ print PIN ++ print QUOTES ++ print COLONS ++
    print_number wild POSITION_SENSOR_PINS i ++
    print CURLY_BRACE_OFF) (seqZ 0 NUM_POSITION_SENSORS) ++
  print BRACKET_OFF ++
  print COMMA ++
  print QUOTES ++ print SWITCH ++ print ES ++ print QUOTES ++ print COLONS ++
  print BRACKET_ON ++
  flat_map (fun i =>
    (if i >? 0 then print COMMA else []) ++
    print CURLY_BRACE_ON ++
    print QUOTES ++ print ID ++ print QUOTES ++ print COLONS ++
    print_number wild SERVO_SWITCH_IDS i ++
    print COMMA ++
    print QUOTES ++ print PIN ++ print QUOTES ++ print COLONS ++
    print_number wild SERVO_SWITCH_PINS i ++
    print CURLY_BRACE_OFF) (seqZ 0 NUM_SERVO_SWITCHES) ++
  print BRACKET_OFF ++
  print COMMA ++
  print QUOTES ++ print BARRIER ++ print S_ ++ print QUOTES ++ print COLONS ++
  print BRACKET_ON ++
  flat_map (fun i =>
    (if i >? 0 then print COMMA else []) ++
    print CURLY_BRACE_ON ++
    print QUOTES ++ print ID ++ print QUOTES ++ print COLONS ++
    print_number wild SERVO_BARRIER_IDS i ++
    print COMMA ++
    print QUOTES ++ print PIN ++ print QUOTES ++ print COLONS ++
    print_number wild SERVO_BARRIER_PINS i ++
    print CURLY_BRACE_OFF) (seqZ 0 NUM_SERVO_BARRIERS) ++
  print BRACKET_OFF ++
  print COMMA ++
  print QUOTES ++ print SIGNAL ++ print S_ ++ print QUOTES ++ print COLONS ++
  print BRACKET_ON ++
  flat_map (fun i =>
    (if i >? 0 then print COMMA else []) ++
    print CURLY_BRACE_ON ++
    print QUOTES ++ print ID ++ print QUOTES ++ print COLONS ++
    print_number wild SERVO_SWITCH_IDS i ++
    print COMMA ++
    print QUOTES ++ print PIN ++ print S_ ++ print QUOTES ++ print COLONS ++
    print BRACKET_ON ++
    flat_map (fun j =>
      (if j >? 0 then print COMMA else []) ++
      print_number wild SIGNAL_PINS (2 * i + j)) (seqZ 0 2) ++
    print BRACKET_OFF ++
    print CURLY_BRACE_OFF) (seqZ 0 NUM_SIGNALS) ++
  print BRACKET_OFF ++
  print CURLY_BRACE_OFF ++
  print CURLY_BRACE_OFF.

(** [process_request_by_client]: the request is read from the client and
    dispatched; the result is the text printed to the client. *)
Definition process_request_by_client `{LegoPowerFunctions} (wild : Z)
    (incoming : list Z) : M (list Z) :=
  let request := get_char_from_client incoming in
  let! r := process_request_by_char wild request in
  ret (print CURLY_BRACE_ON ++
       print QUOTES ++ print ISOK ++ print QUOTES ++ print COLONS ++
       (if fst r then
          print TRUE ++
          (if snd r then print COMMA ++ send_json_configuration wild else [])
        else print FALSE) ++
       print CURLY_BRACE_OFF).

(** A text written with apostrophes where the document has double
    quotes. *)
Definition dq (s : string) : list Z :=
  map (fun c => if c =? 39 then 34 else c) (chars s).

(** The topology document. *)
Definition topology : list Z :=
  dq "'lego':{'train':{'motors':{'pf':[{'id':0,'pin':22},{'id':1,'pin':23}]},'positions':[{'id':0,'pin':2},{'id':1,'pin':3}],'switches':[{'id':0,'pin':4},{'id':1,'pin':5},{'id':2,'pin':6},{'id':3,'pin':7}],'barriers':[{'id':0,'pin':8},{'id':1,'pin':9},{'id':2,'pin':10},{'id':3,'pin':11}],'signals':[{'id':0,'pins':[18,19]},{'id':1,'pins':[20,21]}]}}".

(** The servos and the queue are left alone. *)
Definition same_servos (s s' : state) : Prop :=
  servo_switch s' = servo_switch s /\ servo_barrier s' = servo_barrier s /\
  queue s' = queue s.

(** Every servo has been sent one of its two registered angles. *)
Definition servos_registered (s : state) : Prop :=
  Forall (fun a => a = Some SERVO_SWITCH_MIN_ANGLE \/ a = Some SERVO_SWITCH_MAX_ANGLE)
         (servo_switch s) /\
  Forall (fun a => a = Some SERVO_BARRIER_MIN_ANGLE \/ a = Some SERVO_BARRIER_MAX_ANGLE)
         (servo_barrier s).

(** The repeat count of the queue is at most the 5 a motor command
    loads. *)
Definition queue_bounded (s : state) : Prop :=
  exists n m st o, queue s = [n; m; st; o] /\ 0 <= n <= 5.

(** ** Main loop *)

(** [update_mqtt]; [up] is the answer of [mqtt_client.connected()] and
    [accepted] the answer of [mqtt_client.connect] if it is called.  The
    result tells whether the client holds a connection when [update_mqtt]
    returns, and the topics subscribed to on the way.
    [mqtt_client.loop()] hands incoming messages to [mqtt_callback] only on
    a connection. *)
Definition update_mqtt `{LegoPowerFunctions} (wild : Z) (up accepted : bool)
    (incoming : list (list Z * list Z)) : M (bool * list (list Z)) :=
  let! topics := (if negb up then reconnect_mqtt accepted else ret []) in
  let now := up || accepted in
  do (if now then for_each incoming (fun m => mqtt_callback wild (fst m) (snd m))
      else ret tt);;
  ret (now, topics).

(** What one iteration of [loop] finds outside the sketch. *)
Record surroundings := {
  client : option (list Z);         (* what [server.accept()] has to read *)
  digitalRead : Z -> Z;             (* the raw level of each input pin *)
  link : bool;                      (* a connection to the broker, once made,
                                       is still up *)
  accepted : bool;                  (* the broker accepts a new connection *)
  past_queue : Z;                   (* the byte that follows [queue] *)
  led_due : bool;                   (* the blinking timeout has passed *)
  messages : list (list Z * list Z) (* what [mqtt_client.loop()] delivers *)
}.

(** What an iteration of [loop] hands to the outside besides the calls
    recorded in the trace, and the state it leaves the MQTT client in. *)
Record outcome := {
  printed : option (list Z);        (* the answer printed to the HTTP client *)
  subscribed : list (list Z);       (* the topics subscribed to *)
  mqtt_connected : bool             (* the MQTT client holds a connection *)
}.

(** [loop], without [delay].  [mqtt] tells whether the MQTT client holds a
    connection when the iteration starts; [mqtt_client.connected()] answers
    yes when it does and the link is still up.  The link is looked at once
    in an iteration: the calls of [mqtt_client.connected()] of one
    iteration get the same answer. *)
Definition loop `{LegoPowerFunctions} (wild : Z) (w : surroundings) (mqtt : bool)
    : M outcome :=
  let! answered :=
    match client w with
    | Some incoming =>
      let! text := process_request_by_client wild incoming in
      ret (Some text)
    | None => ret None
    end in
  let up := mqtt && link w in
  do update_position_sensors wild (digitalRead w) up;;
  do update_pf_ir_queue (past_queue w);;
  do update_status_led (led_due w);;
  let! m := update_mqtt wild up (accepted w) (messages w) in
  ret {| printed := answered; subscribed := snd m; mqtt_connected := fst m |}.

(** The MQTT client is created without a connection, and [setup] makes
    none: [init_mqtt] only sets the server and the callback.  The sketch
    connects in [reconnect_mqtt] alone. *)
Definition mqtt_at_startup : bool := false.

(** Successive iterations of [loop]; the result is the state of the MQTT
    connection after the last one. *)
Fixpoint loops `{LegoPowerFunctions} (wild : Z) (ws : list surroundings)
    (mqtt : bool) : M bool :=
  match ws with
  | [] => ret mqtt
  | w :: rest =>
    let! o := loop wild w mqtt in
    loops wild rest (mqtt_connected o)
  end.

(** Surroundings in which the input pins read the levels [rd]. *)
Definition with_levels (rd : Z -> Z) (w : surroundings) : surroundings :=
  {| client := client w; digitalRead := rd; link := link w; accepted := accepted w;
     past_queue := past_queue w; led_due := led_due w; messages := messages w |}.

(** An idle iteration of [loop]: no client, no MQTT message, no blink
    due. *)
Definition idle (rd : Z -> Z) (lnk acc : bool) (past : Z) : surroundings :=
  {| client := None; digitalRead := rd; link := lnk; accepted := acc;
     past_queue := past; led_due := false; messages := [] |}.

(** The sensor values are left alone, no sensor change is reported and
    no message is handed to the MQTT client. *)
Definition hushed (s s' : state) : Prop :=
  position_sensor s' = position_sensor s /\
  exists t, trace s' = trace s ++ t /\ published t = [] /\ notifications t = [].

(** The byte last stored at [queue[4]], the cell that follows [queue]. *)
Definition stored_past_queue (t : list event) : option Z :=
  last (omap (fun e => match e with
                       | StrayStore Aqueue 4 v => Some v
                       | _ => None
                       end) t).


(** * Properties of the sketch *)

(** ** The state monad *)

Lemma bind_run {A B} (m : M A) (k : A -> M B) s :
  bind m k s = k (fst (m s)) (snd (m s)).
Proof. unfold bind. destruct (m s). reflexivity. Qed.

Lemma exec_bind {A B} (m : M A) (k : A -> M B) s :
  exec (bind m k) s = exec (k (eval m s)) (exec m s).
Proof. unfold exec, eval. rewrite bind_run. reflexivity. Qed.

Lemma exec_then_ret {A} (m : M A) s : exec (do m;; ret tt) s = exec m s.
Proof. unfold exec. rewrite bind_run. reflexivity. Qed.

Lemma emitted_app {A} (m : M A) s t :
  trace (exec m s) = trace s ++ t -> emitted m s = t.
Proof. intros Ht. unfold emitted. rewrite Ht. apply drop_app_length. Qed.

(** ** Machine integers and C strings *)

Ltac blia := unfold MAX_BUFFER_SIZE in *; lia.

Lemma uchar_small v : 0 <= v < 256 -> uchar v = v.
Proof. intros; unfold uchar; apply Z.mod_small; lia. Qed.

Lemma c_str_app_nul t rest : Forall (fun c => c <> 0) t -> c_str (t ++ 0 :: rest) = t.
Proof.
  induction 1 as [|c t Hc _ IH]; cbn; [reflexivity|].
  apply Z.eqb_neq in Hc. rewrite Hc. f_equal. exact IH.
Qed.

Lemma c_str_nonzero t : Forall (fun c => c <> 0) t -> c_str t = t.
Proof.
  induction 1 as [|c t Hc _ IH]; cbn; [reflexivity|].
  apply Z.eqb_neq in Hc. rewrite Hc. f_equal. exact IH.
Qed.

Lemma c_str_LEGO : c_str LEGO = LEGO.
Proof. reflexivity. Qed.

Lemma c_str_TRAIN : c_str TRAIN = TRAIN.
Proof. reflexivity. Qed.

Lemma c_str_CONFIG : c_str CONFIG = CONFIG.
Proof. reflexivity. Qed.

Lemma c_str_MOTOR : c_str MOTOR = MOTOR.
Proof. reflexivity. Qed.

Lemma c_str_PF : c_str PF = PF.
Proof. reflexivity. Qed.

Lemma c_str_SIGNAL : c_str SIGNAL = SIGNAL.
Proof. reflexivity. Qed.

Lemma c_str_SWITCH : c_str SWITCH = SWITCH.
Proof. reflexivity. Qed.

Lemma c_str_BARRIER : c_str BARRIER = BARRIER.
Proof. reflexivity. Qed.

(** ** The tokenizer *)

Lemma token_nonzero l : Forall (fun c => c <> 0) (token l).
Proof.
  induction l as [|c l IH]; cbn; [constructor|].
  destruct (token_char c) eqn:E; [|constructor].
  constructor; [|exact IH].
  unfold token_char in E. apply andb_prop in E as [E _].
  apply negb_true_iff, Z.eqb_neq in E. exact E.
Qed.

Lemma set_buffer1_same s : set_buffer1 (buffer1 s) s = s.
Proof. destruct s; reflexivity. Qed.

Lemma window_nil str i : MAX_BUFFER_SIZE <= i -> window str i = [].
Proof.
  intros H. unfold window.
  replace (Z.to_nat (MAX_BUFFER_SIZE - i)) with 0%nat by blia. apply take_0.
Qed.

Lemma window_step str i :
  0 <= i < MAX_BUFFER_SIZE ->
  window str i =
  match str !! Z.to_nat i with
  | Some c => c :: window str (i + 1)
  | None => []
  end.
Proof.
  intros H. unfold window.
  replace (Z.to_nat (MAX_BUFFER_SIZE - i)) with (S (Z.to_nat (MAX_BUFFER_SIZE - (i + 1)))) by blia.
  replace (Z.to_nat (i + 1)) with (S (Z.to_nat i)) by blia.
  destruct (str !! Z.to_nat i) as [c|] eqn:E.
  - rewrite (drop_S _ _ _ E). reflexivity.
  - apply lookup_ge_None in E. rewrite drop_ge by blia. reflexivity.
Qed.

Lemma slash_loop_spec n str : forall i j s,
  0 <= i <= MAX_BUFFER_SIZE -> 0 <= j <= i ->
  (Z.to_nat (MAX_BUFFER_SIZE - i) <= n)%nat ->
  length (buffer1 s) = Z.to_nat MAX_BUFFER_SIZE ->
  slash_loop n str i j s =
  ((next str i, j + Z.of_nat (length (tok str i))),
   set_buffer1 (take (Z.to_nat j) (buffer1 s) ++ tok str i ++
                drop (Z.to_nat j + length (tok str i)) (buffer1 s)) s).
Proof.
  induction n as [|n IH]; intros i j s Hi Hj Hn Hlen.
  - assert (i = MAX_BUFFER_SIZE) by blia. subst i.
    cbn [slash_loop]. unfold next, tok. rewrite window_nil by blia. cbn [token length drop].
    rewrite Nat.add_0_r, app_nil_l, take_drop, set_buffer1_same.
    unfold ret. do 2 f_equal; blia.
  - cbn [slash_loop].
    destruct (Z.eq_dec i MAX_BUFFER_SIZE) as [->|Hne].
    + replace (MAX_BUFFER_SIZE <? MAX_BUFFER_SIZE) with false by reflexivity.
      rewrite andb_false_r.
      unfold next, tok. rewrite window_nil by blia. cbn [token length drop].
      rewrite Nat.add_0_r, app_nil_l, take_drop, set_buffer1_same.
      unfold ret. do 2 f_equal; blia.
    + assert (Hlt : (i <? MAX_BUFFER_SIZE) = true) by (apply Z.ltb_lt; blia).
      rewrite Hlt, andb_true_r.
      unfold next, tok. rewrite (window_step str i) by blia.
      unfold str_at. replace (0 <=? i) with true by (symmetry; apply Z.leb_le; blia).
      destruct (str !! Z.to_nat i) as [c|] eqn:E; cbn [from_option id].
      * destruct (c =? 0) eqn:E0; cbn [negb].
        { cbn [token]. unfold token_char. rewrite E0. cbn [negb andb length drop].
          apply Z.eqb_eq in E0. subst c.
          rewrite Nat.add_0_r, app_nil_l, take_drop, set_buffer1_same.
          unfold ret. do 2 f_equal; blia. }
        destruct (c =? 47) eqn:E47; cbn [negb].
        { cbn [token]. unfold token_char. rewrite E0, E47. cbn [negb andb length drop].
          apply Z.eqb_eq in E47. subst c.
          rewrite Nat.add_0_r, app_nil_l, take_drop, set_buffer1_same.
          unfold ret. rewrite uchar_small by blia.
          do 2 f_equal; blia. }
        cbn [token]. unfold token_char. rewrite E0, E47. cbn [negb andb length drop].
        rewrite bind_run.
        assert (Hst : store_buffer1 j c s = (tt, set_buffer1 (<[Z.to_nat j := c]> (buffer1 s)) s)).
        { unfold store_buffer1, store, bind, get, modify. rewrite Hlen.
          replace ((0 <=? j) && (j <? Z.of_nat (Z.to_nat MAX_BUFFER_SIZE))) with true; [reflexivity|].
          symmetry. apply andb_true_intro. split; [apply Z.leb_le|apply Z.ltb_lt]; blia. }
        rewrite Hst. cbn [fst snd].
        rewrite !uchar_small by blia.
        rewrite IH; [| blia | blia | blia | cbn; rewrite length_insert; exact Hlen].
        fold (tok str (i + 1)). unfold next at 1. fold (tok str (i+1)).
        f_equal; [f_equal; blia|].
        cbn [buffer1 set_buffer1].
        unfold set_buffer1; cbn. f_equal.
        replace (Z.to_nat (j + 1)) with (S (Z.to_nat j)) by blia.
        erewrite take_S_r by (apply list_lookup_insert_eq; blia).
        rewrite take_insert_ge by blia.
        rewrite drop_insert_lt by blia.
        rewrite <- app_assoc. cbn [app]. do 3 f_equal. f_equal. blia.
      * cbn [token length drop negb]. replace (0 =? 0) with true by reflexivity.
        cbn [negb andb].
        rewrite Nat.add_0_r, app_nil_l, take_drop, set_buffer1_same.
        unfold ret. do 2 f_equal; blia.
Qed.

(** Once the iterations left cover the distance of the cursor to
    [MAX_BUFFER_SIZE], one more changes nothing: the loop of the tokenizer
    ends by its own guard, not by the bound on its iterations. *)
Lemma slash_loop_enough n str : forall i j s,
  0 <= i <= MAX_BUFFER_SIZE ->
  (Z.to_nat (MAX_BUFFER_SIZE - i) <= n)%nat ->
  slash_loop (S n) str i j s = slash_loop n str i j s.
Proof.
  induction n as [|n IH]; intros i j s Hi Hn.
  - assert (i = MAX_BUFFER_SIZE) by blia. subst i.
    cbn [slash_loop].
    replace (MAX_BUFFER_SIZE <? MAX_BUFFER_SIZE) with false by reflexivity.
    rewrite andb_false_r. reflexivity.
  - change (slash_loop (S (S n)) str i j s) with
      ((if negb (str_at str i =? 0) && (i <? MAX_BUFFER_SIZE) then
          if negb (str_at str i =? 47) then
            do store_buffer1 j (str_at str i);;
            slash_loop (S n) str (uchar (i + 1)) (uchar (j + 1))
          else ret (uchar (i + 1), j)
        else ret (i, j)) s).
    change (slash_loop (S n) str i j s) with
      ((if negb (str_at str i =? 0) && (i <? MAX_BUFFER_SIZE) then
          if negb (str_at str i =? 47) then
            do store_buffer1 j (str_at str i);;
            slash_loop n str (uchar (i + 1)) (uchar (j + 1))
          else ret (uchar (i + 1), j)
        else ret (i, j)) s).
    destruct (negb (str_at str i =? 0)); [|reflexivity].
    destruct (i <? MAX_BUFFER_SIZE) eqn:E; [|reflexivity].
    apply Z.ltb_lt in E. cbn [andb].
    destruct (negb (str_at str i =? 47)); [|reflexivity].
    rewrite !bind_run. apply IH; rewrite uchar_small by blia; blia.
Qed.

Lemma tok_length str i : 0 <= i <= MAX_BUFFER_SIZE ->
  Z.of_nat (length (tok str i)) <= MAX_BUFFER_SIZE - i.
Proof.
  intros Hi. unfold tok.
  assert (H : forall l, (length (token l) <= length l)%nat).
  { induction l as [|c l IH]; cbn; [lia|]. destruct (token_char c); cbn; lia. }
  specialize (H (window str i)). unfold window in *.
  rewrite length_take in H. blia.
Qed.

Lemma next_bounds str i : 0 <= i <= MAX_BUFFER_SIZE ->
  i <= next str i <= MAX_BUFFER_SIZE.
Proof.
  intros Hi. unfold next.
  pose proof (tok_length str i Hi) as Ht.
  destruct (drop (length (tok str i)) (window str i)) as [|c r] eqn:E; [blia|].
  assert (Hl : (length (tok str i) < length (window str i))%nat).
  { destruct (decide (length (tok str i) < length (window str i))%nat) as [|Hge]; [done|].
    rewrite drop_ge in E by lia. discriminate. }
  unfold window in Hl. rewrite length_take in Hl.
  destruct c as [|p|p]; try blia.
  do 6 (destruct p as [p|p|]; try blia).
Qed.

Lemma cursor_ok str i :
  0 <= i <= MAX_BUFFER_SIZE -> 0 <= next str i <= MAX_BUFFER_SIZE.
Proof. intros Hi. pose proof (next_bounds str i Hi). lia. Qed.

Lemma tokenizer_run str i s :
  0 <= i <= MAX_BUFFER_SIZE ->
  length (buffer1 s) = Z.to_nat MAX_BUFFER_SIZE ->
  get_char_until_next_slash str i s = (next str i, after_token (tok str i) s).
Proof.
  intros Hi Hlen. unfold get_char_until_next_slash.
  rewrite bind_run, slash_loop_spec by blia. cbn [fst snd].
  rewrite bind_run. unfold ret. f_equal.
  pose proof (tok_length str i Hi) as Ht.
  unfold after_token, store_buffer1, store. rewrite bind_run.
  unfold get. cbn [fst snd buffer1 set_buffer1].
  change (Z.to_nat 0) with 0%nat. rewrite take_0, app_nil_l, Nat.add_0_l.
  rewrite length_app, length_drop, Hlen.
  replace (0 <=? 0 + Z.of_nat (length (tok str i))) with true
    by (symmetry; apply Z.leb_le; lia).
  rewrite andb_true_l.
  replace (Z.of_nat (length (tok str i) + (Z.to_nat MAX_BUFFER_SIZE - length (tok str i))))
    with MAX_BUFFER_SIZE by blia.
  rewrite Z.add_0_l.
  destruct (Z.of_nat (length (tok str i)) <? MAX_BUFFER_SIZE) eqn:E.
  - apply Z.ltb_lt in E. unfold modify, set_buffer1. cbn. f_equal.
    rewrite Nat2Z.id.
    replace (length (tok str i)) with (length (tok str i) + 0)%nat at 1 by lia.
    rewrite insert_app_r.
    destruct (drop (length (tok str i)) (buffer1 s)) as [|x r] eqn:Ed.
    { apply (f_equal length) in Ed. rewrite length_drop in Ed. cbn in Ed. blia. }
    cbn. do 2 f_equal.
    replace (S (length (tok str i))) with (length (tok str i) + 1)%nat by lia.
    rewrite <- drop_drop, Ed. reflexivity.
  - unfold emit, modify, set_trace, set_buffer1. cbn. reflexivity.
Qed.

Lemma after_token_buffer_length t s :
  length (buffer1 s) = Z.to_nat MAX_BUFFER_SIZE ->
  Z.of_nat (length t) <= MAX_BUFFER_SIZE ->
  length (buffer1 (after_token t s)) = Z.to_nat MAX_BUFFER_SIZE.
Proof.
  intros Hlen Ht. unfold after_token.
  destruct (Z.of_nat (length t) <? MAX_BUFFER_SIZE) eqn:E; cbn.
  - apply Z.ltb_lt in E. rewrite length_app. cbn. rewrite length_drop. blia.
  - rewrite length_app, length_drop. blia.
Qed.

Lemma after_token_c_str t s :
  length (buffer1 s) = Z.to_nat MAX_BUFFER_SIZE ->
  Z.of_nat (length t) <= MAX_BUFFER_SIZE ->
  Forall (fun c => c <> 0) t ->
  c_str (buffer1 (after_token t s)) = t.
Proof.
  intros Hlen Ht Hnz. unfold after_token.
  destruct (Z.of_nat (length t) <? MAX_BUFFER_SIZE) eqn:E; cbn.
  - apply c_str_app_nul, Hnz.
  - apply Z.ltb_ge in E. rewrite drop_ge by blia. rewrite app_nil_r.
    apply c_str_nonzero, Hnz.
Qed.

(** The only store of the tokenizer that can leave [buffer1] is the store
    of the terminator, at index [MAX_BUFFER_SIZE], after a token of
    [MAX_BUFFER_SIZE] characters. *)
Lemma tokenizer_stray_store str i s :
  0 <= i <= MAX_BUFFER_SIZE ->
  length (buffer1 s) = Z.to_nat MAX_BUFFER_SIZE ->
  emitted (get_char_until_next_slash str i) s =
  if Z.of_nat (length (tok str i)) <? MAX_BUFFER_SIZE then []
  else [StrayStore Abuffer1 MAX_BUFFER_SIZE 0].
Proof.
  intros Hi Hlen. apply emitted_app. unfold exec.
  rewrite tokenizer_run by assumption. cbn [snd]. unfold after_token.
  pose proof (tok_length str i Hi) as Ht.
  destruct (Z.of_nat (length (tok str i)) <? MAX_BUFFER_SIZE) eqn:E.
  - cbn. rewrite app_nil_r. reflexivity.
  - apply Z.ltb_ge in E. cbn. do 3 f_equal. lia.
Qed.

(** A request that fits its buffer is tokenized inside [buffer1]. *)
Lemma tokenizer_in_bounds str i s :
  fits str -> 0 <= i <= MAX_BUFFER_SIZE ->
  length (buffer1 s) = Z.to_nat MAX_BUFFER_SIZE ->
  emitted (get_char_until_next_slash str i) s = [].
Proof.
  intros Hf Hi Hlen. rewrite tokenizer_stray_store by assumption.
  replace (Z.of_nat (length (tok str i)) <? MAX_BUFFER_SIZE) with true; [reflexivity|].
  symmetry. apply Z.ltb_lt. unfold fits in Hf.
  assert (H : forall l, (length (token l) <= length l)%nat).
  { induction l as [|c l IH]; cbn; [lia|]. destruct (token_char c); cbn; lia. }
  specialize (H (window str i)). unfold tok, window in *.
  rewrite length_take, length_drop in H. lia.
Qed.

(** A client that sends 255 characters or more gets all of the first 255
    into the request: the tokenizer can meet a token that fills [buffer1]. *)
Lemma long_request_reaches_tokenizer :
  get_char_from_client (replicate 300 97) = replicate 255 97.
Proof. vm_compute. reflexivity. Qed.

(** C8: on a string of 255 characters without ['/'] and cursor 0 the
    tokenizer fills the 255 cells of [buffer1] and stores the terminator at
    index 255, one past the end of the buffer. *)
Theorem terminator_stored_past_buffer wild :
  let str := replicate 255 97 in
  emitted (get_char_until_next_slash str 0) (ready wild) =
    [StrayStore Abuffer1 MAX_BUFFER_SIZE 0] /\
  buffer1 (exec (get_char_until_next_slash str 0) (ready wild)) = str /\
  eval (get_char_until_next_slash str 0) (ready wild) = MAX_BUFFER_SIZE.
Proof. vm_compute. repeat split. Qed.

(** ** The scratch buffer *)

Lemma scratch_refl s : length (buffer1 s) = Z.to_nat MAX_BUFFER_SIZE -> scratch s s.
Proof.
  intros H. exists (buffer1 s), []. split; [exact H|]. split; [constructor|].
  rewrite app_nil_r. destruct s; reflexivity.
Qed.

Lemma scratch_trans s1 s2 s3 : scratch s1 s2 -> scratch s2 s3 -> scratch s1 s3.
Proof.
  intros (b1 & t1 & H1 & F1 & ->) (b2 & t2 & H2 & F2 & ->).
  exists b2, (t1 ++ t2). split; [exact H2|]. split; [apply Forall_app; done|].
  unfold set_trace, set_buffer1. cbn. rewrite app_assoc. reflexivity.
Qed.

Lemma scratch_after_token t s :
  length (buffer1 s) = Z.to_nat MAX_BUFFER_SIZE ->
  Z.of_nat (length t) <= MAX_BUFFER_SIZE ->
  scratch s (after_token t s).
Proof.
  intros Hlen Ht.
  pose proof (after_token_buffer_length t s Hlen Ht) as Hl.
  unfold after_token in *.
  destruct (Z.of_nat (length t) <? MAX_BUFFER_SIZE) eqn:E.
  - exists (t ++ 0 :: drop (S (length t)) (buffer1 s)), [].
    split; [exact Hl|]. split; [constructor|].
    rewrite app_nil_r. destruct s; reflexivity.
  - exists (t ++ drop (length t) (buffer1 s)),
           [StrayStore Abuffer1 (Z.of_nat (length t)) 0].
    split; [exact Hl|]. split; [repeat constructor|]. reflexivity.
Qed.

Lemma scratch_fields s s1 :
  scratch s s1 ->
  queue s1 = queue s /\ position_sensor s1 = position_sensor s /\
  servo_switch s1 = servo_switch s /\ servo_barrier s1 = servo_barrier s /\
  pins s1 = pins s /\ buffer2 s1 = buffer2 s /\
  exists t, trace s1 = trace s ++ t /\ Forall is_scratch_event t.
Proof.
  intros (b & t & _ & Ht & ->). cbn. repeat split. exists t. split; [reflexivity | exact Ht].
Qed.

(** ** Frames: what a computation leaves alone *)

Section Rel.

Context (R : state -> state -> Prop) `{!PreOrder R}.

Lemma rel_ret {A} (a : A) : rel R (ret a).
Proof. intros s. reflexivity. Qed.

Lemma rel_get : rel R get.
Proof. intros s. reflexivity. Qed.

Lemma rel_bind {A B} (m : M A) (k : A -> M B) :
  rel R m -> (forall a, rel R (k a)) -> rel R (bind m k).
Proof.
  intros Hm Hk s. unfold exec. rewrite bind_run.
  transitivity (exec m s); [apply Hm | apply Hk].
Qed.

Lemma rel_modify f : (forall s, R s (f s)) -> rel R (modify f).
Proof. intros Hf s. apply Hf. Qed.

Lemma rel_for_each {A} (l : list A) body :
  (forall x, rel R (body x)) -> rel R (for_each l body).
Proof.
  intros Hb. induction l as [|x l IH]; cbn [for_each].
  - apply rel_ret.
  - apply rel_bind; [apply Hb | intros _; exact IH].
Qed.

Lemma rel_store_chars st pos cs :
  (forall i v, rel R (st i v)) -> rel R (store_chars st pos cs).
Proof.
  intros Hst. revert pos. induction cs as [|c cs IH]; intros pos; cbn [store_chars].
  - apply Hst.
  - apply rel_bind; [apply Hst | intros _; apply IH].
Qed.

Lemma rel_slash_loop n str i j :
  (forall k v, rel R (store_buffer1 k v)) -> rel R (slash_loop n str i j).
Proof.
  intros Hst. revert i j. induction n as [|n IH]; intros i j; cbn [slash_loop].
  - apply rel_ret.
  - destruct (_ && _); [|apply rel_ret].
    destruct (negb _); [|apply rel_ret].
    apply rel_bind; [apply Hst | intros _; apply IH].
Qed.

Lemma rel_store id read write i v :
  (forall s, R s (write (<[Z.to_nat i := v]> (read s)) s)) ->
  (forall s, R s (set_trace (trace s ++ [StrayStore id i v]) s)) ->
  rel R (store id read write i v).
Proof.
  intros Hin Hout s. unfold exec, store. rewrite bind_run. cbn [get fst snd].
  destruct (_ && _); [apply Hin | apply Hout].
Qed.

End Rel.

(** Decomposing a computation into its primitive state changes. *)
Ltac rel_step :=
  lazymatch goal with
  | |- rel _ (bind _ _) => apply rel_bind; [apply _ | | intro]
  | |- rel _ (ret _) => apply rel_ret; apply _
  | |- rel _ get => apply rel_get; apply _
  | |- rel _ (for_each _ _) => apply rel_for_each; [apply _ | intro]
  | |- rel _ (store_chars _ _ _) => apply rel_store_chars; [apply _ | intros ? ?]
  | |- rel _ (slash_loop _ _ _ _) => apply rel_slash_loop; [apply _ | intros ? ?]
  | |- rel _ (modify _) => apply rel_modify; intro
  | |- rel _ (if ?b then _ else _) => destruct b
  | |- rel _ (let (_, _) := ?p in _) => destruct p
  | |- rel _ (emit _) => unfold emit
  | |- rel _ (store _ _ _ _ _) => apply rel_store; intro
  | |- rel _ (store_queue _ _) => unfold store_queue
  | |- rel _ (store_buffer1 _ _) => unfold store_buffer1
  | |- rel _ (store_buffer2 _ _) => unfold store_buffer2
  | |- rel _ (get_char_until_next_slash _ _) => unfold get_char_until_next_slash
  | |- rel _ (strcmp_buffer1 _) => unfold strcmp_buffer1
  | |- rel _ atoi_buffer1 => unfold atoi_buffer1
  | |- rel _ (digitalWrite _ _) => unfold digitalWrite
  | |- rel _ (update_status_led _) => unfold update_status_led
  | |- rel _ status_led_switch => unfold status_led_switch
  | |- rel _ status_led_on => unfold status_led_on
  | |- rel _ status_led_off => unfold status_led_off
  | |- rel _ (mqtt_callback _ _ _) => unfold mqtt_callback
  | |- rel _ (match ?o with Some _ => _ | None => _ end) => destruct o
  | |- rel _ (set_servo _ _ _) => unfold set_servo
  | |- rel _ (set_switch _ _) => unfold set_switch
  | |- rel _ (set_barrier _ _) => unfold set_barrier
  | |- rel _ (switch_off _ _) => unfold switch_off
  | |- rel _ (barrier_off _ _) => unfold barrier_off
  | |- rel _ (set_signal _ _ _ _) => unfold set_signal
  | |- rel _ (strcpy_buffer1 _) => unfold strcpy_buffer1
  | |- rel _ (strcat_buffer1 _) => unfold strcat_buffer1
  | |- rel _ (itoa_buffer2 _) => unfold itoa_buffer2
  | |- rel _ (mqtt_publish_position_sensor _ _ _ _) =>
      unfold mqtt_publish_position_sensor
  | |- rel _ (update_position_sensors _ _ _) => unfold update_position_sensors
  | |- rel _ (update_pf_ir_queue _) => unfold update_pf_ir_queue
  | |- rel _ (process_request_by_char _ _) => unfold process_request_by_char
  | |- rel _ (init_servo_switches _) => unfold init_servo_switches
  | |- rel _ (init_servo_barriers _) => unfold init_servo_barriers
  | |- rel _ (init_signals _) => unfold init_signals
  | |- rel _ (setup _) => unfold setup
  | |- rel _ (act _ ?c) => first [is_var c; destruct c; cbn [act] | cbn [act]]
  end.

Ltac rel_auto tac := repeat rel_step; try solve [tac].

Global Instance same_shape_preorder : PreOrder same_shape.
Proof.
  split.
  - intros s. repeat split.
  - intros s1 s2 s3 H12 H23. unfold same_shape in *.
    destruct H12 as (?&?&?&?&?&?), H23 as (?&?&?&?&?&?).
    repeat split; congruence.
Qed.

Global Instance same_pins_preorder : PreOrder same_pins.
Proof. split; [intros s; reflexivity | intros s1 s2 s3; unfold same_pins; congruence]. Qed.

Ltac shape_tac :=
  unfold same_shape; cbn; rewrite ?length_insert; repeat split.

Lemma process_request_by_char_shape `{LegoPowerFunctions} wild req :
  rel same_shape (process_request_by_char wild req).
Proof. rel_auto shape_tac. Qed.

Lemma update_position_sensors_shape wild rd c :
  rel same_shape (update_position_sensors wild rd c).
Proof. rel_auto shape_tac. Qed.

Lemma update_position_sensors_pins wild rd c :
  rel same_pins (update_position_sensors wild rd c).
Proof. rel_auto ltac:(reflexivity). Qed.

Lemma update_pf_ir_queue_shape wild : rel same_shape (update_pf_ir_queue wild).
Proof. rel_auto shape_tac. Qed.

Lemma update_pf_ir_queue_pins wild : rel same_pins (update_pf_ir_queue wild).
Proof. rel_auto ltac:(reflexivity). Qed.

Lemma update_status_led_shape due : rel same_shape (update_status_led due).
Proof. rel_auto shape_tac. Qed.

Lemma well_formed_shape s s' : same_shape s s' -> well_formed s -> well_formed s'.
Proof.
  unfold same_shape, well_formed. intros (?&?&?&?&?&?) (?&?&?&?&?&?).
  repeat split; congruence.
Qed.

Lemma well_formed_buffer1 s :
  well_formed s -> length (buffer1 s) = Z.to_nat MAX_BUFFER_SIZE.
Proof. intros (_ & _ & _ & _ & Hb & _). exact Hb. Qed.

Lemma ready_well_formed wild : well_formed (ready wild).
Proof. vm_compute. repeat split. Qed.

Lemma reachable_well_formed `{LegoPowerFunctions} s : reachable s -> well_formed s.
Proof.
  induction 1 as [wild | wild req s _ IH | wild rd c s _ IH | wild s _ IH
                 | due s _ IH | b1 b2 s Hb1 Hb2 _ IH].
  - apply ready_well_formed.
  - exact (well_formed_shape _ _ (process_request_by_char_shape wild req s) IH).
  - exact (well_formed_shape _ _ (update_position_sensors_shape wild rd c s) IH).
  - exact (well_formed_shape _ _ (update_pf_ir_queue_shape wild s) IH).
  - exact (well_formed_shape _ _ (update_status_led_shape due s) IH).
  - destruct IH as (?&?&?&?&?&?). repeat split; assumption.
Qed.

(** ** The dispatcher is parse-then-act *)

Lemma token_step {A} str i s (k : Z -> M A) :
  0 <= i <= MAX_BUFFER_SIZE ->
  length (buffer1 s) = Z.to_nat MAX_BUFFER_SIZE ->
  bind (get_char_until_next_slash str i) k s =
  k (next str i) (after_token (tok str i) s).
Proof. intros Hi Hl. rewrite bind_run, tokenizer_run by assumption. reflexivity. Qed.

Lemma strcmp_step {A} lit s (k : bool -> M A) :
  bind (strcmp_buffer1 lit) k s = k (bool_decide (c_str (buffer1 s) = c_str lit)) s.
Proof. reflexivity. Qed.

Lemma atoi_step {A} s (k : Z -> M A) :
  bind atoi_buffer1 k s = k (atoi (c_str (buffer1 s))) s.
Proof. reflexivity. Qed.

Lemma holds_after_token str i s s1 :
  scratch s s1 -> length (buffer1 s1) = Z.to_nat MAX_BUFFER_SIZE ->
  0 <= i <= MAX_BUFFER_SIZE ->
  holds s (after_token (tok str i) s1) (tok str i).
Proof.
  intros Hs Hl Hi. pose proof (tok_length str i Hi) as Ht.
  split; [|split].
  - eapply scratch_trans; [exact Hs|]. apply scratch_after_token; [done | blia].
  - apply after_token_c_str; [done | blia | apply token_nonzero].
  - apply after_token_buffer_length; [done | blia].
Qed.

Ltac read_token :=
  match goal with
  | Hs : scratch ?s0 ?s, Hl : length (buffer1 ?s) = _
    |- context [bind (get_char_until_next_slash ?r ?i) _ ?s] =>
    let Hi := fresh "Hi" in
    assert (Hi : 0 <= i <= MAX_BUFFER_SIZE) by (repeat apply cursor_ok; blia);
    rewrite (token_step r i s) by assumption;
    let Hs' := fresh "Hs" in
    let Hc := fresh "Hc" in
    let Hl' := fresh "Hl" in
    destruct (holds_after_token r i s0 s Hs Hl Hi) as (Hs' & Hc & Hl');
    clear Hs Hl;
    let s' := fresh "s" in
    set (s' := after_token (tok r i) s) in *;
    clearbody s'
  end.

Ltac read_buffer :=
  first [ rewrite strcmp_step | rewrite atoi_step ];
  match goal with Hc : c_str (buffer1 ?s) = _ |- _ => rewrite !Hc end.

Lemma act_MotorPf `{LegoPowerFunctions} wild CH CO va :
  act wild (MotorPf CH CO va) =
  (do store_queue 0 5;;
   do store_queue 1 (uchar PWM);;
   do store_queue 2 (uchar (if 0 <=? va then load fwdSpeed va wild
                            else load revSpeed (int16 (- va)) wild));;
   do store_queue 3 CO;;
   do store_queue 4 CH;;
   ret (true, false)).
Proof. reflexivity. Qed.

Lemma act_SetSignal `{LegoPowerFunctions} wild Signal Light Value :
  act wild (SetSignal Signal Light Value) =
  (do (if (0 <=? Signal) && (Signal <? NUM_SIGNALS) then
          if (0 <=? Light) && (Light <? 2) then
            if (0 <=? Value) && (Value <=? 1) then
              set_signal wild Signal Light (Value =? 1)
            else ret tt
          else ret tt
        else ret tt);;
    ret (true, false)).
Proof. reflexivity. Qed.

Lemma act_SetSwitch `{LegoPowerFunctions} wild s a :
  act wild (SetSwitch s a) =
  (do (if (0 <=? s) && (s <? NUM_SERVO_SWITCHES) && (0 <=? a) && (a <? 2)
        then set_switch s (uchar (load SERVO_SWITCH_ANGLES a wild))
        else ret tt);;
    ret (true, false)).
Proof. reflexivity. Qed.

Lemma act_SetBarrier `{LegoPowerFunctions} wild b a :
  act wild (SetBarrier b a) =
  (do (if (0 <=? b) && (b <? NUM_SERVO_BARRIERS) && (0 <=? a) && (a <? 2)
        then set_barrier b (uchar (load SERVO_BARRIER_ANGLES a wild))
        else ret tt);;
    ret (true, false)).
Proof. reflexivity. Qed.

Ltac read_literal :=
  first [ rewrite strcmp_step | rewrite atoi_step ];
  match goal with Hc : c_str (buffer1 ?s) = _ |- _ => rewrite !Hc end;
  rewrite ?c_str_LEGO, ?c_str_TRAIN, ?c_str_CONFIG, ?c_str_MOTOR, ?c_str_PF,
          ?c_str_SIGNAL, ?c_str_SWITCH, ?c_str_BARRIER.

Ltac leaf :=
  rewrite ?act_MotorPf, ?act_SetSignal, ?act_SetSwitch, ?act_SetBarrier;
  match goal with
  | Hs : scratch ?s0 ?s |- exists s1, scratch ?s0 s1 /\ _ =>
      exists s; split; [exact Hs | reflexivity]
  end.

Lemma process_request_by_char_parse `{LegoPowerFunctions} wild req s :
  length (buffer1 s) = Z.to_nat MAX_BUFFER_SIZE ->
  exists s1, scratch s s1 /\
    process_request_by_char wild req s = act wild (parse req) s1.
Proof.
  intros Hl. pose proof (scratch_refl s Hl) as Hs.
  unfold process_request_by_char, parse.
  read_token. read_literal.
  destruct (bool_decide (tok req 0 = LEGO)); [|leaf].
  read_token. read_literal.
  destruct (bool_decide (tok req (next req 0) = TRAIN)); [|leaf].
  read_token. read_literal.
  destruct (bool_decide (tok req (next req (next req 0)) = CONFIG)); [leaf|].
  read_literal.
  destruct (bool_decide (tok req (next req (next req 0)) = MOTOR)).
  { read_token. read_literal.
    destruct (bool_decide (_ = PF)); [|leaf].
    read_token. read_buffer. read_token. read_buffer. read_token. read_buffer.
    leaf. }
  read_literal.
  destruct (bool_decide (tok req (next req (next req 0)) = SIGNAL)).
  { read_token. read_buffer. rewrite act_SetSignal.
    destruct ((0 <=? _) && (_ <? NUM_SIGNALS)); [|leaf].
    rewrite bind_run. read_token. read_buffer.
    destruct ((0 <=? _) && (_ <? 2)).
    2:{ eexists; split; [eassumption|]. rewrite bind_run. reflexivity. }
    read_token. read_buffer.
    eexists; split; [eassumption|]. rewrite bind_run. reflexivity. }
  read_literal.
  destruct (bool_decide (tok req (next req (next req 0)) = SWITCH)).
  { read_token. read_buffer. read_token. read_buffer. leaf. }
  read_literal.
  destruct (bool_decide (tok req (next req (next req 0)) = BARRIER)).
  { read_token. read_buffer. read_token. read_buffer. leaf. }
  leaf.
Qed.

(** ** The tokens of a request *)

Lemma parse_route req : parse req = route (tokens_from 7 req 0).
Proof. reflexivity. Qed.

Lemma token_app_stop t c r :
  is_token t -> token_char c = false -> token (t ++ c :: r) = t.
Proof.
  intros Ht Hc. induction Ht as [|x t Hx _ IH]; cbn.
  - rewrite Hc. reflexivity.
  - rewrite Hx, IH. reflexivity.
Qed.

Lemma token_all t : is_token t -> token t = t.
Proof.
  intros Ht. induction Ht as [|x t Hx _ IH]; cbn; [reflexivity|].
  rewrite Hx, IH. reflexivity.
Qed.

Lemma window_fits pre rest :
  Z.of_nat (length (pre ++ rest)) <= MAX_BUFFER_SIZE ->
  window (pre ++ rest) (Z.of_nat (length pre)) = rest.
Proof.
  intros Hf. unfold window. rewrite Nat2Z.id, drop_app_length.
  rewrite length_app in Hf. apply take_ge. blia.
Qed.

(** The token read at the start of [join (t :: ts)], and the cursor after it. *)
Lemma tok_next_join pre t ts :
  is_token t -> fits (pre ++ join (t :: ts)) ->
  tok (pre ++ join (t :: ts)) (Z.of_nat (length pre)) = t /\
  next (pre ++ join (t :: ts)) (Z.of_nat (length pre)) =
  Z.of_nat (length (pre ++ t ++ match ts with [] => [] | _ => [47] end)).
Proof.
  intros Ht Hf. unfold next, tok. unfold fits in Hf.
  rewrite window_fits by lia.
  destruct ts as [|t' ts]; cbn [join].
  - rewrite token_all by exact Ht. split; [reflexivity|].
    rewrite drop_ge by lia. rewrite app_nil_r, length_app. lia.
  - rewrite token_app_stop by (exact Ht || reflexivity). split; [reflexivity|].
    rewrite drop_app_length. rewrite !length_app. cbn [length]. lia.
Qed.

Lemma tok_next_end str :
  fits str ->
  tok str (Z.of_nat (length str)) = [] /\
  next str (Z.of_nat (length str)) = Z.of_nat (length str).
Proof.
  intros Hf. unfold fits in Hf.
  pose proof (window_fits str []) as Hw. rewrite app_nil_r in Hw.
  unfold next, tok. rewrite Hw by lia. cbn. split; [reflexivity | lia].
Qed.

Lemma tokens_from_end n str :
  fits str -> tokens_from n str (Z.of_nat (length str)) = pad n [].
Proof.
  intros Hf. induction n as [|n IH]; cbn [tokens_from pad]; [reflexivity|].
  destruct (tok_next_end str Hf) as [-> ->]. rewrite IH. reflexivity.
Qed.

(** On a request that fits, the tokenizer delivers the tokens the request
    was written with, then empty tokens. *)
Lemma tokens_from_join n : forall ts pre,
  Forall is_token ts -> fits (pre ++ join ts) ->
  tokens_from n (pre ++ join ts) (Z.of_nat (length pre)) = pad n ts.
Proof.
  induction n as [|n IH]; intros ts pre Hts Hf; [reflexivity|].
  destruct ts as [|t ts].
  - cbn [join] in *. rewrite app_nil_r in *. apply (tokens_from_end (S n)), Hf.
  - inversion Hts as [|? ? Ht Hts']; subst.
    cbn [tokens_from pad].
    destruct (tok_next_join pre t ts Ht Hf) as [-> ->]. f_equal.
    destruct ts as [|t' ts].
    + rewrite app_nil_r. cbn [join] in Hf. apply tokens_from_end, Hf.
    + replace (pre ++ join (t :: t' :: ts)) with ((pre ++ t ++ [47]) ++ join (t' :: ts))
        by (cbn [join]; rewrite <- !app_assoc; reflexivity).
      apply IH; [exact Hts'|].
      cbn [join] in Hf. rewrite <- !app_assoc. exact Hf.
Qed.

Lemma tokens_of_join n ts :
  Forall is_token ts -> fits (join ts) -> tokens_from n (join ts) 0 = pad n ts.
Proof. intros Hts Hf. apply (tokens_from_join n ts []); assumption. Qed.

Lemma parse_join ts :
  Forall is_token ts -> fits (join ts) -> parse (join ts) = route (pad 7 ts).
Proof. intros Hts Hf. rewrite parse_route, tokens_of_join by assumption. reflexivity. Qed.

Lemma route_switch id sel :
  route [LEGO; TRAIN; SWITCH; id; sel; []; []] =
  SetSwitch (uchar (atoi id)) (uchar (atoi sel)).
Proof. reflexivity. Qed.

Lemma route_signal id light value :
  route [LEGO; TRAIN; SIGNAL; id; light; value; []] =
  SetSignal (uchar (atoi id)) (uchar (atoi light)) (uchar (atoi value)).
Proof. reflexivity. Qed.

Lemma top_level_mismatch req : top_level_match req = false -> parse req = Malformed.
Proof.
  unfold top_level_match, parse. cbn [tokens_from]. cbv zeta.
  destruct (bool_decide (tok req 0 = LEGO)); [|reflexivity].
  destruct (bool_decide (tok req (next req 0) = TRAIN)); [|reflexivity].
  destruct (bool_decide (tok req (next req (next req 0)) = CONFIG)); [discriminate|].
  destruct (bool_decide (tok req (next req (next req 0)) = MOTOR)).
  { destruct (bool_decide (_ = PF)); [discriminate | reflexivity]. }
  destruct (bool_decide (tok req (next req (next req 0)) = SIGNAL)); [discriminate|].
  destruct (bool_decide (tok req (next req (next req 0)) = SWITCH)); [discriminate|].
  destruct (bool_decide (tok req (next req (next req 0)) = BARRIER)); [discriminate|].
  reflexivity.
Qed.

Lemma motor_command_parse req :
  motor_command req ->
  exists ch co va,
    tokens_from 7 req 0 = [LEGO; TRAIN; MOTOR; PF; ch; co; va] /\
    parse req = MotorPf (uchar (atoi ch)) (uchar (atoi co)) (atoi va).
Proof.
  unfold motor_command. intros Hm.
  rewrite parse_route. cbn [tokens_from] in *.
  injection Hm as H0 H1 H2 H3.
  eexists _, _, _. rewrite H0, H1, H2, H3. split; reflexivity.
Qed.

(** ** Malformed requests *)

(** C9: a request whose top-level tokens do not match the grammar is not
    accepted, asks for no topology document, and leaves the switches, the
    barriers, the signal pins, the IR queue and the sensor values as they
    were; it drives no actuator. *)
Theorem malformed_rejected `{LegoPowerFunctions} wild req s :
  well_formed s ->
  top_level_match req = false ->
  eval (process_request_by_char wild req) s = (false, false) /\
  actuators_untouched s (exec (process_request_by_char wild req) s).
Proof.
  intros Hwf Hno.
  destruct (process_request_by_char_parse wild req s (well_formed_buffer1 s Hwf))
    as (s1 & Hs1 & Hrun).
  rewrite (top_level_mismatch req Hno) in Hrun.
  unfold eval, exec. rewrite Hrun. cbn [act ret fst snd].
  split; [reflexivity|].
  apply scratch_fields in Hs1 as (Hq & Hp & Hsw & Hba & Hpins & _ & Ht).
  unfold actuators_untouched. repeat split; assumption.
Qed.

(** The scenario of C9: ["foo/bar"] after [setup]. *)
Lemma malformed_rejected_witness :
  let run := @process_request_by_char lpf_protocol 0 (chars "foo/bar") in
  eval run (ready 0) = (false, false) /\
  actuators_untouched (ready 0) (exec run (ready 0)).
Proof.
  apply (@malformed_rejected lpf_protocol 0 (chars "foo/bar") (ready 0)).
  - vm_compute. repeat split.
  - vm_compute. reflexivity.
Defined.

(** ** Switches *)

(** What a switch command does once its numbers are in range. *)
Lemma act_switch_in_range `{LegoPowerFunctions} wild i a s :
  0 <= i < NUM_SERVO_SWITCHES -> 0 <= a < 2 ->
  act wild (SetSwitch i a) s =
  ((true, false),
   set_trace (trace s ++ [ServoSwitchWrite i (uchar (load SERVO_SWITCH_ANGLES a wild))])
     (set_servo_switch
        (<[Z.to_nat i := Some (uchar (load SERVO_SWITCH_ANGLES a wild))]> (servo_switch s)) s)).
Proof.
  intros Hi Ha. rewrite act_SetSwitch.
  replace ((0 <=? i) && (i <? NUM_SERVO_SWITCHES) && (0 <=? a) && (a <? 2)) with true.
  - reflexivity.
  - symmetry. rewrite !andb_true_iff, !Z.leb_le, !Z.ltb_lt. lia.
Qed.

Lemma switch_angle a wild :
  0 <= a <= 1 ->
  uchar (load SERVO_SWITCH_ANGLES a wild) =
  if a =? 0 then SERVO_SWITCH_MIN_ANGLE else SERVO_SWITCH_MAX_ANGLE.
Proof.
  intros Ha. assert (a = 0 \/ a = 1) as [-> | ->] by lia; reflexivity.
Qed.

(** What a switch command does: the id and the selector count as
    narrowed to [unsigned char]. *)
Lemma switch_command_effect `{LegoPowerFunctions} wild s (id sel : list Z) :
  well_formed s ->
  is_token id -> is_token sel ->
  fits (join [LEGO; TRAIN; SWITCH; id; sel]) ->
  0 <= uchar (atoi id) < NUM_SERVO_SWITCHES -> 0 <= uchar (atoi sel) <= 1 ->
  let run := process_request_by_char wild (join [LEGO; TRAIN; SWITCH; id; sel]) in
  eval run s = (true, false) /\
  servo_switch (exec run s) =
    <[Z.to_nat (uchar (atoi id)) :=
        Some (if uchar (atoi sel) =? 0 then SERVO_SWITCH_MIN_ANGLE
              else SERVO_SWITCH_MAX_ANGLE)]> (servo_switch s).
Proof.
  intros Hwf Hid Hsel Hfit Hi Ha run.
  destruct (process_request_by_char_parse wild (join [LEGO; TRAIN; SWITCH; id; sel]) s
              (well_formed_buffer1 s Hwf)) as (s1 & Hs1 & Hrun).
  assert (Hts : Forall is_token [LEGO; TRAIN; SWITCH; id; sel])
    by (repeat constructor; assumption).
  rewrite (parse_join _ Hts Hfit) in Hrun. cbn [pad] in Hrun.
  rewrite route_switch in Hrun.
  rewrite act_switch_in_range in Hrun by lia.
  rewrite switch_angle in Hrun by lia.
  apply scratch_fields in Hs1 as (_ & _ & Hsw1 & _).
  unfold eval, exec. subst run. rewrite Hrun.
  cbn [fst snd servo_switch set_trace set_servo_switch].
  rewrite Hsw1. split; reflexivity.
Qed.

(** C3: a switch command [lego/train/switch/<id>/<selector>] whose id is
    one of the registered switches and whose selector is 0 or 1 is
    accepted, and leaves that switch commanded to the registered minimum
    angle for selector 0 and to the registered maximum angle for selector
    1; the other switches keep their angle. *)
Theorem switch_command_sets_angle `{LegoPowerFunctions} wild s (id sel : list Z) :
  well_formed s ->
  is_token id -> is_token sel ->
  fits (join [LEGO; TRAIN; SWITCH; id; sel]) ->
  0 <= atoi id < NUM_SERVO_SWITCHES -> 0 <= atoi sel <= 1 ->
  let run := process_request_by_char wild (join [LEGO; TRAIN; SWITCH; id; sel]) in
  eval run s = (true, false) /\
  servo_switch (exec run s) !! Z.to_nat (atoi id) =
    Some (Some (if atoi sel =? 0 then SERVO_SWITCH_MIN_ANGLE
                else SERVO_SWITCH_MAX_ANGLE)) /\
  forall j, j <> Z.to_nat (atoi id) ->
    servo_switch (exec run s) !! j = servo_switch s !! j.
Proof.
  intros Hwf Hid Hsel Hfit Hi Ha run.
  pose proof Hwf as (_ & _ & Hsw & _).
  assert (Hui : uchar (atoi id) = atoi id)
    by (apply uchar_small; unfold NUM_SERVO_SWITCHES in *; lia).
  assert (Hua : uchar (atoi sel) = atoi sel) by (apply uchar_small; lia).
  destruct (switch_command_effect wild s id sel Hwf Hid Hsel Hfit) as [Hok Hrun].
  - rewrite Hui. exact Hi.
  - rewrite Hua. exact Ha.
  - rewrite Hui, Hua in Hrun. subst run. rewrite Hrun.
    split; [exact Hok|]. split.
    + apply list_lookup_insert_eq. rewrite Hsw. unfold NUM_SERVO_SWITCHES in *. lia.
    + intros j Hj. apply list_lookup_insert_ne. congruence.
Qed.

(** The scenario of C3: [lego/train/switch/0/1] sets switch 0 to the
    maximum angle, [lego/train/switch/0/0] then sets it to the minimum. *)
Lemma switch_command_sets_angle_witness :
  let s1 := exec (@process_request_by_char lpf_protocol 0 (chars "lego/train/switch/0/1"))
                 (ready 0) in
  let s2 := exec (@process_request_by_char lpf_protocol 0 (chars "lego/train/switch/0/0"))
                 s1 in
  servo_switch s1 !! 0%nat = Some (Some SERVO_SWITCH_MAX_ANGLE) /\
  servo_switch s2 !! 0%nat = Some (Some SERVO_SWITCH_MIN_ANGLE).
Proof.
  intros s1 s2. split.
  - apply (@switch_command_sets_angle lpf_protocol 0 (ready 0) (chars "0") (chars "1")).
    + vm_compute. repeat split.
    + repeat constructor.
    + repeat constructor.
    + vm_compute. reflexivity.
    + vm_compute. split; [discriminate | reflexivity].
    + vm_compute. split; discriminate.
  - apply (@switch_command_sets_angle lpf_protocol 0 s1 (chars "0") (chars "0")).
    + vm_compute. repeat split.
    + repeat constructor.
    + repeat constructor.
    + vm_compute. reflexivity.
    + vm_compute. split; [discriminate | reflexivity].
    + vm_compute. split; discriminate.
Defined.

(** A switch command whose id is still out of range once narrowed to
    [unsigned char] is accepted and drives nothing. *)
Lemma switch_out_of_range_ignored `{LegoPowerFunctions} wild s (id sel : list Z) :
  well_formed s ->
  is_token id -> is_token sel ->
  fits (join [LEGO; TRAIN; SWITCH; id; sel]) ->
  NUM_SERVO_SWITCHES <= uchar (atoi id) ->
  let run := process_request_by_char wild (join [LEGO; TRAIN; SWITCH; id; sel]) in
  eval run s = (true, false) /\ actuators_untouched s (exec run s).
Proof.
  intros Hwf Hid Hsel Hfit Hout run.
  destruct (process_request_by_char_parse wild (join [LEGO; TRAIN; SWITCH; id; sel]) s
              (well_formed_buffer1 s Hwf)) as (s1 & Hs1 & Hrun).
  assert (Hts : Forall is_token [LEGO; TRAIN; SWITCH; id; sel])
    by (repeat constructor; assumption).
  rewrite (parse_join _ Hts Hfit) in Hrun. cbn [pad] in Hrun.
  rewrite route_switch, act_SetSwitch in Hrun.
  replace (uchar (atoi id) <? NUM_SERVO_SWITCHES) with false in Hrun
    by (symmetry; apply Z.ltb_ge; exact Hout).
  rewrite andb_false_r in Hrun. cbn [andb] in Hrun.
  unfold eval, exec. subst run. rewrite Hrun.
  split; [reflexivity|].
  apply scratch_fields in Hs1 as (Hq & Hp & Hsw & Hba & Hpins & _ & Ht).
  unfold actuators_untouched. repeat split; assumption.
Qed.

(** C2: dispatching ["lego/train/switch/256/1"] after [setup] is accepted
    and drives switch 0 to the maximum angle: the id 256 is narrowed to
    [unsigned char] before it is compared with the number of switches. *)
Theorem switch_id_wraps_around `{LegoPowerFunctions} wild :
  let run := process_request_by_char wild (chars "lego/train/switch/256/1") in
  atoi (chars "256") = 256 /\
  eval run (ready wild) = (true, false) /\
  servo_switch (ready wild) !! 0%nat = Some (Some SERVO_SWITCH_MIN_ANGLE) /\
  servo_switch (exec run (ready wild)) !! 0%nat = Some (Some SERVO_SWITCH_MAX_ANGLE) /\
  emitted run (ready wild) = [ServoSwitchWrite 0 SERVO_SWITCH_MAX_ANGLE].
Proof. vm_compute. repeat split. Qed.

(** ** Signals *)

Lemma seqZ_0_2 : seqZ 0 2 = [0; 1].
Proof. reflexivity. Qed.

Lemma set_signal_pins wild sg l v s :
  0 <= sg < NUM_SIGNALS ->
  pins (exec (set_signal wild sg l v) s) =
  <[lamp_pin sg 1 := if eqb v (1 =? l) then LOW else HIGH]>
    (<[lamp_pin sg 0 := if eqb v (0 =? l) then LOW else HIGH]> (pins s)).
Proof.
  intros Hsg. assert (sg = 0 \/ sg = 1) as [-> | ->] by (unfold NUM_SIGNALS in *; lia).
  all: unfold set_signal; rewrite seqZ_0_2; cbn [for_each];
    destruct (eqb v (0 =? l)), (eqb v (1 =? l)); reflexivity.
Qed.

(** After [set_signal(sg, l, v)] lamp [j] of signal [sg] is lit exactly
    when [v == (j == l)]; the lamps of the other signals are as before. *)
Lemma lit_set_signal wild sg l v s sg' j :
  0 <= sg < NUM_SIGNALS -> 0 <= sg' < NUM_SIGNALS -> 0 <= j <= 1 ->
  lit (exec (set_signal wild sg l v) s) sg' j =
  if sg' =? sg then eqb v (j =? l) else lit s sg' j.
Proof.
  intros Hsg Hsg' Hj. unfold lit. rewrite set_signal_pins by exact Hsg.
  assert (sg = 0 \/ sg = 1) as [-> | ->] by (unfold NUM_SIGNALS in *; lia);
  assert (sg' = 0 \/ sg' = 1) as [-> | ->] by (unfold NUM_SIGNALS in *; lia);
  assert (j = 0 \/ j = 1) as [-> | ->] by lia;
  change (lamp_pin 0 0) with 18; change (lamp_pin 0 1) with 19;
  change (lamp_pin 1 0) with 20; change (lamp_pin 1 1) with 21;
  cbn [Z.eqb Pos.eqb];
  rewrite ?lookup_insert_eq, ?(lookup_insert_ne (M:=gmap Z)) by lia;
  rewrite ?lookup_insert_eq, ?(lookup_insert_ne (M:=gmap Z)) by lia;
  try reflexivity;
  destruct (eqb v _); reflexivity.
Qed.

Lemma one_lamp_lit_pins s s' sg :
  pins s' = pins s -> one_lamp_lit s sg -> one_lamp_lit s' sg.
Proof. unfold one_lamp_lit, lit. intros ->. exact id. Qed.

Lemma act_signal_in_range `{LegoPowerFunctions} wild sg l v s :
  0 <= sg < NUM_SIGNALS -> 0 <= l < 2 -> 0 <= v <= 1 ->
  act wild (SetSignal sg l v) s =
  ((true, false), exec (set_signal wild sg l (v =? 1)) s).
Proof.
  intros Hsg Hl Hv. rewrite act_SetSignal.
  replace ((0 <=? sg) && (sg <? NUM_SIGNALS)) with true
    by (symmetry; rewrite andb_true_iff, Z.leb_le, Z.ltb_lt; lia).
  replace ((0 <=? l) && (l <? 2)) with true
    by (symmetry; rewrite andb_true_iff, Z.leb_le, Z.ltb_lt; lia).
  replace ((0 <=? v) && (v <=? 1)) with true
    by (symmetry; rewrite andb_true_iff, !Z.leb_le; lia).
  rewrite bind_run. reflexivity.
Qed.

Lemma set_signal_one_lamp wild sg l v s :
  0 <= sg < NUM_SIGNALS -> 0 <= l < 2 ->
  (forall sg', 0 <= sg' < NUM_SIGNALS -> one_lamp_lit s sg') ->
  forall sg', 0 <= sg' < NUM_SIGNALS ->
    one_lamp_lit (exec (set_signal wild sg l v) s) sg'.
Proof.
  intros Hsg Hl Hinv sg' Hsg'. unfold one_lamp_lit.
  rewrite !lit_set_signal by (assumption || lia).
  destruct (sg' =? sg); [|apply Hinv, Hsg'].
  assert (l = 0 \/ l = 1) as [-> | ->] by lia; destruct v; reflexivity.
Qed.

Lemma act_one_lamp `{LegoPowerFunctions} wild cmd s :
  (forall sg, 0 <= sg < NUM_SIGNALS -> one_lamp_lit s sg) ->
  forall sg, 0 <= sg < NUM_SIGNALS -> one_lamp_lit (exec (act wild cmd) s) sg.
Proof.
  intros Hinv sg Hsg.
  assert (Hsame : rel same_pins (act wild cmd) ->
                  one_lamp_lit (exec (act wild cmd) s) sg).
  { intros Hrel. exact (one_lamp_lit_pins _ _ sg (Hrel s) (Hinv sg Hsg)). }
  destruct cmd as [|CH CO va|sg0 l v|i a|i a|];
    try solve [apply Hsame; rel_auto ltac:(reflexivity)].
  unfold exec. rewrite act_SetSignal, bind_run. cbn [ret snd].
  destruct ((0 <=? sg0) && (sg0 <? NUM_SIGNALS)) eqn:E1; [|apply Hinv, Hsg].
  destruct ((0 <=? l) && (l <? 2)) eqn:E2; [|apply Hinv, Hsg].
  destruct ((0 <=? v) && (v <=? 1)) eqn:E3; [|apply Hinv, Hsg].
  apply andb_true_iff in E1 as [E1a E1b]. apply andb_true_iff in E2 as [E2a E2b].
  apply Z.leb_le in E1a, E2a. apply Z.ltb_lt in E1b, E2b.
  apply (set_signal_one_lamp wild sg0 l (v =? 1) s); (lia || assumption).
Qed.

Lemma ready_one_lamp wild sg :
  0 <= sg < NUM_SIGNALS -> one_lamp_lit (ready wild) sg.
Proof.
  intros Hsg. assert (sg = 0 \/ sg = 1) as [-> | ->] by (unfold NUM_SIGNALS in *; lia);
    vm_compute; reflexivity.
Qed.

(** The status LED sits on a pin of its own: switching it leaves the
    lamps of the signals as they are. *)
Lemma update_status_led_lamps due s sg :
  0 <= sg < NUM_SIGNALS ->
  one_lamp_lit s sg -> one_lamp_lit (exec (update_status_led due) s) sg.
Proof.
  intros Hsg. unfold one_lamp_lit, lit.
  assert (Hpins : forall j, 0 <= j <= 1 ->
            pins (exec (update_status_led due) s) !! lamp_pin sg j
            = pins s !! lamp_pin sg j).
  { intros j Hj.
    assert (Hne : STATUS_LED_PIN <> lamp_pin sg j).
    { assert (sg = 0 \/ sg = 1) as [-> | ->] by (unfold NUM_SIGNALS in *; lia);
      assert (j = 0 \/ j = 1) as [-> | ->] by lia; vm_compute; discriminate. }
    destruct due; [|reflexivity].
    unfold update_status_led, status_led_switch, exec.
    rewrite bind_run. cbn [get fst snd].
    destruct (status_led_is_on s); cbn; apply lookup_insert_ne, Hne. }
  rewrite !Hpins by lia. exact id.
Qed.

Lemma reachable_one_lamp `{LegoPowerFunctions} s :
  reachable s -> forall sg, 0 <= sg < NUM_SIGNALS -> one_lamp_lit s sg.
Proof.
  induction 1 as [wild | wild req s Hr IH | wild rd c s _ IH | wild s _ IH
                 | due s _ IH | b1 b2 s _ _ _ IH];
    intros sg Hsg.
  - apply ready_one_lamp, Hsg.
  - destruct (process_request_by_char_parse wild req s
                (well_formed_buffer1 s (reachable_well_formed s Hr)))
      as (s1 & Hs1 & Hrun).
    unfold exec. rewrite Hrun. apply act_one_lamp; [|exact Hsg].
    intros sg' Hsg'. apply scratch_fields in Hs1 as (_ & _ & _ & _ & Hp & _).
    exact (one_lamp_lit_pins _ _ sg' Hp (IH sg' Hsg')).
  - exact (one_lamp_lit_pins _ _ sg (update_position_sensors_pins wild rd c s) (IH sg Hsg)).
  - exact (one_lamp_lit_pins _ _ sg (update_pf_ir_queue_pins wild s) (IH sg Hsg)).
  - exact (update_status_led_lamps due s sg Hsg (IH sg Hsg)).
  - exact (one_lamp_lit_pins _ _ sg eq_refl (IH sg Hsg)).
Qed.

(** What a well-formed signal command does to the lamps of its signal. *)
Lemma signal_command_lamps `{LegoPowerFunctions} wild s (id light value : list Z) j :
  well_formed s ->
  is_token id -> is_token light -> is_token value ->
  fits (join [LEGO; TRAIN; SIGNAL; id; light; value]) ->
  0 <= atoi id < NUM_SIGNALS -> 0 <= atoi light <= 1 -> 0 <= atoi value <= 1 ->
  0 <= j <= 1 ->
  let run := process_request_by_char wild (join [LEGO; TRAIN; SIGNAL; id; light; value]) in
  eval run s = (true, false) /\
  lit (exec run s) (atoi id) j = eqb (atoi value =? 1) (j =? atoi light).
Proof.
  intros Hwf Hid Hlight Hvalue Hfit Hi Hl Hv Hj run.
  destruct (process_request_by_char_parse wild
              (join [LEGO; TRAIN; SIGNAL; id; light; value]) s
              (well_formed_buffer1 s Hwf)) as (s1 & Hs1 & Hrun).
  assert (Hts : Forall is_token [LEGO; TRAIN; SIGNAL; id; light; value])
    by (repeat constructor; assumption).
  rewrite (parse_join _ Hts Hfit) in Hrun. cbn [pad] in Hrun.
  rewrite route_signal in Hrun.
  rewrite !uchar_small in Hrun by (unfold NUM_SIGNALS in *; lia).
  rewrite act_signal_in_range in Hrun by lia.
  unfold eval, exec. subst run. rewrite Hrun. cbn [fst snd].
  split; [reflexivity|].
  rewrite lit_set_signal by (assumption || lia).
  rewrite Z.eqb_refl. reflexivity.
Qed.

(** C4: in every reachable state each signal has exactly one of its two
    lamps lit; and a signal command [lego/train/signal/<id>/<light>/1]
    with a registered id and a light of 0 or 1 leaves lamp [light] of that
    signal lit and the other lamp dark. *)
Theorem one_lamp_lit_always `{LegoPowerFunctions} s :
  reachable s ->
  (forall sg, 0 <= sg < NUM_SIGNALS -> one_lamp_lit s sg) /\
  (forall wild (id light value : list Z),
     is_token id -> is_token light -> is_token value ->
     fits (join [LEGO; TRAIN; SIGNAL; id; light; value]) ->
     0 <= atoi id < NUM_SIGNALS -> 0 <= atoi light <= 1 -> atoi value = 1 ->
     let run := process_request_by_char wild
                  (join [LEGO; TRAIN; SIGNAL; id; light; value]) in
     eval run s = (true, false) /\
     lit (exec run s) (atoi id) (atoi light) = true /\
     lit (exec run s) (atoi id) (1 - atoi light) = false).
Proof.
  intros Hr. split; [apply reachable_one_lamp, Hr|].
  intros wild id light value Hid Hlight Hvalue Hfit Hi Hl Hv run.
  pose proof (reachable_well_formed s Hr) as Hwf.
  destruct (signal_command_lamps wild s id light value (atoi light)
              Hwf Hid Hlight Hvalue Hfit Hi Hl ltac:(lia) Hl) as [Hok H1].
  destruct (signal_command_lamps wild s id light value (1 - atoi light)
              Hwf Hid Hlight Hvalue Hfit Hi Hl ltac:(lia) ltac:(lia)) as [_ H2].
  split; [exact Hok|]. subst run. rewrite H1, H2, Hv, !Z.eqb_refl.
  split; [reflexivity|].
  assert (atoi light = 0 \/ atoi light = 1) as [-> | ->] by lia; reflexivity.
Qed.

(** C4 at work: after [setup], and after [lego/train/signal/1/1/1] on
    top of it, signal 1 has exactly one lamp lit, lamp 1 after the command. *)
Lemma one_lamp_lit_always_witness :
  let s := ready 0 in
  let s' := exec (@process_request_by_char lpf_protocol 0
                    (chars "lego/train/signal/1/1/1")) s in
  one_lamp_lit s 1 /\ lit s' 1 1 = true /\ lit s' 1 0 = false.
Proof.
  intros s s'.
  destruct (@one_lamp_lit_always lpf_protocol s (@reach_setup lpf_protocol 0))
    as [Hinv Hcmd].
  split; [apply Hinv; vm_compute; split; [discriminate | reflexivity]|].
  apply (Hcmd 0 (chars "1") (chars "1") (chars "1")).
  - repeat constructor.
  - repeat constructor.
  - repeat constructor.
  - vm_compute. reflexivity.
  - vm_compute. split; [discriminate | reflexivity].
  - vm_compute. split; discriminate.
  - vm_compute. reflexivity.
Defined.

(** C10: a signal command [lego/train/signal/<id>/<light>/0] with a
    registered id and a light of 0 or 1 is accepted, turns lamp [light] of
    that signal off and lights the other lamp of the signal. *)
Theorem signal_off_lights_other `{LegoPowerFunctions} wild s (id light value : list Z) :
  well_formed s ->
  is_token id -> is_token light -> is_token value ->
  fits (join [LEGO; TRAIN; SIGNAL; id; light; value]) ->
  0 <= atoi id < NUM_SIGNALS -> 0 <= atoi light <= 1 -> atoi value = 0 ->
  let run := process_request_by_char wild
               (join [LEGO; TRAIN; SIGNAL; id; light; value]) in
  eval run s = (true, false) /\
  lit (exec run s) (atoi id) (atoi light) = false /\
  lit (exec run s) (atoi id) (1 - atoi light) = true.
Proof.
  intros Hwf Hid Hlight Hvalue Hfit Hi Hl Hv run.
  destruct (signal_command_lamps wild s id light value (atoi light)
              Hwf Hid Hlight Hvalue Hfit Hi Hl ltac:(lia) Hl) as [Hok H1].
  destruct (signal_command_lamps wild s id light value (1 - atoi light)
              Hwf Hid Hlight Hvalue Hfit Hi Hl ltac:(lia) ltac:(lia)) as [_ H2].
  split; [exact Hok|]. subst run. rewrite H1, H2, Hv, !Z.eqb_refl.
  split; [reflexivity|].
  assert (atoi light = 0 \/ atoi light = 1) as [-> | ->] by lia; reflexivity.
Qed.

(** C10 at work: [lego/train/signal/0/0/0] after [setup] turns lamp 0 of
    signal 0 off and lamp 1 on. *)
Lemma signal_off_lights_other_witness :
  let s' := exec (@process_request_by_char lpf_protocol 0
                    (chars "lego/train/signal/0/0/0")) (ready 0) in
  lit (ready 0) 0 0 = true /\ lit s' 0 0 = false /\ lit s' 0 1 = true.
Proof.
  intros s'. split; [vm_compute; reflexivity|].
  apply (@signal_off_lights_other lpf_protocol 0 (ready 0)
           (chars "0") (chars "0") (chars "0")).
  - vm_compute. repeat split.
  - repeat constructor.
  - repeat constructor.
  - repeat constructor.
  - vm_compute. reflexivity.
  - vm_compute. split; [discriminate | reflexivity].
  - vm_compute. split; discriminate.
  - vm_compute. reflexivity.
Defined.

(** ** Motor commands and the IR queue *)

(** What the [pf] branch does to a queue of four cells: the cells 0 to 3
    are overwritten, the store of the channel at index 4 strays. *)
Lemma act_motor `{LegoPowerFunctions} wild CH CO va s :
  length (queue s) = 4%nat ->
  act wild (MotorPf CH CO va) s =
  ((true, false),
   set_trace (trace s ++ [StrayStore Aqueue 4 CH])
     (set_queue [5; uchar PWM; uchar (speed_level wild va); CO] s)).
Proof.
  intros Hq. rewrite act_MotorPf. fold (speed_level wild va).
  destruct s as [q led ps sw ba pn b1 b2 tr]. cbn [queue] in Hq.
  destruct q as [|q0 [|q1 [|q2 [|q3 [|q4 q]]]]]; try discriminate.
  reflexivity.
Qed.

(** Every motor command overwrites the four cells of [queue] with its own
    payload and is accepted; the channel is stored past the end. *)
Lemma motor_command_loads `{LegoPowerFunctions} wild req s :
  well_formed s -> motor_command req ->
  let run := process_request_by_char wild req in
  eval run s = (true, false) /\
  queue (exec run s) = motor_payload wild req /\
  exists t, emitted run s = t ++ [StrayStore Aqueue 4 (motor_channel req)] /\
            Forall is_scratch_event t.
Proof.
  intros Hwf Hm run.
  destruct (process_request_by_char_parse wild req s (well_formed_buffer1 s Hwf))
    as (s1 & Hs1 & Hrun).
  destruct (motor_command_parse req Hm) as (ch & co & va & Htok & Hparse).
  rewrite Hparse in Hrun.
  apply scratch_fields in Hs1 as (Hq & _ & _ & _ & _ & _ & t & Ht & Hscr).
  rewrite act_motor in Hrun by (rewrite Hq; apply Hwf).
  unfold eval, exec, emitted. subst run. unfold exec. rewrite Hrun.
  cbn [fst snd queue trace set_trace set_queue].
  split; [reflexivity|]. split.
  - unfold motor_payload. rewrite Htok. reflexivity.
  - exists t. split; [|exact Hscr].
    rewrite Ht, <- app_assoc, drop_app_length.
    unfold motor_channel. cbn [tokens_from] in *.
    injection Htok as _ _ _ _ Hch _ _. rewrite Hch. reflexivity.
Qed.

(** C1: dispatching ["lego/train/motor/pf/1/0/7"] after [setup] is accepted
    and loads the four cells of the queue with the repeat count 5, the mode
    [PWM], the forward level of speed 7 and the output side 0; the channel 1
    is stored at [queue[4]], past the end of the array, and is in none of
    its cells. *)
Theorem motor_channel_stored_past_queue `{LegoPowerFunctions} wild :
  let run := process_request_by_char wild (chars "lego/train/motor/pf/1/0/7") in
  eval run (ready wild) = (true, false) /\
  queue (exec run (ready wild)) = [5; uchar PWM; uchar PWM_FWD7; 0] /\
  emitted run (ready wild) = [StrayStore Aqueue 4 1].
Proof. vm_compute. repeat split. Qed.

Lemma stored_past_queue_snoc t v :
  stored_past_queue (t ++ [StrayStore Aqueue 4 v]) = Some v.
Proof.
  unfold stored_past_queue. rewrite omap_app. cbn [omap list_omap].
  apply last_snoc.
Qed.

(** The trace of a motor command: stores of terminators past [buffer1],
    if any, then the store of the channel past [queue]. *)
Lemma motor_command_trace `{LegoPowerFunctions} wild req s :
  well_formed s -> motor_command req ->
  exists t, trace (exec (process_request_by_char wild req) s) =
              (trace s ++ t) ++ [StrayStore Aqueue 4 (motor_channel req)].
Proof.
  intros Hwf Hm.
  destruct (process_request_by_char_parse wild req s (well_formed_buffer1 s Hwf))
    as (s1 & Hs1 & Hrun).
  destruct (motor_command_parse req Hm) as (ch & co & va & Htok & Hparse).
  rewrite Hparse in Hrun.
  apply scratch_fields in Hs1 as (Hq & _ & _ & _ & _ & _ & t & Ht & _).
  rewrite act_motor in Hrun by (rewrite Hq; apply Hwf).
  unfold exec. rewrite Hrun. cbn [snd trace set_trace set_queue].
  exists t. rewrite Ht.
  unfold motor_channel. cbn [tokens_from] in *.
  injection Htok as _ _ _ _ Hch _ _. rewrite Hch. reflexivity.
Qed.

(** C6: a motor command B dispatched on top of a motor command A that no
    tick has drained leaves what B alone leaves, and nothing of A: the
    four cells of the queue hold B's repeat count and payload, and the
    cell past the queue, where the channel is stored, holds B's channel in
    place of A's. *)
Theorem queue_overwrite `{LegoPowerFunctions} wildA wildB A B s :
  well_formed s -> motor_command A -> motor_command B ->
  let after_A := exec (process_request_by_char wildA A) s in
  let after_AB := exec (process_request_by_char wildB B) after_A in
  let after_B := exec (process_request_by_char wildB B) s in
  queue after_AB = queue after_B /\
  queue after_AB = motor_payload wildB B /\
  stored_past_queue (trace after_A) = Some (motor_channel A) /\
  stored_past_queue (trace after_AB) = Some (motor_channel B) /\
  stored_past_queue (trace after_B) = Some (motor_channel B).
Proof.
  intros Hwf HA HB after_A after_AB after_B.
  assert (Hwf' : well_formed after_A)
    by exact (well_formed_shape _ _ (process_request_by_char_shape wildA A s) Hwf).
  destruct (motor_command_loads wildB B after_A Hwf' HB) as (_ & H1 & _).
  destruct (motor_command_loads wildB B s Hwf HB) as (_ & H2 & _).
  destruct (motor_command_trace wildA A s Hwf HA) as (tA & HtA).
  destruct (motor_command_trace wildB B after_A Hwf' HB) as (tAB & HtAB).
  destruct (motor_command_trace wildB B s Hwf HB) as (tB & HtB).
  split; [subst after_AB after_B; congruence|]. split; [exact H1|].
  subst after_AB after_B. fold after_A in HtA.
  rewrite HtA, HtAB, HtB, !stored_past_queue_snoc. repeat split.
Qed.

(** C6 at work: [lego/train/motor/pf/1/0/7] then [lego/train/motor/pf/2/1/-3]. *)
Lemma queue_overwrite_witness :
  let A := chars "lego/train/motor/pf/1/0/7" in
  let B := chars "lego/train/motor/pf/2/1/-3" in
  let after_A := exec (@process_request_by_char lpf_protocol 0 A) (ready 0) in
  let after_AB := exec (@process_request_by_char lpf_protocol 0 B) after_A in
  (queue after_A = [5; 0; 7; 0] /\ stored_past_queue (trace after_A) = Some 1) /\
  queue after_AB = [5; 0; 13; 1] /\ stored_past_queue (trace after_AB) = Some 2.
Proof.
  intros A B after_A after_AB.
  pose proof (@queue_overwrite lpf_protocol 0 0 A B (ready 0)
                ltac:(vm_compute; repeat split)
                ltac:(vm_compute; reflexivity)
                ltac:(vm_compute; reflexivity)) as (_ & H2 & H3 & H4 & _).
  cbv zeta in H2, H3, H4. fold after_A in H2, H3, H4. fold after_AB in H2, H4.
  split; [split; [vm_compute; reflexivity | exact H3]|].
  split; [exact H2 | exact H4].
Defined.

Lemma seqZ_0_NUM_LEGO_PF : seqZ 0 NUM_LEGO_PF = [0; 1].
Proof. reflexivity. Qed.

Lemma update_pf_ir_queue_loaded wild n m st o s :
  queue s = [n; m; st; o] -> 0 < n < 256 ->
  update_pf_ir_queue wild s =
  (tt, set_queue [n - 1; m; st; o]
         (set_trace (trace s ++ broadcast m st o wild) s)).
Proof.
  intros Hq Hn. destruct s as [q led ps sw ba pn b1 b2 tr]. cbn [queue] in Hq. subst q.
  unfold update_pf_ir_queue, broadcast. rewrite seqZ_0_NUM_LEGO_PF.
  unfold bind at 1. cbn [get queue]. 
  change (load [n; m; st; o] 0 wild) with n.
  replace (n >? 0) with true by (symmetry; apply Z.gtb_lt; lia).
  cbv -[uchar Z.sub app]. rewrite uchar_small by lia.
  rewrite <- app_assoc. reflexivity.
Qed.

Lemma update_pf_ir_queue_empty wild m st o s :
  queue s = [0; m; st; o] -> update_pf_ir_queue wild s = (tt, s).
Proof.
  intros Hq. unfold update_pf_ir_queue. rewrite bind_run. cbn [get fst snd].
  rewrite Hq. reflexivity.
Qed.

(** [k] ticks on a queue loaded with a count of at least [k]. *)
Lemma ticks_run wilds : forall n m st o s,
  queue s = [n; m; st; o] -> 0 <= n < 256 -> Z.of_nat (length wilds) <= n ->
  ticks wilds s =
  (tt, set_queue [n - Z.of_nat (length wilds); m; st; o]
         (set_trace (trace s ++ flat_map (broadcast m st o) wilds) s)).
Proof.
  induction wilds as [|w wilds IH]; intros n m st o s Hq Hn Hlen.
  - cbn [ticks for_each length flat_map]. unfold ret.
    rewrite app_nil_r, Z.sub_0_r. rewrite <- Hq. destruct s; reflexivity.
  - cbn [length] in Hlen. unfold ticks. cbn [for_each]. rewrite bind_run.
    rewrite (update_pf_ir_queue_loaded w n m st o s Hq) by lia.
    cbn [fst snd]. fold (ticks wilds).
    rewrite (IH (n - 1) m st o) by (reflexivity || lia).
    cbn [flat_map length trace set_queue set_trace]. unfold set_queue, set_trace. cbn.
    rewrite <- app_assoc. do 3 f_equal. lia.
Qed.

(** C5: a queue loaded with a repeat count [n] of 1 or more is drained by
    ticks one at a time: each tick hands the stored command once to every
    IR LED and takes one off the count; after [n] ticks the count is 0, and
    a tick on a count of 0 broadcasts nothing and changes nothing. *)
Theorem queue_drains wilds n m st o s :
  queue s = [n; m; st; o] -> 0 < n < 256 -> Z.of_nat (length wilds) <= n ->
  queue (exec (ticks wilds) s) = [n - Z.of_nat (length wilds); m; st; o] /\
  emitted (ticks wilds) s = flat_map (broadcast m st o) wilds /\
  (Z.of_nat (length wilds) = n ->
   queue (exec (ticks wilds) s) = [0; m; st; o] /\
   forall wild, update_pf_ir_queue wild (exec (ticks wilds) s)
                = (tt, exec (ticks wilds) s)).
Proof.
  intros Hq Hn Hlen.
  pose proof (ticks_run wilds n m st o s Hq ltac:(lia) Hlen) as Hrun.
  assert (Hqueue : queue (exec (ticks wilds) s)
                   = [n - Z.of_nat (length wilds); m; st; o])
    by (unfold exec; rewrite Hrun; reflexivity).
  split; [exact Hqueue|]. split.
  - apply emitted_app. unfold exec. rewrite Hrun. reflexivity.
  - intros Hall. rewrite Hall, Z.sub_diag in Hqueue. split; [exact Hqueue|].
    intros wild. apply (update_pf_ir_queue_empty wild m st o), Hqueue.
Qed.

(** C5 and the second half of the scenario of C1 at work: the queue that
    ["lego/train/motor/pf/1/0/7"] loads is empty again after five ticks,
    each of which sent one frame to each of the two IR LEDs. *)
Lemma queue_drains_witness :
  let loaded := exec (@process_request_by_char lpf_protocol 0
                        (chars "lego/train/motor/pf/1/0/7")) (ready 0) in
  let wilds := [1; 1; 1; 1; 1] in
  queue loaded = [5; 0; 7; 0] /\
  queue (exec (ticks wilds) loaded) = [0; 0; 7; 0] /\
  emitted (ticks wilds) loaded = flat_map (broadcast 0 7 0) wilds.
Proof.
  intros loaded wilds.
  assert (Hq : queue loaded = [5; 0; 7; 0]) by (vm_compute; reflexivity).
  split; [exact Hq|].
  destruct (queue_drains wilds 5 0 7 0 loaded Hq) as (_ & Hemit & Hend).
  - lia.
  - vm_compute. discriminate.
  - split; [|exact Hemit]. apply Hend. reflexivity.
Defined.

(** ** Position sensors *)

Lemma notifications_app t1 t2 :
  notifications (t1 ++ t2) = notifications t1 ++ notifications t2.
Proof. apply omap_app. Qed.

Global Instance quiet_preorder : PreOrder quiet.
Proof.
  split.
  - intros s. split; [reflexivity|]. exists []. rewrite app_nil_r. split; reflexivity.
  - intros s1 s2 s3 (Hp1 & t1 & Ht1 & Hn1) (Hp2 & t2 & Ht2 & Hn2).
    split; [congruence|]. exists (t1 ++ t2). split.
    + rewrite Ht2, Ht1, app_assoc. reflexivity.
    + rewrite notifications_app, Hn1, Hn2. reflexivity.
Qed.

Ltac quiet_tac :=
  split; [reflexivity|];
  first [ exists []; split; [cbn; rewrite app_nil_r; reflexivity | reflexivity]
        | eexists [_]; split; reflexivity ].

(** [mqtt_publish_position_sensor(i, v)] reports the change of sensor [i]
    to [v] once, and leaves the sensor values alone. *)
Lemma mqtt_publish_position_sensor_effect wild connected i v s :
  let s' := exec (mqtt_publish_position_sensor wild connected i v) s in
  position_sensor s' = position_sensor s /\
  exists t, trace s' = trace s ++ PositionChanged i v :: t /\ notifications t = [].
Proof.
  unfold exec, mqtt_publish_position_sensor. rewrite bind_run.
  cbn [emit modify fst snd].
  match goal with
  | |- context [snd (?rest ?s0)] =>
      assert (Hrest : rel quiet rest) by (rel_auto quiet_tac);
      destruct (Hrest s0) as (Hp & t & Ht & Hn)
  end.
  unfold exec in *. cbn zeta. split; [exact Hp|].
  exists t. split; [|exact Hn].
  rewrite Ht. cbn [trace set_trace]. rewrite <- app_assoc. reflexivity.
Qed.

Lemma inverted_bit raw : inverted raw = 0 \/ inverted raw = 1.
Proof.
  unfold inverted, uchar.
  pose proof (Z.mod_pos_bound (raw mod 256 + 1) 2 ltac:(lia)) as Hb.
  rewrite (Z.mod_small ((raw mod 256 + 1) mod 2) 256) by lia. lia.
Qed.

(** One step of the polling loop on a sensor that still holds the
    sentinel. *)
Lemma poll_sentinel wild rd connected i pin s v :
  load POSITION_SENSOR_PINS i wild = pin ->
  load (position_sensor s) i wild = 2 ->
  v = inverted (rd pin) ->
  let body :=
    (let! s := get in
     if negb (v =? load (position_sensor s) i wild) then
       do modify (fun s =>
            set_position_sensor (<[Z.to_nat i := v]> (position_sensor s)) s);;
       mqtt_publish_position_sensor wild connected i v
     else ret tt) in
  position_sensor (exec body s) = <[Z.to_nat i := v]> (position_sensor s) /\
  exists t, trace (exec body s) = trace s ++ PositionChanged i v :: t /\
            notifications t = [].
Proof.
  intros Hpin Hcur Hv body. subst body. unfold exec. rewrite bind_run.
  cbn [get fst snd]. rewrite Hcur.
  replace (v =? 2) with false
    by (symmetry; apply Z.eqb_neq; destruct (inverted_bit (rd pin)); lia).
  cbn [negb]. rewrite bind_run. cbn [modify fst snd].
  match goal with
  | |- context [mqtt_publish_position_sensor wild connected i v ?s0] =>
      destruct (mqtt_publish_position_sensor_effect wild connected i v s0)
        as (Hp & t & Ht & Hn)
  end.
  unfold exec in *. split; [rewrite Hp; reflexivity|].
  exists t. split; [rewrite Ht; reflexivity | exact Hn].
Qed.

Lemma seqZ_0_NUM_POSITION_SENSORS : seqZ 0 NUM_POSITION_SENSORS = [0; 1].
Proof. reflexivity. Qed.

(** With the MQTT client disconnected a reported change reaches no one:
    the poll records the new values and publishes nothing. *)
Lemma first_poll_disconnected wild (digitalRead : Z -> Z) s :
  position_sensor s = [2; 2] ->
  let poll := update_position_sensors wild digitalRead false in
  emitted poll s = [PositionChanged 0 (inverted (digitalRead 2));
                    PositionChanged 1 (inverted (digitalRead 3))] /\
  published (emitted poll s) = [] /\
  position_sensor (exec poll s) =
    [inverted (digitalRead 2); inverted (digitalRead 3)].
Proof.
  intros Hps poll.
  assert (Hrun : exec poll s =
                 set_trace (trace s ++ [PositionChanged 0 (inverted (digitalRead 2));
                                        PositionChanged 1 (inverted (digitalRead 3))])
                   (set_position_sensor
                      [inverted (digitalRead 2); inverted (digitalRead 3)] s)).
  { subst poll. destruct s as [q led ps sw ba pn b1 b2 tr]. cbn [position_sensor] in Hps.
    subst ps. unfold update_position_sensors.
    rewrite seqZ_0_NUM_POSITION_SENSORS. cbn [for_each]. cbv zeta.
    change (uchar ((uchar (digitalRead (load POSITION_SENSOR_PINS 0 wild)) + 1) `mod` 2))
      with (inverted (digitalRead 2)).
    change (uchar ((uchar (digitalRead (load POSITION_SENSOR_PINS 1 wild)) + 1) `mod` 2))
      with (inverted (digitalRead 3)).
    destruct (inverted_bit (digitalRead 2)) as [-> | ->],
             (inverted_bit (digitalRead 3)) as [-> | ->];
      cbv -[app]; rewrite <- app_assoc; reflexivity. }
  assert (Hem : emitted poll s = [PositionChanged 0 (inverted (digitalRead 2));
                                  PositionChanged 1 (inverted (digitalRead 3))])
    by (apply emitted_app; rewrite Hrun; reflexivity).
  split; [exact Hem|]. split; [rewrite Hem; reflexivity|].
  rewrite Hrun. reflexivity.
Qed.

(** The MQTT message of a reported change is handed to the client only
    when the client is connected. *)
Lemma publish_needs_connection :
  let rd := fun pin => if pin =? 2 then HIGH else LOW in
  published (emitted (update_position_sensors 0 rd false) (ready 0)) = [] /\
  published (emitted (update_position_sensors 0 rd true) (ready 0)) =
    [(chars "lego/train/position/0", chars "0");
     (chars "lego/train/position/1", chars "1")].
Proof. vm_compute. split; reflexivity. Qed.

(** ** Barriers *)

Lemma route_barrier id sel :
  route [LEGO; TRAIN; BARRIER; id; sel; []; []] =
  SetBarrier (uchar (atoi id)) (uchar (atoi sel)).
Proof. reflexivity. Qed.

Lemma act_barrier_in_range `{LegoPowerFunctions} wild i a s :
  0 <= i < NUM_SERVO_BARRIERS -> 0 <= a < 2 ->
  act wild (SetBarrier i a) s =
  ((true, false),
   set_trace (trace s ++ [ServoBarrierWrite i (uchar (load SERVO_BARRIER_ANGLES a wild))])
     (set_servo_barrier
        (<[Z.to_nat i := Some (uchar (load SERVO_BARRIER_ANGLES a wild))]> (servo_barrier s)) s)).
Proof.
  intros Hi Ha. rewrite act_SetBarrier.
  replace ((0 <=? i) && (i <? NUM_SERVO_BARRIERS) && (0 <=? a) && (a <? 2)) with true.
  - reflexivity.
  - symmetry. rewrite !andb_true_iff, !Z.leb_le, !Z.ltb_lt. lia.
Qed.

Lemma barrier_angle a wild :
  0 <= a <= 1 ->
  uchar (load SERVO_BARRIER_ANGLES a wild) =
  if a =? 0 then SERVO_BARRIER_MIN_ANGLE else SERVO_BARRIER_MAX_ANGLE.
Proof.
  intros Ha. assert (a = 0 \/ a = 1) as [-> | ->] by lia; reflexivity.
Qed.

(** X1: a barrier command [lego/train/barrier/<id>/<selector>] with the id
    of a registered barrier and a selector of 0 or 1 is accepted and sends
    that barrier to the minimum angle (selector 0) or to the maximum angle
    (selector 1); the other barriers, the switches, the queue and the pins
    stay as they are. *)
Theorem barrier_command_sets_angle `{LegoPowerFunctions} wild s (id sel : list Z) :
  well_formed s ->
  is_token id -> is_token sel ->
  fits (join [LEGO; TRAIN; BARRIER; id; sel]) ->
  0 <= atoi id < NUM_SERVO_BARRIERS -> 0 <= atoi sel <= 1 ->
  let run := process_request_by_char wild (join [LEGO; TRAIN; BARRIER; id; sel]) in
  let angle := if atoi sel =? 0 then SERVO_BARRIER_MIN_ANGLE
               else SERVO_BARRIER_MAX_ANGLE in
  eval run s = (true, false) /\
  servo_barrier (exec run s) =
    <[Z.to_nat (atoi id) := Some angle]> (servo_barrier s) /\
  servo_barrier (exec run s) !! Z.to_nat (atoi id) = Some (Some angle) /\
  servo_switch (exec run s) = servo_switch s /\
  queue (exec run s) = queue s /\ pins (exec run s) = pins s.
Proof.
  intros Hwf Hid Hsel Hfit Hi Ha run angle.
  pose proof Hwf as (_ & _ & _ & Hba & _).
  destruct (process_request_by_char_parse wild (join [LEGO; TRAIN; BARRIER; id; sel]) s
              (well_formed_buffer1 s Hwf)) as (s1 & Hs1 & Hrun).
  assert (Hts : Forall is_token [LEGO; TRAIN; BARRIER; id; sel])
    by (repeat constructor; assumption).
  rewrite (parse_join _ Hts Hfit) in Hrun. cbn [pad] in Hrun.
  rewrite route_barrier in Hrun.
  rewrite !uchar_small in Hrun by (unfold NUM_SERVO_BARRIERS in *; lia).
  rewrite act_barrier_in_range in Hrun by lia.
  rewrite barrier_angle in Hrun by lia.
  apply scratch_fields in Hs1 as (Hq & _ & Hsw & Hba1 & Hp & _).
  unfold eval, exec. subst run. rewrite Hrun.
  cbn [fst snd servo_barrier servo_switch queue pins set_trace set_servo_barrier].
  rewrite Hba1. repeat split; try assumption.
  apply list_lookup_insert_eq. rewrite Hba. unfold NUM_SERVO_BARRIERS in *. lia.
Qed.

Lemma barrier_command_sets_angle_witness :
  let s1 := exec (@process_request_by_char lpf_protocol 0 (chars "lego/train/barrier/2/1"))
                 (ready 0) in
  servo_barrier s1 = [Some 30; Some 30; Some 128; Some 30].
Proof.
  intros s1.
  refine (proj1 (proj2 (@barrier_command_sets_angle lpf_protocol 0 (ready 0)
                          (chars "2") (chars "1") _ _ _ _ _ _))).
  - vm_compute. repeat split.
  - repeat constructor.
  - repeat constructor.
  - vm_compute. reflexivity.
  - vm_compute. split; [discriminate | reflexivity].
  - vm_compute. split; discriminate.
Defined.

(** ** What every request has in common *)

Lemma act_answer `{LegoPowerFunctions} wild c s : fst (act wild c s) = answer c.
Proof.
  destruct c as [|CH CO va|sg l v|i a|i a|]; try reflexivity.
  - rewrite act_MotorPf. rewrite !bind_run. reflexivity.
  - rewrite act_SetSignal. rewrite bind_run. reflexivity.
  - rewrite act_SetSwitch. rewrite bind_run. reflexivity.
  - rewrite act_SetBarrier. rewrite bind_run. reflexivity.
Qed.

Lemma answer_top_level req : fst (answer (parse req)) = top_level_match req.
Proof.
  unfold top_level_match, parse. cbn [tokens_from]. cbv zeta.
  destruct (bool_decide (tok req 0 = LEGO)); [|reflexivity].
  destruct (bool_decide (tok req (next req 0) = TRAIN)); [|reflexivity].
  destruct (bool_decide (tok req (next req (next req 0)) = CONFIG)); [reflexivity|].
  destruct (bool_decide_reflect (tok req (next req (next req 0)) = MOTOR)) as [-> | _].
  { destruct (bool_decide (_ = PF)); reflexivity. }
  destruct (bool_decide (tok req (next req (next req 0)) = SIGNAL)); [reflexivity|].
  destruct (bool_decide (tok req (next req (next req 0)) = SWITCH)); [reflexivity|].
  destruct (bool_decide (tok req (next req (next req 0)) = BARRIER)); reflexivity.
Qed.

Lemma answer_config req :
  snd (answer (parse req)) = bool_decide (tokens_from 3 req 0 = [LEGO; TRAIN; CONFIG]).
Proof.
  unfold parse. cbn [tokens_from]. cbv zeta.
  destruct (bool_decide_reflect (tok req 0 = LEGO)) as [-> | H0];
    [|rewrite bool_decide_eq_false_2 by congruence; reflexivity].
  destruct (bool_decide_reflect (tok req (next req 0) = TRAIN)) as [-> | H1];
    [|rewrite bool_decide_eq_false_2 by congruence; reflexivity].
  destruct (bool_decide_reflect (tok req (next req (next req 0)) = CONFIG)) as [-> | H2].
  - reflexivity.
  - rewrite (bool_decide_eq_false_2 (_ = [LEGO; TRAIN; CONFIG])) by congruence.
    repeat match goal with |- context [bool_decide ?P] => destruct (bool_decide P) end;
      reflexivity.
Qed.

Lemma process_request_by_char_answer `{LegoPowerFunctions} wild req s :
  well_formed s ->
  eval (process_request_by_char wild req) s = answer (parse req).
Proof.
  intros Hwf.
  destruct (process_request_by_char_parse wild req s (well_formed_buffer1 s Hwf))
    as (s1 & _ & Hrun).
  unfold eval. rewrite Hrun. apply act_answer.
Qed.

(** X2: a request is accepted exactly when its top-level tokens match the
    grammar [lego/train/<config | motor/pf | signal | switch | barrier>],
    whatever the numbers that follow; the topology document is asked for
    exactly by the requests whose third token is [config]. *)
Theorem accepted_iff_grammar `{LegoPowerFunctions} wild req s :
  well_formed s ->
  fst (eval (process_request_by_char wild req) s) = top_level_match req /\
  snd (eval (process_request_by_char wild req) s) =
    bool_decide (tokens_from 3 req 0 = [LEGO; TRAIN; CONFIG]).
Proof.
  intros Hwf. rewrite process_request_by_char_answer by exact Hwf.
  split; [apply answer_top_level | apply answer_config].
Qed.

Lemma accepted_iff_grammar_witness :
  let run := @process_request_by_char lpf_protocol 0 (chars "lego/train/config") in
  fst (eval run (ready 0)) = true /\ snd (eval run (ready 0)) = true.
Proof.
  apply (@accepted_iff_grammar lpf_protocol 0 (chars "lego/train/config") (ready 0)).
  vm_compute. repeat split.
Defined.

Lemma digitalWrite_run pin level s :
  digitalWrite pin level s =
  (tt, set_trace (trace s ++ [DigitalWrite pin level])
         (set_pins (<[pin := level]> (pins s)) s)).
Proof. reflexivity. Qed.

Lemma set_signal_run wild sg l v s :
  set_signal wild sg l v s =
  (tt, set_trace (trace s ++
                  [DigitalWrite (uchar (load SIGNAL_PINS (2 * sg + 0) wild))
                                (if eqb v (0 =? l) then LOW else HIGH);
                   DigitalWrite (uchar (load SIGNAL_PINS (2 * sg + 1) wild))
                                (if eqb v (1 =? l) then LOW else HIGH)])
         (set_pins (<[uchar (load SIGNAL_PINS (2 * sg + 1) wild) :=
                        if eqb v (1 =? l) then LOW else HIGH]>
                    (<[uchar (load SIGNAL_PINS (2 * sg + 0) wild) :=
                        if eqb v (0 =? l) then LOW else HIGH]> (pins s))) s)).
Proof.
  unfold set_signal. rewrite seqZ_0_2. cbn [for_each].
  rewrite !bind_run.
  destruct (eqb v (0 =? l)), (eqb v (1 =? l));
    rewrite !digitalWrite_run; cbn [fst snd ret]; unfold set_trace, set_pins; cbn;
    rewrite <- app_assoc; reflexivity.
Qed.

Lemma signal_pin_registered wild sg j :
  0 <= sg < NUM_SIGNALS -> 0 <= j < 2 ->
  uchar (load SIGNAL_PINS (2 * sg + j) wild) ∈ SIGNAL_PINS /\
  uchar (load SIGNAL_PINS (2 * sg + j) wild) <> STATUS_LED_PIN.
Proof.
  intros Hsg Hj.
  assert (Hc : (sg = 0 \/ sg = 1) /\ (j = 0 \/ j = 1)) by (unfold NUM_SIGNALS in *; lia).
  clear Hsg Hj. destruct Hc as [[-> | ->] [-> | ->]];
    (split; [vm_compute; set_solver | vm_compute; discriminate]).
Qed.

Lemma command_frame_scratch s s1 : scratch s s1 -> command_frame s s1.
Proof.
  intros (b & t & _ & Ht & ->). unfold command_frame. cbn.
  repeat split. exists t. split; [reflexivity|].
  eapply Forall_impl; [exact Ht|].
  intros [| | | | | |[] ? ?]; cbn; tauto.
Qed.

Lemma command_frame_trans s1 s2 s3 :
  command_frame s1 s2 -> command_frame s2 s3 -> command_frame s1 s3.
Proof.
  intros (Ha1 & Hb1 & Hc1 & Hd1 & t1 & Ht1 & Hf1) (Ha2 & Hb2 & Hc2 & Hd2 & t2 & Ht2 & Hf2).
  unfold command_frame. repeat split; try congruence.
  exists (t1 ++ t2). split; [rewrite Ht2, Ht1, app_assoc; reflexivity|].
  apply Forall_app; split; assumption.
Qed.

Lemma command_frame_refl s : command_frame s s.
Proof.
  unfold command_frame. repeat split. exists []. rewrite app_nil_r. split; constructor.
Qed.

Lemma in_range_true hi v : (0 <=? v) && (v <? hi) = true -> 0 <= v < hi.
Proof. rewrite andb_true_iff, Z.leb_le, Z.ltb_lt. tauto. Qed.

Lemma act_command_frame `{LegoPowerFunctions} wild c s :
  length (queue s) = 4%nat -> command_frame s (exec (act wild c) s).
Proof.
  intros Hq. destruct c as [|CH CO va|sg l v|i a|i a|].
  - apply command_frame_refl.
  - unfold exec. rewrite act_motor by exact Hq. unfold command_frame. cbn.
    repeat split. eexists. split; [reflexivity|]. repeat constructor.
  - unfold exec. rewrite act_SetSignal, bind_run. cbn [ret snd].
    destruct ((0 <=? sg) && (sg <? NUM_SIGNALS)) eqn:E1; [|apply command_frame_refl].
    destruct ((0 <=? l) && (l <? 2)) eqn:E2; [|apply command_frame_refl].
    destruct ((0 <=? v) && (v <=? 1)) eqn:E3; [|apply command_frame_refl].
    apply in_range_true in E1, E2.
    rewrite set_signal_run. unfold command_frame. cbn [snd].
    destruct (signal_pin_registered wild sg 0 E1 ltac:(lia)) as [Hin0 Hne0].
    destruct (signal_pin_registered wild sg 1 E1 ltac:(lia)) as [Hin1 Hne1].
    cbn. repeat split.
    + rewrite !(lookup_insert_ne (M:=gmap Z)) by assumption. reflexivity.
    + eexists. split; [reflexivity|].
      constructor; [split; [exact Hin0 | match goal with |- context [if ?b then _ else _] => destruct b end; auto]|].
      constructor; [split; [exact Hin1 | match goal with |- context [if ?b then _ else _] => destruct b end; auto]|].
      constructor.
  - unfold exec. rewrite act_SetSwitch, bind_run. cbn [ret snd].
    destruct (_ && _) eqn:E; [|apply command_frame_refl].
    rewrite !andb_true_iff, !Z.leb_le, !Z.ltb_lt in E.
    unfold command_frame. cbn. repeat split.
    eexists. split; [reflexivity|]. constructor; [|constructor].
    split; [lia|]. rewrite switch_angle by lia. destruct (a =? 0); auto.
  - unfold exec. rewrite act_SetBarrier, bind_run. cbn [ret snd].
    destruct (_ && _) eqn:E; [|apply command_frame_refl].
    rewrite !andb_true_iff, !Z.leb_le, !Z.ltb_lt in E.
    unfold command_frame. cbn. repeat split.
    eexists. split; [reflexivity|]. constructor; [|constructor].
    split; [lia|]. rewrite barrier_angle by lia. destruct (a =? 0); auto.
  - apply command_frame_refl.
Qed.

Lemma process_request_by_char_frame `{LegoPowerFunctions} wild req s :
  well_formed s -> command_frame s (exec (process_request_by_char wild req) s).
Proof.
  intros Hwf.
  destruct (process_request_by_char_parse wild req s (well_formed_buffer1 s Hwf))
    as (s1 & Hs1 & Hrun).
  unfold exec. rewrite Hrun.
  eapply command_frame_trans; [apply command_frame_scratch, Hs1|].
  apply act_command_frame.
  apply scratch_fields in Hs1 as (Hq & _). rewrite Hq. apply Hwf.
Qed.

(** X3: whatever the request, the dispatcher sends a servo nothing but one
    of its two registered angles and drives nothing but the signal pins;
    it transmits no IR frame, reports and publishes no sensor change, and
    leaves the status LED, the sensor values and the second scratch
    buffer as they are. *)
Theorem dispatcher_drives_registered_only `{LegoPowerFunctions} wild req s :
  well_formed s ->
  let run := process_request_by_char wild req in
  Forall command_event (emitted run s) /\
  status_led_is_on (exec run s) = status_led_is_on s /\
  pins (exec run s) !! STATUS_LED_PIN = pins s !! STATUS_LED_PIN /\
  position_sensor (exec run s) = position_sensor s /\
  buffer2 (exec run s) = buffer2 s.
Proof.
  intros Hwf run.
  destruct (process_request_by_char_frame wild req s Hwf)
    as (Hled & Hps & Hb2 & Hpin & t & Ht & Hev).
  rewrite (emitted_app run s t Ht). repeat split; assumption.
Qed.

Lemma dispatcher_drives_registered_only_witness :
  Forall command_event
    (emitted (@process_request_by_char lpf_protocol 0 (chars "lego/train/signal/1/0/0"))
             (ready 0)).
Proof.
  apply (@dispatcher_drives_registered_only lpf_protocol 0
           (chars "lego/train/signal/1/0/0") (ready 0)).
  vm_compute. repeat split.
Defined.

Lemma act_idle `{LegoPowerFunctions} wild c s :
  drives c = false -> act wild c s = (answer c, s).
Proof.
  destruct c as [|CH CO va|sg l v|i a|i a|]; cbn [drives]; intros Hd;
    try reflexivity; try discriminate.
  - rewrite act_SetSignal, bind_run.
    destruct (sg <? NUM_SIGNALS); [|rewrite andb_false_r; reflexivity].
    destruct (l <? 2); [|rewrite !andb_false_r, ?andb_true_r;
                         destruct (0 <=? sg); reflexivity].
    cbn [andb] in Hd. rewrite Hd, !andb_false_r, !andb_true_r.
    destruct (0 <=? sg), (0 <=? l); reflexivity.
  - rewrite act_SetSwitch, bind_run.
    replace ((0 <=? i) && (i <? NUM_SERVO_SWITCHES) && (0 <=? a) && (a <? 2)) with false;
      [reflexivity|].
    destruct (0 <=? i), (0 <=? a), (i <? NUM_SERVO_SWITCHES), (a <? 2);
      cbn in *; congruence.
  - rewrite act_SetBarrier, bind_run.
    replace ((0 <=? i) && (i <? NUM_SERVO_BARRIERS) && (0 <=? a) && (a <? 2)) with false;
      [reflexivity|].
    destruct (0 <=? i), (0 <=? a), (i <? NUM_SERVO_BARRIERS), (a <? 2);
      cbn in *; congruence.
Qed.

(** X4: a request that names no registered switch, barrier or signal, or
    whose selector, lamp or value is not 0 or 1 once narrowed to
    [unsigned char], drives nothing, and neither does a [config] request:
    the queue, the switches, the barriers, the pins and the sensor values
    stay as they are; the request is still answered by its top-level
    tokens alone. *)
Theorem idle_request_changes_nothing `{LegoPowerFunctions} wild req s :
  well_formed s ->
  drives (parse req) = false ->
  let run := process_request_by_char wild req in
  eval run s = answer (parse req) /\ actuators_untouched s (exec run s).
Proof.
  intros Hwf Hd run.
  destruct (process_request_by_char_parse wild req s (well_formed_buffer1 s Hwf))
    as (s1 & Hs1 & Hrun).
  rewrite (act_idle wild _ s1 Hd) in Hrun.
  unfold eval, exec. subst run. rewrite Hrun. split; [reflexivity|].
  apply scratch_fields in Hs1 as (Hq & Hp & Hsw & Hba & Hpins & _ & Ht).
  unfold actuators_untouched. repeat split; assumption.
Qed.

Lemma idle_request_changes_nothing_witness :
  let run := @process_request_by_char lpf_protocol 0 (chars "lego/train/barrier/1/2") in
  eval run (ready 0) = (true, false) /\ actuators_untouched (ready 0) (exec run (ready 0)).
Proof.
  apply (@idle_request_changes_nothing lpf_protocol 0
           (chars "lego/train/barrier/1/2") (ready 0)).
  - vm_compute. repeat split.
  - vm_compute. reflexivity.
Defined.

(** ** Motor speeds *)

Lemma atoi_range t : -32768 <= atoi t <= 32767.
Proof.
  unfold atoi. destruct (skip_space t) as [|c rest].
  - unfold int16. pose proof (Z.mod_pos_bound (digits 0 [] + 32768) 65536). lia.
  - assert (Hb : forall v, -32768 <= int16 v <= 32767)
      by (intros v; unfold int16; pose proof (Z.mod_pos_bound (v + 32768) 65536); lia).
    repeat match goal with |- context [match ?x with _ => _ end] => destruct x end;
      apply Hb.
Qed.

Lemma speed_level_in_table `{LegoPowerFunctions} wild va :
  -7 <= va <= 7 -> speed_level wild va = table_level va.
Proof.
  intros Hva. unfold speed_level, table_level.
  assert (Hc : va = -7 \/ va = -6 \/ va = -5 \/ va = -4 \/ va = -3 \/ va = -2 \/
               va = -1 \/ va = 0 \/ va = 1 \/ va = 2 \/ va = 3 \/ va = 4 \/
               va = 5 \/ va = 6 \/ va = 7) by lia.
  clear Hva.
  repeat (destruct Hc as [-> | Hc]; [reflexivity|]). subst va. reflexivity.
Qed.

Lemma speed_level_past_table `{LegoPowerFunctions} wild va :
  -32768 <= va <= 32767 -> va < -7 \/ 7 < va -> speed_level wild va = wild.
Proof.
  intros Hr Hva. unfold speed_level.
  destruct (0 <=? va) eqn:E; unfold load, aget.
  - rewrite E. apply Z.leb_le in E.
    rewrite (lookup_ge_None_2 _ (Z.to_nat va)) by (cbn [length fwdSpeed]; lia). reflexivity.
  - apply Z.leb_gt in E.
    destruct (Z.eq_dec va (-32768)) as [-> | Hne]; [reflexivity|].
    assert (Hi : int16 (- va) = - va)
      by (unfold int16; rewrite Z.mod_small by lia; lia).
    rewrite Hi. rewrite (proj2 (Z.leb_le 0 (- va))) by lia.
    rewrite (lookup_ge_None_2 _ (Z.to_nat (- va))) by (cbn [length revSpeed]; lia).
    reflexivity.
Qed.

Lemma motor_tokens_load `{LegoPowerFunctions} wild req s ch co va :
  well_formed s ->
  tokens_from 7 req 0 = [LEGO; TRAIN; MOTOR; PF; ch; co; va] ->
  eval (process_request_by_char wild req) s = (true, false) /\
  queue (exec (process_request_by_char wild req) s) =
    [5; uchar PWM; uchar (speed_level wild (atoi va)); uchar (atoi co)].
Proof.
  intros Hwf Htok.
  assert (Hm : motor_command req).
  { unfold motor_command. cbn [tokens_from] in *. congruence. }
  destruct (motor_command_loads wild req s Hwf Hm) as (Hok & Hq & _).
  split; [exact Hok|]. cbv zeta in Hq. rewrite Hq. unfold motor_payload. rewrite Htok.
  reflexivity.
Qed.

(** X5: a motor command [lego/train/motor/pf/<channel>/<output>/<speed>]
    with a speed from -7 to 7 is accepted and loads the queue with the
    repeat count 5, the mode [PWM], the level the forward table gives the
    speed (the reverse table gives its absolute value, for a negative
    speed) and the output side; speed 0 is [PWM_FLT] on both tables. *)
Theorem motor_speed_from_table `{LegoPowerFunctions} wild req s ch co va :
  well_formed s ->
  tokens_from 7 req 0 = [LEGO; TRAIN; MOTOR; PF; ch; co; va] ->
  -7 <= atoi va <= 7 ->
  let run := process_request_by_char wild req in
  eval run s = (true, false) /\
  queue (exec run s) =
    [5; uchar PWM; uchar (table_level (atoi va)); uchar (atoi co)] /\
  table_level 0 = PWM_FLT /\ table_level 7 = PWM_FWD7 /\ table_level (-7) = PWM_REV7.
Proof.
  intros Hwf Htok Hva run.
  destruct (motor_tokens_load wild req s ch co va Hwf Htok) as [Hok Hq].
  split; [exact Hok|]. split; [|repeat split].
  subst run. rewrite Hq, speed_level_in_table by exact Hva. reflexivity.
Qed.

Lemma motor_speed_from_table_witness :
  queue (exec (@process_request_by_char lpf_protocol 0 (chars "lego/train/motor/pf/2/1/-3"))
              (ready 0))
  = [5; uchar (@PWM lpf_protocol); uchar (@PWM_REV3 lpf_protocol); 1].
Proof.
  refine (proj1 (proj2 (@motor_speed_from_table lpf_protocol 0
                          (chars "lego/train/motor/pf/2/1/-3") (ready 0)
                          (chars "2") (chars "1") (chars "-3") _ _ _))).
  - vm_compute. repeat split.
  - vm_compute. reflexivity.
  - vm_compute. split; discriminate.
Defined.

(** X6: the speed of a motor command is not checked against the tables:
    a speed above 7 or below -7 is accepted all the same, and the level
    loaded into the queue is read past the end of the speed table: it is
    whatever lies there, narrowed to a byte. *)
Theorem motor_speed_past_table `{LegoPowerFunctions} wild req s ch co va :
  well_formed s ->
  tokens_from 7 req 0 = [LEGO; TRAIN; MOTOR; PF; ch; co; va] ->
  atoi va < -7 \/ 7 < atoi va ->
  let run := process_request_by_char wild req in
  eval run s = (true, false) /\
  queue (exec run s) = [5; uchar PWM; uchar wild; uchar (atoi co)].
Proof.
  intros Hwf Htok Hva run.
  destruct (motor_tokens_load wild req s ch co va Hwf Htok) as [Hok Hq].
  split; [exact Hok|].
  subst run. rewrite Hq, speed_level_past_table by (apply atoi_range || exact Hva).
  reflexivity.
Qed.

Lemma motor_speed_past_table_witness :
  queue (exec (@process_request_by_char lpf_protocol 99 (chars "lego/train/motor/pf/0/0/8"))
              (ready 0))
  = [5; uchar (@PWM lpf_protocol); 99; 0].
Proof.
  refine (proj2 (@motor_speed_past_table lpf_protocol 99
                   (chars "lego/train/motor/pf/0/0/8") (ready 0)
                   (chars "0") (chars "0") (chars "8") _ _ _)).
  - vm_compute. repeat split.
  - vm_compute. reflexivity.
  - right. vm_compute. reflexivity.
Defined.

Lemma ticks_app l1 l2 s : ticks (l1 ++ l2) s = ticks l2 (exec (ticks l1) s).
Proof.
  revert s. induction l1 as [|w l1 IH]; intros s; [reflexivity|].
  unfold ticks, exec in *. cbn [app for_each]. rewrite !bind_run. rewrite IH. reflexivity.
Qed.

Lemma ticks_empty wilds m st o s : queue s = [0; m; st; o] -> ticks wilds s = (tt, s).
Proof.
  intros Hq. induction wilds as [|w wilds IH]; [reflexivity|].
  unfold ticks in *. cbn [for_each]. rewrite bind_run.
  rewrite (update_pf_ir_queue_empty w m st o s Hq). exact IH.
Qed.

(** X7: a motor command is transmitted five times and no more: on the
    five next ticks of the queue every IR LED is handed the mode, the
    level and the output side the command loaded, with whatever byte lies
    past the end of [queue] as the channel; from then on the count is 0
    and further ticks transmit nothing, however many there are. *)
Theorem motor_command_sent_five_times `{LegoPowerFunctions} wild req s wilds :
  well_formed s -> motor_command req ->
  (5 <= length wilds)%nat ->
  let s1 := exec (process_request_by_char wild req) s in
  exists level side,
    queue s1 = [5; uchar PWM; level; side] /\
    emitted (ticks wilds) s1 =
      flat_map (broadcast (uchar PWM) level side) (take 5 wilds) /\
    queue (exec (ticks wilds) s1) = [0; uchar PWM; level; side].
Proof.
  intros Hwf Hm Hlen s1.
  destruct (motor_command_parse req Hm) as (ch & co & va & Htok & _).
  destruct (motor_tokens_load wild req s ch co va Hwf Htok) as [_ Hq].
  fold s1 in Hq.
  exists (uchar (speed_level wild (atoi va))), (uchar (atoi co)).
  split; [exact Hq|].
  assert (Hrun : exec (ticks wilds) s1 =
                 set_queue [0; uchar PWM; uchar (speed_level wild (atoi va)); uchar (atoi co)]
                   (set_trace (trace s1 ++
                      flat_map (broadcast (uchar PWM) (uchar (speed_level wild (atoi va)))
                                          (uchar (atoi co))) (take 5 wilds)) s1)).
  { rewrite <- (take_drop 5 wilds) at 1. unfold exec at 1. rewrite ticks_app.
    unfold exec.
    rewrite (ticks_run (take 5 wilds) 5 _ _ _ s1 Hq) by (rewrite ?length_take; lia).
    cbn [snd]. rewrite length_take, Nat.min_l by exact Hlen.
    erewrite ticks_empty by reflexivity. reflexivity. }
  split.
  - apply emitted_app. rewrite Hrun. reflexivity.
  - rewrite Hrun. reflexivity.
Qed.

Lemma motor_command_sent_five_times_witness :
  let s1 := exec (@process_request_by_char lpf_protocol 0 (chars "lego/train/motor/pf/1/0/7"))
                 (ready 0) in
  exists level side,
    queue s1 = [5; uchar (@PWM lpf_protocol); level; side] /\
    emitted (ticks [1; 1; 1; 1; 1; 1; 1]) s1 =
      flat_map (broadcast (uchar (@PWM lpf_protocol)) level side) [1; 1; 1; 1; 1] /\
    queue (exec (ticks [1; 1; 1; 1; 1; 1; 1]) s1) = [0; uchar (@PWM lpf_protocol); level; side].
Proof.
  apply (@motor_command_sent_five_times lpf_protocol 0 (chars "lego/train/motor/pf/1/0/7")
           (ready 0) [1; 1; 1; 1; 1; 1; 1]).
  - vm_compute. repeat split.
  - vm_compute. reflexivity.
  - cbn [length]. lia.
Defined.

(** ** The tokenizer, seen from its caller *)

Lemma token_prefix l : token l = take (length (token l)) l.
Proof.
  induction l as [|c l IH]; cbn; [reflexivity|].
  destruct (token_char c); cbn; [f_equal; exact IH | reflexivity].
Qed.

Lemma token_chars l : Forall (fun c => c <> 0 /\ c <> 47) (token l).
Proof.
  induction l as [|c l IH]; cbn; [constructor|].
  destruct (token_char c) eqn:E; [|constructor].
  constructor; [|exact IH].
  unfold token_char in E. apply andb_true_iff in E as [E1 E2].
  apply negb_true_iff in E1, E2. apply Z.eqb_neq in E1, E2. split; assumption.
Qed.

Lemma str_at_drop str i n c r :
  0 <= i -> drop n (window str i) = c :: r -> str_at str (i + Z.of_nat n) = c.
Proof.
  intros Hi Hd. unfold str_at.
  rewrite (proj2 (Z.leb_le 0 (i + Z.of_nat n))) by lia.
  assert (Hl : window str i !! n = Some c).
  { rewrite <- (Nat.add_0_r n), <- lookup_drop, Hd. reflexivity. }
  unfold window in Hl. apply lookup_take_Some in Hl as [Hl _].
  rewrite lookup_drop in Hl.
  replace (Z.to_nat (i + Z.of_nat n)) with (Z.to_nat i + n)%nat by lia.
  rewrite Hl. reflexivity.
Qed.

Lemma token_stops l c r :
  drop (length (token l)) l = c :: r -> token_char c = false.
Proof.
  induction l as [|x l IH]; cbn [token]; [discriminate|].
  destruct (token_char x) eqn:E; cbn [length drop].
  - exact IH.
  - intros [= -> _]. exact E.
Qed.

(** X8: one call of the tokenizer on any string, from any cursor inside
    the buffer.  The token left in [buffer1] is the run of characters of
    the string from the cursor up to the first ['/'] or NUL, or up to cell
    [MAX_BUFFER_SIZE] of the string if that comes first; the cursor comes
    back right after the token, and one cell further when the token was
    ended by a ['/'].  So the cursor never moves back and never leaves the
    buffer. *)
Theorem tokenizer_delivers str i s :
  0 <= i <= MAX_BUFFER_SIZE ->
  length (buffer1 s) = Z.to_nat MAX_BUFFER_SIZE ->
  let j := eval (get_char_until_next_slash str i) s in
  let t := c_str (buffer1 (exec (get_char_until_next_slash str i) s)) in
  let e := i + Z.of_nat (length t) in
  i <= j <= MAX_BUFFER_SIZE /\
  t = take (length t) (drop (Z.to_nat i) str) /\
  Forall (fun c => c <> 0 /\ c <> 47) t /\
  (e = MAX_BUFFER_SIZE /\ j = e \/
   e < MAX_BUFFER_SIZE /\ str_at str e = 0 /\ j = e \/
   e < MAX_BUFFER_SIZE /\ str_at str e = 47 /\ j = e + 1).
Proof.
  intros Hi Hlen j t e. subst j t e. unfold eval, exec.
  rewrite tokenizer_run by assumption. cbn [fst snd].
  pose proof (tok_length str i Hi) as Htl.
  rewrite after_token_c_str by (assumption || blia || apply token_nonzero).
  split; [apply next_bounds, Hi|]. split; [|split; [apply token_chars|]].
  - unfold tok at 1. rewrite token_prefix. fold (tok str i).
    unfold window. rewrite take_take. f_equal. blia.
  - unfold next.
    destruct (drop (length (tok str i)) (window str i)) as [|c r] eqn:E.
    + rewrite Z.add_0_r.
      destruct (Z.eq_dec (i + Z.of_nat (length (tok str i))) MAX_BUFFER_SIZE) as [He | Hne];
        [left; split; [exact He | reflexivity]|].
      right. left. split; [lia|]. split; [|reflexivity].
      apply (f_equal length) in E. rewrite length_drop in E. cbn [length] in E.
      unfold window in E. rewrite length_take, length_drop in E.
      unfold str_at. rewrite (proj2 (Z.leb_le 0 _)) by lia.
      rewrite lookup_ge_None_2 by blia. reflexivity.
    + pose proof (str_at_drop str i _ c r ltac:(lia) E) as Hc.
      assert (Hl : (length (tok str i) < length (window str i))%nat).
      { destruct (decide (length (tok str i) < length (window str i))%nat) as [|Hge];
          [assumption|]. rewrite drop_ge in E by lia. discriminate. }
      unfold window in Hl. rewrite length_take in Hl.
      pose proof (token_stops _ _ _ E) as Hstop.
      unfold token_char in Hstop.
      destruct (Z.eq_dec c 0) as [-> | Hc0].
      * right. left. split; [blia|]. split; [exact Hc | lia].
      * destruct (Z.eq_dec c 47) as [-> | Hc47].
        -- right. right. split; [blia|]. split; [exact Hc | lia].
        -- apply Z.eqb_neq in Hc0, Hc47. rewrite Hc0, Hc47 in Hstop. discriminate.
Qed.

Lemma tokenizer_delivers_witness :
  let str := chars "lego/train/config" in
  let j := eval (get_char_until_next_slash str 5) (ready 0) in
  let t := c_str (buffer1 (exec (get_char_until_next_slash str 5) (ready 0))) in
  let e := 5 + Z.of_nat (length t) in
  5 <= j <= MAX_BUFFER_SIZE /\
  t = take (length t) (drop (Z.to_nat 5) str) /\
  Forall (fun c => c <> 0 /\ c <> 47) t /\
  (e = MAX_BUFFER_SIZE /\ j = e \/
   e < MAX_BUFFER_SIZE /\ str_at str e = 0 /\ j = e \/
   e < MAX_BUFFER_SIZE /\ str_at str e = 47 /\ j = e + 1).
Proof.
  apply (tokenizer_delivers (chars "lego/train/config") 5 (ready 0)).
  - vm_compute. split; discriminate.
  - reflexivity.
Defined.

Lemma read_tokens_run n : forall str i s,
  0 <= i <= MAX_BUFFER_SIZE ->
  length (buffer1 s) = Z.to_nat MAX_BUFFER_SIZE ->
  eval (read_tokens n str i) s = tokens_from n str i.
Proof.
  induction n as [|n IH]; intros str i s Hi Hlen; [reflexivity|].
  unfold eval in *. cbn [read_tokens tokens_from].
  rewrite bind_run, tokenizer_run by assumption. cbn [fst snd].
  rewrite bind_run. cbn [get fst snd]. rewrite bind_run. cbn [ret fst].
  pose proof (tok_length str i Hi) as Htl.
  rewrite after_token_c_str by (assumption || blia || apply token_nonzero).
  f_equal. apply IH; [apply cursor_ok, Hi|].
  apply after_token_buffer_length; [assumption | blia].
Qed.

Lemma read_tokens_trace n : forall str i s,
  fits str -> 0 <= i <= MAX_BUFFER_SIZE ->
  length (buffer1 s) = Z.to_nat MAX_BUFFER_SIZE ->
  trace (exec (read_tokens n str i) s) = trace s.
Proof.
  induction n as [|n IH]; intros str i s Hf Hi Hlen; [reflexivity|].
  unfold exec in *. cbn [read_tokens].
  rewrite bind_run. rewrite bind_run. cbn [get fst snd]. rewrite bind_run. cbn [ret snd].
  pose proof (tokenizer_in_bounds str i s Hf Hi Hlen) as Hem.
  pose proof (tok_length str i Hi) as Htl.
  unfold emitted, exec in Hem.
  rewrite tokenizer_run in * by assumption. cbn [fst snd] in *.
  rewrite IH; [| exact Hf | apply cursor_ok, Hi
               | apply after_token_buffer_length; [assumption | blia]].
  unfold after_token in *.
  destruct (Z.of_nat (length (tok str i)) <? MAX_BUFFER_SIZE); [reflexivity|].
  cbn [trace set_trace set_buffer1] in Hem. rewrite drop_app_length in Hem. discriminate.
Qed.

(** X9: a request written as tokens separated by ['/'], short enough for
    the request buffer, is read back token by token: successive calls of
    the tokenizer deliver the tokens in order, then empty tokens for as
    long as they are called, and no call stores anything outside
    [buffer1]. *)
Theorem tokenizer_round_trip n ts s :
  Forall is_token ts -> fits (join ts) ->
  length (buffer1 s) = Z.to_nat MAX_BUFFER_SIZE ->
  eval (read_tokens n (join ts) 0) s = pad n ts /\
  emitted (read_tokens n (join ts) 0) s = [].
Proof.
  intros Hts Hf Hlen. split.
  - rewrite read_tokens_run by (assumption || blia). apply tokens_of_join; assumption.
  - apply emitted_app. rewrite read_tokens_trace by (assumption || blia).
    rewrite app_nil_r. reflexivity.
Qed.

Lemma tokenizer_round_trip_witness :
  eval (read_tokens 4 (chars "lego/train/switch") 0) (ready 0) =
    [chars "lego"; chars "train"; chars "switch"; []].
Proof.
  refine (proj1 (tokenizer_round_trip 4 [chars "lego"; chars "train"; chars "switch"]
                   (ready 0) _ _ _)).
  - repeat constructor.
  - vm_compute. reflexivity.
  - reflexivity.
Defined.

(** ** Polling the sensors *)

(** One step of the polling loop, whatever the sensor holds. *)
Lemma poll_body wild connected i v cur s :
  load (position_sensor s) i wild = cur ->
  let body :=
    (let! s := get in
     if negb (v =? load (position_sensor s) i wild) then
       do modify (fun s =>
            set_position_sensor (<[Z.to_nat i := v]> (position_sensor s)) s);;
       mqtt_publish_position_sensor wild connected i v
     else ret tt) in
  position_sensor (exec body s) =
    (if v =? cur then position_sensor s
     else <[Z.to_nat i := v]> (position_sensor s)) /\
  exists t, trace (exec body s) = trace s ++ t /\
            notifications t = if v =? cur then [] else [(i, v)].
Proof.
  intros Hcur body. subst body. unfold exec. rewrite bind_run.
  cbn [get fst snd]. rewrite Hcur.
  destruct (v =? cur); cbn [negb].
  - split; [reflexivity|]. exists []. rewrite app_nil_r. split; reflexivity.
  - rewrite bind_run. cbn [modify fst snd].
    match goal with
    | |- context [mqtt_publish_position_sensor wild connected i v ?s0] =>
        destruct (mqtt_publish_position_sensor_effect wild connected i v s0)
          as (Hp & t & Ht & Hn)
    end.
    unfold exec in *. split; [rewrite Hp; reflexivity|].
    exists (PositionChanged i v :: t). split; [rewrite Ht; reflexivity|].
    cbn [notifications omap list_omap]. fold (notifications t). rewrite Hn. reflexivity.
Qed.

Lemma poll_run wild rd connected a b s :
  position_sensor s = [a; b] ->
  let poll := update_position_sensors wild rd connected in
  let v0 := inverted (rd 2) in
  let v1 := inverted (rd 3) in
  position_sensor (exec poll s) = [v0; v1] /\
  notifications (emitted poll s) =
    (if v0 =? a then [] else [(0, v0)]) ++ (if v1 =? b then [] else [(1, v1)]).
Proof.
  intros Hps poll v0 v1. subst poll. unfold update_position_sensors.
  rewrite seqZ_0_NUM_POSITION_SENSORS. cbn [for_each]. cbv zeta.
  change (uchar ((uchar (rd (load POSITION_SENSOR_PINS 0 wild)) + 1) `mod` 2)) with v0.
  change (uchar ((uchar (rd (load POSITION_SENSOR_PINS 1 wild)) + 1) `mod` 2)) with v1.
  match goal with
  | |- context [exec (bind ?b0 (fun _ => bind ?b1 _)) s] =>
      pose proof (poll_body wild connected 0 v0 a s
                    ltac:(rewrite Hps; reflexivity)) as (Hp0 & t0 & Ht0 & Hn0);
      cbv zeta in Hp0, Ht0; set (s1 := exec b0 s) in *;
      assert (Hps1 : position_sensor s1 = [v0; b])
        by (rewrite Hp0, Hps; destruct (v0 =? a) eqn:E;
            [apply Z.eqb_eq in E; subst a; reflexivity | reflexivity]);
      pose proof (poll_body wild connected 1 v1 b s1
                    ltac:(rewrite Hps1; reflexivity)) as (Hp1 & t1 & Ht1 & Hn1);
      cbv zeta in Hp1, Ht1; set (s2 := exec b1 s1) in *;
      assert (Hrun : exec (bind b0 (fun _ => bind b1 (fun _ => ret tt))) s = s2)
        by (rewrite exec_bind; fold s1; rewrite exec_bind; reflexivity)
  end.
  rewrite Hrun.
  split.
  - rewrite Hp1, Hps1. destruct (v1 =? b) eqn:E;
      [apply Z.eqb_eq in E; subst b; reflexivity | reflexivity].
  - unfold emitted. rewrite Hrun, Ht1, Ht0, <- app_assoc, drop_app_length.
    rewrite notifications_app, Hn0, Hn1. reflexivity.
Qed.

Lemma poll_unchanged wild rd connected s :
  position_sensor s = [inverted (rd 2); inverted (rd 3)] ->
  update_position_sensors wild rd connected s = (tt, s).
Proof.
  intros Hps. unfold update_position_sensors.
  rewrite seqZ_0_NUM_POSITION_SENSORS. cbn [for_each]. cbv zeta.
  change (uchar ((uchar (rd (load POSITION_SENSOR_PINS 0 wild)) + 1) `mod` 2))
    with (inverted (rd 2)).
  change (uchar ((uchar (rd (load POSITION_SENSOR_PINS 1 wild)) + 1) `mod` 2))
    with (inverted (rd 3)).
  rewrite bind_run. rewrite (bind_run get). cbn [get fst snd]. rewrite Hps.
  change (load [inverted (rd 2); inverted (rd 3)] 0 wild) with (inverted (rd 2)).
  rewrite Z.eqb_refl. cbn [negb ret fst snd].
  rewrite bind_run. rewrite (bind_run get). cbn [get fst snd]. rewrite Hps.
  change (load [inverted (rd 2); inverted (rd 3)] 1 wild) with (inverted (rd 3)).
  rewrite Z.eqb_refl. reflexivity.
Qed.

(** X10: a poll of the position sensors reports exactly the sensors whose
    inverted raw level differs from the value stored for them, each once
    and in the order of their indices, and leaves the inverted raw levels
    stored. *)
Theorem poll_reports_changes wild (digitalRead : Z -> Z) connected s :
  length (position_sensor s) = Z.to_nat NUM_POSITION_SENSORS ->
  let poll := update_position_sensors wild digitalRead connected in
  let changed i := negb (inverted (digitalRead (load POSITION_SENSOR_PINS i 0))
                         =? load (position_sensor s) i 0) in
  notifications (emitted poll s) =
    map (fun i => (i, inverted (digitalRead (load POSITION_SENSOR_PINS i 0))))
        (filter (fun i => changed i = true) (seqZ 0 NUM_POSITION_SENSORS)) /\
  position_sensor (exec poll s) =
    map (fun i => inverted (digitalRead (load POSITION_SENSOR_PINS i 0)))
        (seqZ 0 NUM_POSITION_SENSORS).
Proof.
  intros Hlen poll changed.
  destruct (position_sensor s) as [|a [|b [|c r]]] eqn:Hps; try discriminate.
  destruct (poll_run wild digitalRead connected a b s Hps) as [Hp Hn].
  split; [|exact Hp].
  subst poll. rewrite Hn. subst changed. rewrite seqZ_0_NUM_POSITION_SENSORS.
  change (load POSITION_SENSOR_PINS 0 0) with 2.
  change (load POSITION_SENSOR_PINS 1 0) with 3.
  change (load [a; b] 0 0) with a. change (load [a; b] 1 0) with b.
  rewrite !filter_cons, filter_nil.
  change (load POSITION_SENSOR_PINS 0 0) with 2.
  change (load POSITION_SENSOR_PINS 1 0) with 3.
  change (load [a; b] 0 0) with a. change (load [a; b] 1 0) with b.
  destruct (inverted (digitalRead 2) =? a), (inverted (digitalRead 3) =? b);
    cbn [negb]; repeat (destruct (decide _) as [|]); try congruence; reflexivity.
Qed.

Lemma poll_reports_changes_witness :
  let rd := fun pin => if pin =? 2 then HIGH else LOW in
  let s := set_position_sensor [0; 0] (ready 0) in
  notifications (emitted (update_position_sensors 0 rd true) s) = [(1, 1)].
Proof.
  intros rd s.
  exact (proj1 (poll_reports_changes 0 rd true s eq_refl)).
Defined.

(** X11: the sensors are reported on a change only: a poll that reads the
    same raw levels as the poll before it reports nothing, publishes
    nothing and changes nothing, whether the MQTT client is connected or
    not. *)
Theorem poll_twice_silent wild (digitalRead : Z -> Z) connected connected' s :
  length (position_sensor s) = Z.to_nat NUM_POSITION_SENSORS ->
  let s1 := exec (update_position_sensors wild digitalRead connected) s in
  update_position_sensors wild digitalRead connected' s1 = (tt, s1).
Proof.
  intros Hlen s1.
  destruct (position_sensor s) as [|a [|b [|c r]]] eqn:Hps; try discriminate.
  destruct (poll_run wild digitalRead connected a b s Hps) as [Hp _].
  apply poll_unchanged. exact Hp.
Qed.

Lemma poll_twice_silent_witness :
  let rd := fun pin => if pin =? 2 then HIGH else LOW in
  let s1 := exec (update_position_sensors 0 rd true) (ready 0) in
  update_position_sensors 0 rd true s1 = (tt, s1).
Proof.
  intros rd s1.
  exact (poll_twice_silent 0 rd true true (ready 0) eq_refl).
Defined.

(** ** The status LED *)

Global Instance same_led_preorder : PreOrder same_led.
Proof.
  split.
  - intros s. split; reflexivity.
  - intros s1 s2 s3 [H1 H2] [H3 H4]. split; congruence.
Qed.

Lemma update_position_sensors_led wild rd c :
  rel same_led (update_position_sensors wild rd c).
Proof. rel_auto ltac:(split; reflexivity). Qed.

Lemma update_pf_ir_queue_led wild : rel same_led (update_pf_ir_queue wild).
Proof. rel_auto ltac:(split; reflexivity). Qed.

Lemma led_consistent_same s s' :
  status_led_is_on s' = status_led_is_on s ->
  pins s' !! STATUS_LED_PIN = pins s !! STATUS_LED_PIN ->
  led_consistent s -> led_consistent s'.
Proof. unfold led_consistent. intros -> ->. exact id. Qed.

Lemma status_led_switch_run s :
  status_led_switch s =
  (tt, set_status_led_is_on (negb (status_led_is_on s))
         (set_trace (trace s ++ [DigitalWrite STATUS_LED_PIN
                                   (if status_led_is_on s then LOW else HIGH)])
            (set_pins (<[STATUS_LED_PIN := if status_led_is_on s then LOW else HIGH]>
                         (pins s)) s))).
Proof.
  unfold status_led_switch. rewrite bind_run. cbn [get fst snd].
  destruct (status_led_is_on s); reflexivity.
Qed.

(** X12: in every reachable state the flag [status_led_is_on] agrees with
    the level last written to the status LED pin, so that every due
    update of the LED inverts the level of the pin; no request, sensor
    poll or queue tick touches either. *)
Theorem status_led_mirrors_pin `{LegoPowerFunctions} s :
  reachable s ->
  led_consistent s /\
  pins (exec (update_status_led true) s) !! STATUS_LED_PIN =
    Some (if status_led_is_on s then LOW else HIGH).
Proof.
  intros Hr. split.
  - induction Hr as [wild | wild req s Hr IH | wild rd c s _ IH | wild s _ IH
                    | due s _ IH | b1 b2 s _ _ _ IH].
    + vm_compute. reflexivity.
    + destruct (process_request_by_char_frame wild req s (reachable_well_formed s Hr))
        as (Hled & _ & _ & Hpin & _).
      exact (led_consistent_same _ _ Hled Hpin IH).
    + destruct (update_position_sensors_led wild rd c s) as [Hled Hp].
      apply (led_consistent_same s); [exact Hled | rewrite Hp; reflexivity | exact IH].
    + destruct (update_pf_ir_queue_led wild s) as [Hled Hp].
      apply (led_consistent_same s); [exact Hled | rewrite Hp; reflexivity | exact IH].
    + destruct due; [|exact IH].
      unfold exec, update_status_led. rewrite status_led_switch_run.
      unfold led_consistent. cbn. rewrite lookup_insert_eq.
      destruct (status_led_is_on s); reflexivity.
    + exact IH.
  - unfold exec, update_status_led. rewrite status_led_switch_run. cbn.
    apply lookup_insert_eq.
Qed.

Lemma status_led_mirrors_pin_witness :
  led_consistent (exec (update_status_led true) (ready 0)) /\
  pins (exec (update_status_led true) (exec (update_status_led true) (ready 0)))
    !! STATUS_LED_PIN = Some LOW.
Proof.
  apply (@status_led_mirrors_pin lpf_protocol (exec (update_status_led true) (ready 0))).
  apply reach_status_led, reach_setup.
Defined.

(** ** Switches and barriers, all at once *)

Lemma set_servo_all (sw : bool) (angle : Z) (l : list Z) : forall s,
  exec (for_each l (fun i => set_servo sw i angle)) s =
  set_trace (trace s ++ map (fun i => if sw then ServoSwitchWrite i angle
                                      else ServoBarrierWrite i angle) l)
    (if sw
     then set_servo_switch
            (foldl (fun v i => <[Z.to_nat i := Some angle]> v) (servo_switch s) l) s
     else set_servo_barrier
            (foldl (fun v i => <[Z.to_nat i := Some angle]> v) (servo_barrier s) l) s).
Proof.
  induction l as [|i l IH]; intros s.
  - cbn. rewrite app_nil_r. destruct sw, s; reflexivity.
  - cbn [for_each]. rewrite exec_bind, IH. cbn [map foldl].
    destruct sw, s; cbn; rewrite <- app_assoc; reflexivity.
Qed.

Lemma insert_all_four {A} (x : A) (v : list A) :
  length v = 4%nat ->
  foldl (fun v i => <[Z.to_nat i := x]> v) v (seqZ 0 4) = replicate 4 x.
Proof.
  intros Hv. destruct v as [|a [|b [|c [|d [|e v]]]]]; try discriminate. reflexivity.
Qed.

(** X13: [all_switches_on] sends every registered switch to the maximum
    angle and [all_switches_off] to the minimum angle, one write per
    switch in the order of the indices, whatever the angles before;
    [all_barriers_on] and [all_barriers_off] do the same for the
    barriers.  None of them touches the servos of the other kind. *)
Theorem all_servos_driven wild s :
  well_formed s ->
  (servo_switch (exec (all_switches_on wild) s) = replicate 4 (Some SERVO_SWITCH_MAX_ANGLE) /\
   servo_barrier (exec (all_switches_on wild) s) = servo_barrier s /\
   emitted (all_switches_on wild) s =
     map (fun i => ServoSwitchWrite i SERVO_SWITCH_MAX_ANGLE) (seqZ 0 NUM_SERVO_SWITCHES)) /\
  (servo_switch (exec (all_switches_off wild) s) = replicate 4 (Some SERVO_SWITCH_MIN_ANGLE) /\
   servo_barrier (exec (all_switches_off wild) s) = servo_barrier s /\
   emitted (all_switches_off wild) s =
     map (fun i => ServoSwitchWrite i SERVO_SWITCH_MIN_ANGLE) (seqZ 0 NUM_SERVO_SWITCHES)) /\
  (servo_barrier (exec (all_barriers_on wild) s) = replicate 4 (Some SERVO_BARRIER_MAX_ANGLE) /\
   servo_switch (exec (all_barriers_on wild) s) = servo_switch s /\
   emitted (all_barriers_on wild) s =
     map (fun i => ServoBarrierWrite i SERVO_BARRIER_MAX_ANGLE) (seqZ 0 NUM_SERVO_BARRIERS)) /\
  (servo_barrier (exec (all_barriers_off wild) s) = replicate 4 (Some SERVO_BARRIER_MIN_ANGLE) /\
   servo_switch (exec (all_barriers_off wild) s) = servo_switch s /\
   emitted (all_barriers_off wild) s =
     map (fun i => ServoBarrierWrite i SERVO_BARRIER_MIN_ANGLE) (seqZ 0 NUM_SERVO_BARRIERS)).
Proof.
  intros (_ & _ & Hsw & Hba & _).
  pose proof (set_servo_all true SERVO_SWITCH_MAX_ANGLE (seqZ 0 NUM_SERVO_SWITCHES) s) as H1.
  pose proof (set_servo_all true SERVO_SWITCH_MIN_ANGLE (seqZ 0 NUM_SERVO_SWITCHES) s) as H2.
  pose proof (set_servo_all false SERVO_BARRIER_MAX_ANGLE (seqZ 0 NUM_SERVO_BARRIERS) s) as H3.
  pose proof (set_servo_all false SERVO_BARRIER_MIN_ANGLE (seqZ 0 NUM_SERVO_BARRIERS) s) as H4.
  cbv beta iota in H1, H2, H3, H4.
  repeat split.
  all: first [ apply emitted_app | idtac ].
  all: try (unfold all_switches_on; change (fun i => switch_on wild i)
              with (fun i => set_servo true i SERVO_SWITCH_MAX_ANGLE); rewrite H1).
  all: try (unfold all_switches_off; change (fun i => switch_off wild i)
              with (fun i => set_servo true i SERVO_SWITCH_MIN_ANGLE); rewrite H2).
  all: try (unfold all_barriers_on; change (fun i => barrier_on wild i)
              with (fun i => set_servo false i SERVO_BARRIER_MAX_ANGLE); rewrite H3).
  all: try (unfold all_barriers_off; change (fun i => barrier_off wild i)
              with (fun i => set_servo false i SERVO_BARRIER_MIN_ANGLE); rewrite H4).
  all: cbn [servo_switch servo_barrier trace set_trace set_servo_switch set_servo_barrier];
    try reflexivity.
  all: apply insert_all_four; assumption.
Qed.

Lemma all_servos_driven_witness :
  servo_switch (exec (all_switches_on 0) (ready 0)) =
    replicate 4 (Some SERVO_SWITCH_MAX_ANGLE).
Proof.
  refine (proj1 (proj1 (all_servos_driven 0 (ready 0) _))).
  vm_compute. repeat split.
Defined.

(** ** What [setup] establishes *)

Lemma seqZ_0_NUM_SIGNALS : seqZ 0 NUM_SIGNALS = [0; 1].
Proof. reflexivity. Qed.

Lemma init_signals_pins wild s :
  pins (exec (init_signals wild) s) =
  <[A3 := HIGH]> (<[A2 := LOW]> (<[A3 := HIGH]> (<[A2 := LOW]>
    (<[A1 := HIGH]> (<[A0 := LOW]> (<[A1 := HIGH]> (<[A0 := LOW]> (pins s)))))))).
Proof.
  unfold init_signals. rewrite seqZ_0_NUM_SIGNALS, seqZ_0_2. cbn [for_each].
  change (0 =? 0) with true. change (1 =? 0) with false. cbv iota.
  unfold exec. rewrite !bind_run, !set_signal_run.
  cbn [fst snd ret pins set_trace set_pins]. reflexivity.
Qed.

Lemma init_signals_frame wild s :
  let s' := exec (init_signals wild) s in
  queue s' = queue s /\ position_sensor s' = position_sensor s /\
  servo_switch s' = servo_switch s /\ servo_barrier s' = servo_barrier s /\
  status_led_is_on s' = status_led_is_on s.
Proof.
  unfold init_signals. rewrite seqZ_0_NUM_SIGNALS, seqZ_0_2. cbn [for_each].
  change (0 =? 0) with true. change (1 =? 0) with false. cbv iota.
  unfold exec. rewrite !bind_run, !set_signal_run.
  cbn [fst snd ret queue position_sensor servo_switch servo_barrier status_led_is_on
       set_trace set_pins].
  repeat split.
Qed.

Lemma status_led_on_fields s :
  let s' := exec status_led_on s in
  servo_switch s' = servo_switch s /\ servo_barrier s' = servo_barrier s /\
  pins s' = <[STATUS_LED_PIN := HIGH]> (pins s) /\ status_led_is_on s' = true /\
  queue s' = queue s /\ position_sensor s' = position_sensor s.
Proof. repeat split. Qed.

Lemma status_led_off_fields s :
  let s' := exec status_led_off s in
  servo_switch s' = servo_switch s /\ servo_barrier s' = servo_barrier s /\
  pins s' = <[STATUS_LED_PIN := LOW]> (pins s) /\ status_led_is_on s' = false /\
  queue s' = queue s /\ position_sensor s' = position_sensor s.
Proof. repeat split. Qed.

Lemma init_servo_switches_fields wild s :
  let s' := exec (init_servo_switches wild) s in
  servo_switch s' =
    foldl (fun v i => <[Z.to_nat i := Some SERVO_SWITCH_MIN_ANGLE]> v)
          (servo_switch s) (seqZ 0 NUM_SERVO_SWITCHES) /\
  servo_barrier s' = servo_barrier s /\ pins s' = pins s /\
  status_led_is_on s' = status_led_is_on s /\
  queue s' = queue s /\ position_sensor s' = position_sensor s.
Proof.
  cbv zeta.
  change (init_servo_switches wild)
    with (for_each (seqZ 0 NUM_SERVO_SWITCHES)
            (fun i => set_servo true i SERVO_SWITCH_MIN_ANGLE)).
  rewrite set_servo_all. repeat split.
Qed.

Lemma init_servo_barriers_fields wild s :
  let s' := exec (init_servo_barriers wild) s in
  servo_barrier s' =
    foldl (fun v i => <[Z.to_nat i := Some SERVO_BARRIER_MIN_ANGLE]> v)
          (servo_barrier s) (seqZ 0 NUM_SERVO_BARRIERS) /\
  servo_switch s' = servo_switch s /\ pins s' = pins s /\
  status_led_is_on s' = status_led_is_on s /\
  queue s' = queue s /\ position_sensor s' = position_sensor s.
Proof.
  cbv zeta.
  change (init_servo_barriers wild)
    with (for_each (seqZ 0 NUM_SERVO_BARRIERS)
            (fun i => set_servo false i SERVO_BARRIER_MIN_ANGLE)).
  rewrite set_servo_all. repeat split.
Qed.

(** X14: [setup] brings every actuator to its rest position, whatever was
    there before: every switch and every barrier is sent to its minimum
    angle, every signal has lamp 0 lit and lamp 1 dark, and the status
    LED, lit while [setup] runs, is off at its end; the queue and the
    sensor values are not touched. *)
Theorem setup_rest_position wild s :
  well_formed s ->
  let s' := exec (setup wild) s in
  servo_switch s' = replicate 4 (Some SERVO_SWITCH_MIN_ANGLE) /\
  servo_barrier s' = replicate 4 (Some SERVO_BARRIER_MIN_ANGLE) /\
  (forall sg, 0 <= sg < NUM_SIGNALS -> lit s' sg 0 = true /\ lit s' sg 1 = false) /\
  status_led_is_on s' = false /\ pins s' !! STATUS_LED_PIN = Some LOW /\
  queue s' = queue s /\ position_sensor s' = position_sensor s.
Proof.
  intros (_ & _ & Hsw & Hba & _) s'. subst s'.
  unfold lit, setup. rewrite !exec_bind.
  match goal with
  | |- context [exec status_led_off ?s4] =>
      destruct (status_led_off_fields s4) as (E1 & E2 & E3 & E4 & E5 & E6);
      cbv zeta in E1, E2, E3, E4, E5, E6;
      rewrite E1, E2, !E3, E4, E5, E6; clear E1 E2 E3 E4 E5 E6
  end.
  match goal with
  | |- context [exec (init_signals wild) ?s3] =>
      destruct (init_signals_frame wild s3) as (E1 & E2 & E3 & E4 & _);
      cbv zeta in E1, E2, E3, E4;
      rewrite E1, E2, E3, E4, !(init_signals_pins wild s3); clear E1 E2 E3 E4
  end.
  match goal with
  | |- context [exec (init_servo_barriers wild) ?s2] =>
      destruct (init_servo_barriers_fields wild s2) as (E1 & E2 & E3 & E4 & E5 & E6);
      cbv zeta in E1, E2, E3, E4, E5, E6;
      rewrite E1, E2, !E3, E5, E6; clear E1 E2 E3 E4 E5 E6
  end.
  match goal with
  | |- context [exec (init_servo_switches wild) ?s1] =>
      destruct (init_servo_switches_fields wild s1) as (E1 & E2 & E3 & E4 & E5 & E6);
      cbv zeta in E1, E2, E3, E4, E5, E6;
      rewrite E1, E2, !E3, E5, E6; clear E1 E2 E3 E4 E5 E6
  end.
  destruct (status_led_on_fields s) as (E1 & E2 & E3 & E4 & E5 & E6).
  cbv zeta in E1, E2, E3, E4, E5, E6.
  rewrite E1, E2, !E3, E5, E6. clear E1 E2 E3 E4 E5 E6.
  split; [apply insert_all_four, Hsw|]. split; [apply insert_all_four, Hba|].
  split; [|split; [reflexivity|split; [apply lookup_insert_eq | split; reflexivity]]].
  intros sg Hsg.
  assert (Hc : sg = 0 \/ sg = 1) by (unfold NUM_SIGNALS in *; lia).
  clear Hsg. destruct Hc as [-> | ->];
    change (lamp_pin 0 0) with 18; change (lamp_pin 0 1) with 19;
    change (lamp_pin 1 0) with 20; change (lamp_pin 1 1) with 21;
    unfold STATUS_LED_PIN, A0, A1, A2, A3, LOW, HIGH;
    rewrite ?lookup_insert_eq, ?(lookup_insert_ne (M:=gmap Z)) by lia;
    rewrite ?lookup_insert_eq, ?(lookup_insert_ne (M:=gmap Z)) by lia;
    rewrite ?lookup_insert_eq, ?(lookup_insert_ne (M:=gmap Z)) by lia;
    split; reflexivity.
Qed.

Lemma setup_rest_position_witness :
  servo_switch (exec (setup 0) (exec (all_switches_on 0) (ready 0))) =
    replicate 4 (Some SERVO_SWITCH_MIN_ANGLE).
Proof.
  refine (proj1 (setup_rest_position 0 (exec (all_switches_on 0) (ready 0)) _)).
  vm_compute. repeat split.
Defined.

(** ** The two lamps of a signal *)

(** X15: for the lamps 0 and 1, lighting one lamp of a signal and putting
    out the other are the same call: [set_signal(s, l, v)] and
    [set_signal(s, 1 - l, !v)] write the same levels to the same pins in
    the same order. *)
Theorem set_signal_symmetry wild sg l v s :
  0 <= l <= 1 ->
  set_signal wild sg l v s = set_signal wild sg (1 - l) (negb v) s.
Proof.
  intros Hl. rewrite !set_signal_run.
  assert (Hc : l = 0 \/ l = 1) by lia. clear Hl.
  destruct Hc as [-> | ->]; destruct v; reflexivity.
Qed.

Lemma set_signal_symmetry_witness :
  set_signal 0 1 0 true (ready 0) = set_signal 0 1 1 false (ready 0).
Proof.
  apply (set_signal_symmetry 0 1 0 true (ready 0)). lia.
Defined.

(** ** MQTT messages and HTTP requests *)

Lemma join_snoc ts p : ts <> [] -> join (ts ++ [p]) = join ts ++ 47 :: p.
Proof.
  induction ts as [|t ts IH]; intros Hne; [congruence|].
  destruct ts as [|t' ts]; [reflexivity|].
  change (join ((t :: t' :: ts) ++ [p])) with (t ++ 47 :: join ((t' :: ts) ++ [p])).
  rewrite IH by discriminate. cbn [join]. rewrite <- app_assoc. reflexivity.
Qed.

Lemma is_token_nonzero t : is_token t -> Forall (fun c => c <> 0) t.
Proof.
  intros Ht. eapply Forall_impl; [exact Ht|]. intros c Hc. unfold token_char in Hc.
  apply andb_true_iff in Hc as [Hc _]. apply negb_true_iff, Z.eqb_neq in Hc. exact Hc.
Qed.

Lemma join_nonzero ts : Forall is_token ts -> Forall (fun c => c <> 0) (join ts).
Proof.
  induction 1 as [|t ts Ht _ IH]; [constructor|].
  destruct ts as [|t' ts]; cbn [join]; [apply is_token_nonzero, Ht|].
  apply Forall_app. split; [apply is_token_nonzero, Ht|].
  constructor; [discriminate | exact IH].
Qed.

Lemma filter_nonzero t :
  Forall (fun c => c <> 0) t -> filter (fun c => c <> 0) t = t.
Proof.
  induction 1 as [|c t Hc _ IH]; [reflexivity|].
  rewrite filter_cons_True by exact Hc. f_equal. exact IH.
Qed.

(** X16: an MQTT message is handled as the request made of its topic, a
    ['/'] and its payload: a message on the topic [t1/.../tn] with the
    payload [p] has the effect of the request [t1/.../tn/p]. *)
Theorem mqtt_message_as_request `{LegoPowerFunctions} wild ts p s :
  ts <> [] -> Forall is_token ts -> is_token p ->
  mqtt_callback_request (join ts) p = join (ts ++ [p]) /\
  exec (mqtt_callback wild (join ts) p) s =
    exec (process_request_by_char wild (join (ts ++ [p]))) s.
Proof.
  intros Hne Hts Hp.
  assert (Hreq : mqtt_callback_request (join ts) p = join (ts ++ [p])).
  { unfold mqtt_callback_request.
    rewrite c_str_nonzero by (apply join_nonzero, Hts).
    rewrite filter_nonzero by (apply is_token_nonzero, Hp).
    rewrite join_snoc by exact Hne. reflexivity. }
  split; [exact Hreq|].
  unfold mqtt_callback. rewrite exec_then_ret, Hreq. reflexivity.
Qed.

Lemma mqtt_message_as_request_witness :
  servo_switch (exec (@mqtt_callback lpf_protocol 0 (chars "lego/train/switch/2") (chars "1"))
                     (ready 0))
  = servo_switch (exec (@process_request_by_char lpf_protocol 0
                          (chars "lego/train/switch/2/1")) (ready 0)).
Proof.
  refine (f_equal servo_switch
            (proj2 (@mqtt_message_as_request lpf_protocol 0
                      [chars "lego"; chars "train"; chars "switch"; chars "2"]
                      (chars "1") (ready 0) _ _ _))).
  - discriminate.
  - repeat constructor.
  - repeat constructor.
Defined.

(** ** Reading the request of a client *)

Lemma client_loop_spec incoming : forall buf i,
  0 <= i <= MAX_BUFFER_SIZE -> length buf = Z.to_nat MAX_BUFFER_SIZE ->
  let kept := take (Z.to_nat (MAX_BUFFER_SIZE - i))
                   (filter (fun c => c <> 13 /\ c <> 10) incoming) in
  client_loop incoming buf i =
  (take (Z.to_nat i) buf ++ kept ++ drop (Z.to_nat i + length kept) buf,
   i + Z.of_nat (length kept)).
Proof.
  induction incoming as [|c rest IH]; intros buf i Hi Hlen kept; subst kept.
  - cbn [client_loop]. rewrite filter_nil, take_nil. cbn [length app].
    rewrite Nat.add_0_r, take_drop. f_equal. lia.
  - cbn [client_loop].
    destruct (i <? MAX_BUFFER_SIZE) eqn:Ei.
    + apply Z.ltb_lt in Ei.
      destruct (negb (c =? 13) && negb (c =? 10)) eqn:Ec.
      * apply andb_true_iff in Ec as [E1 E2].
        apply negb_true_iff, Z.eqb_neq in E1, E2.
        rewrite filter_cons_True by (split; assumption).
        assert (Hu : uchar (i + 1) = i + 1) by (apply uchar_small; blia).
        rewrite Hu, IH by (rewrite ?length_insert; blia).
        replace (Z.to_nat (MAX_BUFFER_SIZE - i)) with (S (Z.to_nat (MAX_BUFFER_SIZE - (i + 1))))
          by blia.
        cbn [take length].
        replace (Z.to_nat (i + 1)) with (S (Z.to_nat i)) by lia.
        rewrite (take_S_r _ _ c) by (apply list_lookup_insert_eq; blia).
        rewrite take_insert_ge by lia.
        rewrite drop_insert_lt by lia.
        rewrite <- app_assoc. cbn [app]. f_equal; [|lia].
        rewrite Nat.add_succ_comm. reflexivity.
      * rewrite filter_cons_False.
        -- apply IH; assumption.
        -- intros [H1 H2]. apply Z.eqb_neq in H1, H2. rewrite H1, H2 in Ec. discriminate.
    + apply Z.ltb_ge in Ei. replace (Z.to_nat (MAX_BUFFER_SIZE - i)) with 0%nat by lia.
      rewrite take_0. cbn [length app]. rewrite Nat.add_0_r, take_drop. f_equal. lia.
Qed.

(** X17: what [get_char_from_client] leaves in the buffer of its caller:
    the characters the client sent, without CR and LF, the first 255 of
    them at most, from cell 0 on; the terminator follows them inside the
    buffer when fewer than 255 were kept, and is stored one cell past the
    end of the buffer when 255 were. *)
Theorem get_char_from_client_fills incoming buf :
  length buf = Z.to_nat MAX_BUFFER_SIZE ->
  let kept := get_char_from_client incoming in
  let buf' := fst (get_char_from_client_cells incoming buf) in
  let stray := snd (get_char_from_client_cells incoming buf) in
  length buf' = Z.to_nat MAX_BUFFER_SIZE /\
  take (length kept) buf' = kept /\
  (length kept <= Z.to_nat MAX_BUFFER_SIZE)%nat /\
  (if stray then length kept = Z.to_nat MAX_BUFFER_SIZE
   else buf' !! length kept = Some 0) /\
  stray = bool_decide (length kept = Z.to_nat MAX_BUFFER_SIZE).
Proof.
  intros Hlen kept buf' stray. subst buf' stray.
  unfold get_char_from_client_cells.
  rewrite (client_loop_spec incoming buf 0) by blia.
  rewrite Z.sub_0_r. change (Z.to_nat 0) with 0%nat. rewrite take_0. cbn [app].
  fold (get_char_from_client incoming). fold kept. rewrite !Z.add_0_l, Nat.add_0_l.
  assert (Hk : (length kept <= Z.to_nat MAX_BUFFER_SIZE)%nat)
    by (subst kept; unfold get_char_from_client; rewrite length_take; lia).
  assert (Hl : length (kept ++ drop (length kept) buf) = Z.to_nat MAX_BUFFER_SIZE)
    by (rewrite length_app, length_drop; lia).
  rewrite Hl. rewrite (proj2 (Z.leb_le 0 _)) by lia. cbn [andb].
  destruct (Z.of_nat (length kept) <? Z.of_nat (Z.to_nat MAX_BUFFER_SIZE)) eqn:E;
    cbn [fst snd].
  - apply Z.ltb_lt in E. rewrite length_insert, Nat2Z.id.
    split; [exact Hl|]. split.
    + rewrite take_insert_ge by lia. apply take_app_length.
    + split; [exact Hk|]. split.
      * apply list_lookup_insert_eq. lia.
      * rewrite bool_decide_eq_false_2 by lia. reflexivity.
  - apply Z.ltb_ge in E.
    split; [exact Hl|]. split; [apply take_app_length|]. split; [exact Hk|].
    split; [lia|]. rewrite bool_decide_eq_true_2 by lia. reflexivity.
Qed.

Lemma get_char_from_client_fills_witness :
  let buf := replicate 255 7 in
  take 4 (fst (get_char_from_client_cells (chars "lego" ++ [13; 10]) buf)) = chars "lego" /\
  fst (get_char_from_client_cells (chars "lego" ++ [13; 10]) buf) !! 4%nat = Some 0 /\
  snd (get_char_from_client_cells (replicate 300 97) buf) = true.
Proof.
  intros buf.
  pose proof (get_char_from_client_fills (chars "lego" ++ [13; 10]) buf eq_refl)
    as (_ & H1 & _ & H2 & H3).
  pose proof (get_char_from_client_fills (replicate 300 97) buf eq_refl)
    as (_ & _ & _ & _ & H4).
  cbv zeta in H1, H2, H3, H4.
  split; [exact H1|]. split.
  - rewrite H3 in H2. exact H2.
  - rewrite H4. vm_compute. reflexivity.
Defined.

(** ** String building in the scratch buffers *)

Lemma c_str_take b : take (length (c_str b)) b = c_str b.
Proof.
  induction b as [|c b IH]; [reflexivity|]. cbn [c_str].
  destruct (c =? 0); cbn; [reflexivity | f_equal; exact IH].
Qed.

Lemma c_str_length b : (length (c_str b) <= length b)%nat.
Proof.
  induction b as [|c b IH]; cbn; [lia|]. destruct (c =? 0); cbn; lia.
Qed.

Lemma c_str_nul_free b : Forall (fun c => c <> 0) (c_str b).
Proof.
  induction b as [|c b IH]; cbn; [constructor|].
  destruct (c =? 0) eqn:E; [constructor|].
  constructor; [apply Z.eqb_neq, E | exact IH].
Qed.

Section StoreChars.

Context (id : array_id) (read : state -> list Z) (write : list Z -> state -> state).
Hypothesis read_write : forall b s, read (write b s) = b.
Hypothesis write_write : forall b b' s, write b (write b' s) = write b s.

Lemma store_in_range i v s :
  0 <= i < Z.of_nat (length (read s)) ->
  store id read write i v s = (tt, write (<[Z.to_nat i := v]> (read s)) s).
Proof.
  intros Hi. unfold store. rewrite bind_run. cbn [get fst snd].
  replace ((0 <=? i) && (i <? Z.of_nat (length (read s)))) with true; [reflexivity|].
  symmetry. rewrite andb_true_iff, Z.leb_le, Z.ltb_lt. exact Hi.
Qed.

Lemma store_chars_run cs : forall pos s,
  0 <= pos -> pos + Z.of_nat (length cs) < Z.of_nat (length (read s)) ->
  store_chars (store id read write) pos cs s =
  (tt, write (take (Z.to_nat pos) (read s) ++ cs ++
              0 :: drop (S (Z.to_nat pos + length cs)) (read s)) s).
Proof.
  induction cs as [|c cs IH]; intros pos s Hpos Hlen; cbn [store_chars length] in *.
  - rewrite store_in_range by lia. rewrite Nat.add_0_r.
    rewrite insert_take_drop by lia. reflexivity.
  - rewrite bind_run, store_in_range by lia. cbn [fst snd].
    rewrite IH by (rewrite ?read_write, ?length_insert; lia).
    rewrite read_write, write_write. do 2 f_equal.
    replace (Z.to_nat (pos + 1)) with (S (Z.to_nat pos)) by lia.
    rewrite (take_S_r _ _ c) by (apply list_lookup_insert_eq; lia).
    rewrite take_insert_ge by lia. rewrite drop_insert_lt by lia.
    rewrite <- app_assoc. cbn [app]. rewrite Nat.add_succ_comm. reflexivity.
Qed.

End StoreChars.

Lemma c_str_built pre cs rest :
  Forall (fun c => c <> 0) pre -> Forall (fun c => c <> 0) cs ->
  c_str (pre ++ cs ++ 0 :: rest) = pre ++ cs.
Proof.
  intros Hpre Hcs. rewrite app_assoc. apply c_str_app_nul.
  apply Forall_app. split; assumption.
Qed.

Lemma building_start s :
  length (buffer1 s) = Z.to_nat MAX_BUFFER_SIZE ->
  length (buffer2 s) = Z.to_nat MAX_BUFFER_SIZE ->
  building s (c_str (buffer1 s)) (c_str (buffer2 s)) s.
Proof.
  intros H1 H2. split; [|repeat split; assumption].
  exists (buffer1 s), (buffer2 s). destruct s; reflexivity.
Qed.

Lemma strcat_buffer1_run src s0 t u s :
  building s0 t u s ->
  Z.of_nat (length t) + Z.of_nat (length (c_str src)) < MAX_BUFFER_SIZE ->
  exists s', strcat_buffer1 src s = (tt, s') /\ building s0 (t ++ c_str src) u s'.
Proof.
  intros ((b1 & b2 & Hs) & Hl1 & Hl2 & Ht & Hu) Hlen.
  unfold strcat_buffer1. rewrite bind_run. cbn [get fst snd]. rewrite Ht.
  unfold store_buffer1.
  rewrite (store_chars_run Abuffer1 buffer1 set_buffer1)
    by (reflexivity || (try (intros; reflexivity)) || blia).
  eexists. split; [reflexivity|].
  assert (Hlen' : length (take (Z.to_nat (Z.of_nat (length t))) (buffer1 s) ++ c_str src ++
                    0 :: drop (S (Z.to_nat (Z.of_nat (length t)) + length (c_str src)))
                           (buffer1 s)) = Z.to_nat MAX_BUFFER_SIZE).
  { rewrite !length_app, length_take. cbn [length]. rewrite length_drop. blia. }
  split; [|split; [exact Hlen' | split; [exact Hl2 | split; [|exact Hu]]]].
  - subst s. eexists _, b2. destruct s0; reflexivity.
  - cbn [buffer1 set_buffer1]. rewrite Nat2Z.id. rewrite <- Ht at 1. rewrite c_str_take, Ht.
    apply c_str_built; [rewrite <- Ht|]; apply c_str_nul_free.
Qed.

Lemma strcpy_buffer1_run src s0 t u s :
  building s0 t u s ->
  Z.of_nat (length (c_str src)) < MAX_BUFFER_SIZE ->
  exists s', strcpy_buffer1 src s = (tt, s') /\ building s0 (c_str src) u s'.
Proof.
  intros ((b1 & b2 & Hs) & Hl1 & Hl2 & Ht & Hu) Hlen.
  unfold strcpy_buffer1, store_buffer1.
  rewrite (store_chars_run Abuffer1 buffer1 set_buffer1)
    by (reflexivity || (try (intros; reflexivity)) || blia).
  eexists. split; [reflexivity|].
  change (Z.to_nat 0) with 0%nat. rewrite take_0. cbn [app].
  split; [|split; [|split; [exact Hl2 | split; [|exact Hu]]]].
  - subst s. eexists _, b2. destruct s0; reflexivity.
  - cbn [buffer1 set_buffer1]. rewrite length_app. cbn [length]. rewrite length_drop. blia.
  - cbn [buffer1 set_buffer1]. apply c_str_app_nul, c_str_nul_free.
Qed.

Lemma decimal_digits fuel : forall n acc,
  0 <= n -> Forall (fun c => 48 <= c <= 57) acc ->
  Forall (fun c => 48 <= c <= 57) (decimal fuel n acc) /\
  (length (decimal fuel n acc) <= fuel + length acc)%nat.
Proof.
  induction fuel as [|fuel IH]; intros n acc Hn Hacc; cbn [decimal].
  - split; [exact Hacc | lia].
  - destruct (n <? 10) eqn:E.
    + apply Z.ltb_lt in E. split; [constructor; [lia | exact Hacc] | cbn; lia].
    + destruct (IH (n / 10) ((48 + n mod 10) :: acc)) as [H1 H2].
      * apply Z.div_pos; lia.
      * constructor; [|exact Hacc]. pose proof (Z.mod_pos_bound n 10). lia.
      * split; [exact H1|]. cbn [length] in H2. lia.
Qed.

Lemma itoa_chars n :
  Forall (fun c => c <> 0) (itoa n) /\ (length (itoa n) <= 6)%nat.
Proof.
  unfold itoa. destruct (n <? 0) eqn:E.
  - apply Z.ltb_lt in E.
    destruct (decimal_digits 5 (- n) [] ltac:(lia) ltac:(constructor)) as [H1 H2].
    split; [|cbn [length] in *; lia].
    constructor; [discriminate|]. eapply Forall_impl; [exact H1|]. cbn. intros; lia.
  - apply Z.ltb_ge in E.
    destruct (decimal_digits 5 n [] E ltac:(constructor)) as [H1 H2].
    split; [|cbn [length] in *; lia].
    eapply Forall_impl; [exact H1|]. cbn. intros; lia.
Qed.

Lemma itoa_buffer2_run n s0 t u s :
  building s0 t u s ->
  exists s', itoa_buffer2 n s = (tt, s') /\ building s0 t (itoa n) s'.
Proof.
  intros ((b1 & b2 & Hs) & Hl1 & Hl2 & Ht & Hu).
  destruct (itoa_chars n) as [Hnz Hlen].
  unfold itoa_buffer2, store_buffer2.
  rewrite (store_chars_run Abuffer2 buffer2 set_buffer2)
    by (reflexivity || (try (intros; reflexivity)) || blia).
  eexists. split; [reflexivity|].
  change (Z.to_nat 0) with 0%nat. rewrite take_0. cbn [app].
  split; [|split; [|split; [|split]]].
  - subst s. eexists b1, _. destruct s0; reflexivity.
  - exact Hl1.
  - cbn [buffer2 set_buffer2]. rewrite length_app. cbn [length]. rewrite length_drop. blia.
  - exact Ht.
  - cbn [buffer2 set_buffer2]. apply c_str_app_nul, Hnz.
Qed.

Lemma strcat_buffer2_run s0 t u s :
  building s0 t u s ->
  Z.of_nat (length t) + Z.of_nat (length u) < MAX_BUFFER_SIZE ->
  exists s', (let! s := get in strcat_buffer1 (buffer2 s)) s = (tt, s') /\
             building s0 (t ++ u) u s'.
Proof.
  intros Hb Hlen. rewrite bind_run. cbn [get fst snd].
  pose proof Hb as (_ & _ & _ & _ & Hu).
  destruct (strcat_buffer1_run (buffer2 s) s0 t u s Hb ltac:(rewrite Hu; exact Hlen))
    as (s' & Hrun & Hb').
  exists s'. rewrite Hu in Hb'. split; assumption.
Qed.

(** ** Publishing the sensor changes *)

Ltac build_with lem :=
  let s' := fresh "s" in
  let E := fresh "E" in
  let Hb' := fresh "Hb" in
  destruct lem as (s' & E & Hb');
  [try (vm_compute; reflexivity) .. | rewrite E; cbn [fst snd]; clear E].

Ltac build_step :=
  rewrite bind_run;
  lazymatch goal with
  | Hb : building _ _ _ ?s |- context [snd (strcpy_buffer1 ?src ?s)] =>
      build_with (strcpy_buffer1_run src _ _ _ s Hb); clear Hb
  | Hb : building _ _ _ ?s |- context [snd (strcat_buffer1 ?src ?s)] =>
      build_with (strcat_buffer1_run src _ _ _ s Hb); clear Hb
  | Hb : building _ _ _ ?s |- context [snd (itoa_buffer2 ?n ?s)] =>
      build_with (itoa_buffer2_run n _ _ _ s Hb); clear Hb
  | Hb : building _ _ _ ?s |- context [snd (bind get _ ?s)] =>
      build_with (strcat_buffer2_run _ _ _ s Hb); clear Hb
  end.

Lemma publish_message_run wild i v s0 t0 u0 s (Q : unit * state -> Prop) :
  0 <= i < NUM_POSITION_SENSORS ->
  building s0 t0 u0 s ->
  (forall s', building s0 (position_topic i) (itoa v) s' ->
     Q (tt, set_trace (trace s' ++ [MqttPublish (position_topic i) (itoa v)]) s')) ->
  Q ((do strcpy_buffer1 LEGO;;
      do strcat_buffer1 SLASH;;
      do strcat_buffer1 TRAIN;;
      do strcat_buffer1 SLASH;;
      do strcat_buffer1 POSITION;;
      do strcat_buffer1 SLASH;;
      do itoa_buffer2 (load POSITION_SENSOR_IDS i wild);;
      do (let! s := get in strcat_buffer1 (buffer2 s));;
      do itoa_buffer2 v;;
      let! s := get in
      emit (MqttPublish (c_str (buffer1 s)) (c_str (buffer2 s)))) s).
Proof.
  intros Hi Hb HQ.
  assert (Hc : i = 0 \/ i = 1) by (unfold NUM_POSITION_SENSORS in *; lia).
  clear Hi.
  build_step.
  build_step.
  build_step.
  build_step.
  build_step.
  build_step.
  build_step.
  build_step; [destruct Hc as [-> | ->]; vm_compute; reflexivity|].
  build_step.
  rewrite bind_run. cbn [get fst snd].
  match goal with Hb : building _ _ _ _ |- _ =>
    pose proof Hb as (_ & _ & _ & Ht & Hu) end.
  rewrite Ht, Hu.
  assert (Htopic : (((((c_str LEGO ++ c_str SLASH) ++ c_str TRAIN) ++ c_str SLASH) ++
                     c_str POSITION) ++ c_str SLASH) ++ itoa (load POSITION_SENSOR_IDS i wild)
                   = position_topic i)
    by (destruct Hc as [-> | ->]; reflexivity).
  rewrite Htopic in *. apply HQ. assumption.
Qed.

Lemma mqtt_publish_position_sensor_run wild i v s :
  0 <= i < NUM_POSITION_SENSORS ->
  length (buffer1 s) = Z.to_nat MAX_BUFFER_SIZE ->
  length (buffer2 s) = Z.to_nat MAX_BUFFER_SIZE ->
  exists b1 b2,
    length b1 = Z.to_nat MAX_BUFFER_SIZE /\ length b2 = Z.to_nat MAX_BUFFER_SIZE /\
    mqtt_publish_position_sensor wild true i v s =
    (tt, set_trace (trace s ++ report i v) (set_buffer2 b2 (set_buffer1 b1 s))).
Proof.
  intros Hi Hl1 Hl2.
  unfold mqtt_publish_position_sensor. rewrite bind_run. cbn [emit modify fst snd].
  match goal with
  | |- context [set_trace ?t s] =>
      apply (publish_message_run wild i v _ _ _ (set_trace t s)
               (fun r => exists b1 b2, length b1 = Z.to_nat MAX_BUFFER_SIZE /\
                           length b2 = Z.to_nat MAX_BUFFER_SIZE /\
                           r = (tt, set_trace (trace s ++ report i v)
                                      (set_buffer2 b2 (set_buffer1 b1 s)))) Hi
               (building_start (set_trace t s) Hl1 Hl2))
  end.
  intros s' ((b1 & b2 & Hs) & Hl1' & Hl2' & _).
  subst s'. exists b1, b2.
  cbn [buffer1 buffer2 set_buffer1 set_buffer2] in Hl1', Hl2'.
  split; [exact Hl1'|]. split; [exact Hl2'|].
  destruct s; cbn. unfold report. rewrite <- app_assoc. reflexivity.
Qed.

Lemma poll_body_connected wild i v cur s :
  0 <= i < NUM_POSITION_SENSORS ->
  length (buffer1 s) = Z.to_nat MAX_BUFFER_SIZE ->
  length (buffer2 s) = Z.to_nat MAX_BUFFER_SIZE ->
  load (position_sensor s) i wild = cur ->
  let body :=
    (let! s := get in
     if negb (v =? load (position_sensor s) i wild) then
       do modify (fun s =>
            set_position_sensor (<[Z.to_nat i := v]> (position_sensor s)) s);;
       mqtt_publish_position_sensor wild true i v
     else ret tt) in
  position_sensor (exec body s) =
    (if v =? cur then position_sensor s
     else <[Z.to_nat i := v]> (position_sensor s)) /\
  trace (exec body s) = trace s ++ (if v =? cur then [] else report i v) /\
  length (buffer1 (exec body s)) = Z.to_nat MAX_BUFFER_SIZE /\
  length (buffer2 (exec body s)) = Z.to_nat MAX_BUFFER_SIZE.
Proof.
  intros Hi Hl1 Hl2 Hcur body. subst body. unfold exec. rewrite bind_run.
  cbn [get fst snd]. rewrite Hcur.
  destruct (v =? cur); cbn [negb].
  - rewrite app_nil_r. repeat split; assumption.
  - rewrite bind_run. cbn [modify fst snd].
    match goal with
    | |- context [mqtt_publish_position_sensor wild true i v ?s0] =>
        destruct (mqtt_publish_position_sensor_run wild i v s0 Hi Hl1 Hl2)
          as (b1 & b2 & Hb1 & Hb2 & Hrun)
    end.
    rewrite Hrun. cbn. repeat split; assumption.
Qed.

(** X19: with the MQTT client connected, a poll hands the client one
    message per changed sensor and none for the others: the topic is
    [lego/train/position/<id>] with the registered id of the sensor, the
    payload is the new value in decimal; the messages follow the order of
    the sensor indices. *)
Theorem changes_published wild (digitalRead : Z -> Z) s :
  well_formed s ->
  let poll := update_position_sensors wild digitalRead true in
  let value i := inverted (digitalRead (load POSITION_SENSOR_PINS i 0)) in
  let changed i := negb (value i =? load (position_sensor s) i 0) in
  emitted poll s =
    flat_map (fun i => if changed i then report i (value i) else [])
             (seqZ 0 NUM_POSITION_SENSORS) /\
  published (emitted poll s) =
    map (fun iv => (position_topic (fst iv), itoa (snd iv)))
        (notifications (emitted poll s)) /\
  position_topic 0 = chars "lego/train/position/0" /\
  position_topic 1 = chars "lego/train/position/1".
Proof.
  intros (_ & Hps & _ & _ & Hl1 & Hl2) poll value changed.
  assert (Hem : emitted poll s =
                flat_map (fun i => if changed i then report i (value i) else [])
                         (seqZ 0 NUM_POSITION_SENSORS)).
  { destruct (position_sensor s) as [|a [|b [|c r]]] eqn:Hpos; try discriminate.
    subst poll changed value.
    unfold update_position_sensors.
    rewrite seqZ_0_NUM_POSITION_SENSORS. cbn [for_each flat_map]. cbv zeta.
    change (uchar ((uchar (digitalRead (load POSITION_SENSOR_PINS 0 wild)) + 1) `mod` 2))
      with (inverted (digitalRead 2)).
    change (uchar ((uchar (digitalRead (load POSITION_SENSOR_PINS 1 wild)) + 1) `mod` 2))
      with (inverted (digitalRead 3)).
    change (load POSITION_SENSOR_PINS 0 0) with 2.
    change (load POSITION_SENSOR_PINS 1 0) with 3.
    change (load [a; b] 0 0) with a. change (load [a; b] 1 0) with b.
    apply emitted_app. rewrite exec_bind.
    match goal with
    | |- context [exec (bind ?b1 (fun _ => ret tt)) (exec ?b0 s)] =>
        destruct (poll_body_connected wild 0 (inverted (digitalRead 2)) a s
                    ltac:(vm_compute; split; [discriminate | reflexivity]) Hl1 Hl2
                    ltac:(rewrite Hpos; reflexivity))
          as (Hp0 & Ht0 & Hl1' & Hl2');
        cbv zeta in Hp0, Ht0, Hl1', Hl2';
        generalize dependent (exec b0 s); intros s1 Hp0 Ht0 Hl1' Hl2';
        assert (Hps1 : load (position_sensor s1) 1 wild = b)
          by (rewrite Hp0, Hpos; destruct (inverted (digitalRead 2) =? a); reflexivity);
        destruct (poll_body_connected wild 1 (inverted (digitalRead 3)) b s1
                    ltac:(vm_compute; split; [discriminate | reflexivity]) Hl1' Hl2' Hps1)
          as (_ & Ht1 & _);
        cbv zeta in Ht1;
        rewrite exec_then_ret, Ht1, Ht0
    end.
    rewrite <- app_assoc.
    destruct (inverted (digitalRead 2) =? a), (inverted (digitalRead 3) =? b);
      cbn [negb app]; rewrite ?app_nil_r; reflexivity. }
  split; [exact Hem|]. split; [|split; reflexivity].
  rewrite Hem. subst changed. rewrite seqZ_0_NUM_POSITION_SENSORS. cbn [flat_map].
  destruct (negb (value 0 =? load (position_sensor s) 0 0)),
           (negb (value 1 =? load (position_sensor s) 1 0)); reflexivity.
Qed.

Lemma changes_published_witness :
  let rd := fun pin => if pin =? 2 then HIGH else LOW in
  published (emitted (update_position_sensors 0 rd true)
                     (set_position_sensor [0; 0] (ready 0)))
  = [(chars "lego/train/position/1", chars "1")].
Proof.
  intros rd.
  pose proof (proj1 (changes_published 0 rd (set_position_sensor [0; 0] (ready 0))
                       ltac:(vm_compute; repeat split))) as Hem.
  cbv zeta in Hem. rewrite Hem. vm_compute. reflexivity.
Defined.

(** ** Subscriptions *)

Lemma subscribe_buffer1_run s0 t u s :
  building s0 t u s -> subscribe_buffer1 s = (t, s).
Proof.
  intros (_ & _ & _ & Ht & _). unfold subscribe_buffer1.
  rewrite bind_run. cbn [get ret fst snd]. rewrite Ht. reflexivity.
Qed.

Lemma for_collect_run {A B} (l : list A) (body : A -> M B) (f : A -> B) s0 :
  (forall x s t u (Q : B * state -> Prop),
     x ∈ l -> building s0 t u s ->
     (forall s' t' u', building s0 t' u' s' -> Q (f x, s')) -> Q (body x s)) ->
  forall s t u (Q : list B * state -> Prop),
    building s0 t u s ->
    (forall s' t' u', building s0 t' u' s' -> Q (map f l, s')) ->
    Q (for_collect l body s).
Proof.
  intros Hbody. induction l as [|x l IH]; intros s t u Q Hb HQ.
  - cbn [for_collect map]. apply (HQ s t u Hb).
  - cbn [for_collect map]. rewrite bind_run.
    pattern (body x s). apply (Hbody x s t u); [apply list_elem_of_here | exact Hb|].
    intros s1 t1 u1 Hb1. cbn [fst snd]. rewrite bind_run.
    pattern (for_collect l body s1). apply (IH ltac:(intros; eapply Hbody; eauto using list_elem_of_further) s1 t1 u1); [exact Hb1|].
    intros s2 t2 u2 Hb2. cbn [fst snd ret]. apply (HQ s2 t2 u2 Hb2).
Qed.

Ltac subscribe_step :=
  lazymatch goal with
  | Hb : building _ _ _ ?s |- context [subscribe_buffer1 ?s] =>
      rewrite (subscribe_buffer1_run _ _ _ s Hb)
  end.

Ltac in_cases H :=
  repeat (apply elem_of_cons in H as [-> | H]); [.. | apply elem_of_nil in H; destruct H].

Lemma mqtt_subscribe_run s0 t u s (Q : list (list Z) * state -> Prop) :
  building s0 t u s ->
  (forall s' t' u', building s0 t' u' s' -> Q (command_topics, s')) ->
  Q (mqtt_subscribe s).
Proof.
  intros Hb HQ. unfold mqtt_subscribe.
  do 9 build_step.
  rewrite bind_run. subscribe_step. cbn [fst snd].
  rewrite bind_run.
  match goal with |- context [for_collect ?l ?body ?s] =>
    pattern (for_collect l body s);
    eapply (for_collect_run l body (fun i => join [LEGO; TRAIN; SWITCH; itoa i]));
      [ | eassumption | ] end.
  { intros x sx tx ux Qx Hin Hbx HQx.
    change (seqZ 0 NUM_SERVO_SWITCHES) with [0; 1; 2; 3] in Hin.
    in_cases Hin; do 8 build_step; subscribe_step; eapply HQx; eassumption. }
  intros sa ta ua Hba. cbn [fst snd].
  rewrite bind_run.
  match goal with |- context [for_collect ?l ?body ?s] =>
    pattern (for_collect l body s);
    eapply (for_collect_run l body (fun i => join [LEGO; TRAIN; BARRIER; itoa i]));
      [ | eassumption | ] end.
  { intros x sx tx ux Qx Hin Hbx HQx.
    change (seqZ 0 NUM_SERVO_BARRIERS) with [0; 1; 2; 3] in Hin.
    in_cases Hin; do 8 build_step; subscribe_step; eapply HQx; eassumption. }
  intros sb tb ub Hbb. cbn [fst snd].
  rewrite bind_run.
  match goal with |- context [for_collect ?l ?body ?s] =>
    pattern (for_collect l body s);
    eapply (for_collect_run l body
              (fun i => map (fun j => join [LEGO; TRAIN; SIGNAL; itoa i; itoa j]) (seqZ 0 2)));
      [ | eassumption | ] end.
  { intros x sx tx ux Qx Hin Hbx HQx.
    match goal with |- context [for_collect ?l ?body ?s] =>
      pattern (for_collect l body s);
      eapply (for_collect_run l body (fun j => join [LEGO; TRAIN; SIGNAL; itoa x; itoa j]));
        [ | eassumption | ] end.
    - intros y sy ty uy Qy Hiny Hby HQy.
      change (seqZ 0 NUM_SIGNALS) with [0; 1] in Hin.
      change (seqZ 0 2) with [0; 1] in Hiny.
      in_cases Hin; in_cases Hiny; do 11 build_step; subscribe_step;
        eapply HQy; eassumption.
    - intros s' t' u' Hb'. eapply HQx; eassumption. }
  intros sc tc uc Hbc. cbn [fst snd ret].
  eapply HQ; eassumption.
Qed.

Lemma mqtt_callback_request_join ts p :
  ts <> [] -> Forall is_token ts -> is_token p ->
  mqtt_callback_request (join ts) p = join (ts ++ [p]).
Proof.
  intros Hne Hts Hp. unfold mqtt_callback_request.
  rewrite c_str_nonzero by (apply join_nonzero, Hts).
  rewrite filter_nonzero by (apply is_token_nonzero, Hp).
  rewrite join_snoc by exact Hne. reflexivity.
Qed.

Lemma accepted_top_level `{LegoPowerFunctions} wild req s :
  well_formed s ->
  fst (eval (process_request_by_char wild req) s) = top_level_match req.
Proof.
  intros Hwf.
  destruct (process_request_by_char_parse wild req s (well_formed_buffer1 s Hwf))
    as (s1 & _ & Hrun).
  unfold eval. rewrite Hrun, act_answer. apply answer_top_level.
Qed.

Lemma pad_app_long n (ts more : list (list Z)) :
  (n <= length ts)%nat -> pad n (ts ++ more) = pad n ts.
Proof.
  revert ts. induction n as [|n IH]; intros ts Hn; [reflexivity|].
  destruct ts as [|t ts]; cbn [length] in Hn; [lia|].
  cbn [app pad]. f_equal. apply IH. lia.
Qed.

Lemma topic_accepted ts p :
  (4 <= length ts)%nat -> Forall is_token ts -> is_token p ->
  fits (join ts ++ 47 :: p) ->
  top_level_match (join ts) = true ->
  top_level_match (mqtt_callback_request (join ts) p) = true.
Proof.
  intros Hlen Hts Hp Hf Hm.
  assert (Hne : ts <> []) by (destruct ts; [cbn in Hlen; lia | discriminate]).
  rewrite mqtt_callback_request_join by assumption.
  rewrite <- join_snoc in Hf by exact Hne.
  assert (Hf' : fits (join ts)).
  { unfold fits in *. rewrite join_snoc, length_app in Hf by exact Hne. lia. }
  unfold top_level_match in *.
  rewrite tokens_of_join in * by (try apply Forall_app; auto).
  rewrite pad_app_long by exact Hlen. exact Hm.
Qed.

(** ** The answer to an HTTP client *)

Lemma send_json_configuration_text wild : send_json_configuration wild = topology.
Proof. vm_compute. reflexivity. Qed.

(** X21: the answer printed to an HTTP client is one of three documents,
    written here with apostrophes for the double quotes.  A request whose
    top-level tokens do not match the grammar is answered
    [{'isok':false}]; a [config] request is answered [{'isok':true,...}]
    with the topology document, which lists every registered device with
    its id and its pin or pins; every other request is answered
    [{'isok':true}], whatever its numbers.  The request is the text the
    client sent without CR and LF, and it is dispatched as any other
    request. *)
Theorem http_answer `{LegoPowerFunctions} wild incoming s :
  well_formed s ->
  let req := get_char_from_client incoming in
  let run := process_request_by_client wild incoming in
  eval run s =
    (if top_level_match req then
       if bool_decide (tokens_from 3 req 0 = [LEGO; TRAIN; CONFIG])
       then dq "{'isok':true," ++ topology ++ dq "}"
       else dq "{'isok':true}"
     else dq "{'isok':false}") /\
  exec run s = exec (process_request_by_char wild req) s.
Proof.
  intros Hwf req run. subst run. unfold process_request_by_client. fold req.
  unfold eval, exec. rewrite bind_run. cbn [ret fst snd]. split; [|reflexivity].
  pose proof (process_request_by_char_answer wild req s Hwf) as Hans.
  unfold eval in Hans. rewrite Hans, answer_top_level, answer_config.
  rewrite send_json_configuration_text.
  destruct (top_level_match req); [|reflexivity].
  destruct (bool_decide _); reflexivity.
Qed.

Lemma http_answer_witness :
  eval (@process_request_by_client lpf_protocol 0 (chars "lego/train/switch/9/9" ++ [13; 10]))
       (ready 0) = dq "{'isok':true}" /\
  eval (@process_request_by_client lpf_protocol 0 (chars "lego/plane/config" ++ [13; 10]))
       (ready 0) = dq "{'isok':false}".
Proof.
  split.
  - refine (proj1 (@http_answer lpf_protocol 0 (chars "lego/train/switch/9/9" ++ [13; 10])
                     (ready 0) _)).
    vm_compute. repeat split.
  - refine (proj1 (@http_answer lpf_protocol 0 (chars "lego/plane/config" ++ [13; 10])
                     (ready 0) _)).
    vm_compute. repeat split.
Defined.

(** ** Invariants of the servos and of the queue *)

Global Instance same_servos_preorder : PreOrder same_servos.
Proof.
  split.
  - intros s. repeat split.
  - intros s1 s2 s3 (?&?&?) (?&?&?). repeat split; congruence.
Qed.

Lemma update_position_sensors_servos wild rd c :
  rel same_servos (update_position_sensors wild rd c).
Proof. rel_auto ltac:(repeat split). Qed.

Lemma update_status_led_servos due : rel same_servos (update_status_led due).
Proof. rel_auto ltac:(repeat split). Qed.

Lemma act_servos `{LegoPowerFunctions} wild c s :
  length (queue s) = 4%nat ->
  servos_registered s -> queue_bounded s ->
  servos_registered (exec (act wild c) s) /\ queue_bounded (exec (act wild c) s).
Proof.
  intros Hq [Hsw Hba] Hqb. destruct c as [|CH CO va|sg l v|i a|i a|].
  - split; [split|]; assumption.
  - unfold exec. rewrite act_motor by exact Hq. split; [split; assumption|].
    cbn. eexists _, _, _, _. split; [reflexivity | lia].
  - unfold exec. rewrite act_SetSignal, bind_run. cbn [ret snd].
    repeat match goal with
           | |- context [if ?b then _ else _] => destruct b
           end; try (split; [split|]; assumption).
    rewrite set_signal_run. split; [split|]; assumption.
  - unfold exec. rewrite act_SetSwitch, bind_run. cbn [ret snd].
    destruct (_ && _) eqn:E; [|split; [split|]; assumption].
    rewrite !andb_true_iff, !Z.leb_le, !Z.ltb_lt in E.
    split; [split; [|exact Hba] | exact Hqb].
    cbn. apply Forall_insert; [exact Hsw|].
    rewrite switch_angle by lia. destruct (a =? 0); auto.
  - unfold exec. rewrite act_SetBarrier, bind_run. cbn [ret snd].
    destruct (_ && _) eqn:E; [|split; [split|]; assumption].
    rewrite !andb_true_iff, !Z.leb_le, !Z.ltb_lt in E.
    split; [split; [exact Hsw|] | exact Hqb].
    cbn. apply Forall_insert; [exact Hba|].
    rewrite barrier_angle by lia. destruct (a =? 0); auto.
  - split; [split|]; assumption.
Qed.

Lemma update_pf_ir_queue_bounded wild s :
  queue_bounded s ->
  queue_bounded (exec (update_pf_ir_queue wild) s) /\
  servo_switch (exec (update_pf_ir_queue wild) s) = servo_switch s /\
  servo_barrier (exec (update_pf_ir_queue wild) s) = servo_barrier s.
Proof.
  intros (n & m & st & o & Hq & Hn). unfold exec.
  destruct (Z.eq_dec n 0) as [-> | Hne].
  - rewrite (update_pf_ir_queue_empty wild m st o s Hq). cbn [snd].
    split; [|split; reflexivity]. exists 0, m, st, o. split; [exact Hq | lia].
  - rewrite (update_pf_ir_queue_loaded wild n m st o s Hq) by lia. cbn.
    split; [|split; reflexivity]. exists (n - 1), m, st, o. split; [reflexivity | lia].
Qed.

Lemma reachable_servos_queue `{LegoPowerFunctions} s :
  reachable s -> servos_registered s /\ queue_bounded s.
Proof.
  induction 1 as [wild | wild req s Hr IH | wild rd c s _ IH | wild s _ IH
                 | due s _ IH | b1 b2 s _ _ _ IH].
  - split; [split; vm_compute; repeat constructor|].
    exists 0, 0, 0, 0. split; [reflexivity | lia].
  - destruct IH as [Hs Hq].
    pose proof (reachable_well_formed s Hr) as Hwf.
    destruct (process_request_by_char_parse wild req s (well_formed_buffer1 s Hwf))
      as (s1 & Hs1 & Hrun).
    unfold exec. rewrite Hrun.
    apply scratch_fields in Hs1 as (Hq1 & _ & Hsw1 & Hba1 & _).
    apply act_servos.
    + rewrite Hq1. apply Hwf.
    + unfold servos_registered. rewrite Hsw1, Hba1. exact Hs.
    + unfold queue_bounded. rewrite Hq1. exact Hq.
  - destruct (update_position_sensors_servos wild rd c s) as (Hsw & Hba & Hq).
    unfold servos_registered, queue_bounded. rewrite Hsw, Hba, Hq. exact IH.
  - destruct IH as [Hs Hq].
    destruct (update_pf_ir_queue_bounded wild s Hq) as (Hq' & Hsw & Hba).
    split; [|exact Hq']. unfold servos_registered. rewrite Hsw, Hba. exact Hs.
  - destruct (update_status_led_servos due s) as (Hsw & Hba & Hq).
    unfold servos_registered, queue_bounded. rewrite Hsw, Hba, Hq. exact IH.
  - exact IH.
Qed.

(** X22: in every reachable state every switch and every barrier stands
    at one of its two registered angles: no request, however written, can
    send a servo anywhere else. *)
Theorem servos_stay_registered `{LegoPowerFunctions} s :
  reachable s ->
  (forall i, (i < 4)%nat ->
     servo_switch s !! i = Some (Some SERVO_SWITCH_MIN_ANGLE) \/
     servo_switch s !! i = Some (Some SERVO_SWITCH_MAX_ANGLE)) /\
  (forall i, (i < 4)%nat ->
     servo_barrier s !! i = Some (Some SERVO_BARRIER_MIN_ANGLE) \/
     servo_barrier s !! i = Some (Some SERVO_BARRIER_MAX_ANGLE)).
Proof.
  intros Hr. destruct (reachable_servos_queue s Hr) as [[Hsw Hba] _].
  pose proof (reachable_well_formed s Hr) as (_ & _ & Hlsw & Hlba & _).
  split; intros i Hi.
  - destruct (lookup_lt_is_Some_2 (servo_switch s) i) as [a Ha];
      [rewrite Hlsw; unfold NUM_SERVO_SWITCHES; lia|].
    rewrite Ha. destruct (proj1 (Forall_lookup _ _) Hsw i a Ha) as [-> | ->]; auto.
  - destruct (lookup_lt_is_Some_2 (servo_barrier s) i) as [a Ha];
      [rewrite Hlba; unfold NUM_SERVO_BARRIERS; lia|].
    rewrite Ha. destruct (proj1 (Forall_lookup _ _) Hba i a Ha) as [-> | ->]; auto.
Qed.

Lemma servos_stay_registered_witness :
  let s := exec (@process_request_by_char lpf_protocol 0 (chars "lego/train/switch/1/1"))
                (ready 0) in
  servo_switch s !! 1%nat = Some (Some SERVO_SWITCH_MIN_ANGLE) \/
  servo_switch s !! 1%nat = Some (Some SERVO_SWITCH_MAX_ANGLE).
Proof.
  intros s.
  refine (proj1 (@servos_stay_registered lpf_protocol s _) 1%nat _).
  - apply reach_request, reach_setup.
  - lia.
Defined.

(** X23: in every reachable state the repeat count of the IR queue is
    between 0 and 5: a motor command is never pending for more than five
    ticks, and motor commands do not add up. *)
Theorem queue_count_bounded `{LegoPowerFunctions} s :
  reachable s ->
  exists n m st o, queue s = [n; m; st; o] /\ 0 <= n <= 5.
Proof. intros Hr. exact (proj2 (reachable_servos_queue s Hr)). Qed.

Lemma queue_count_bounded_witness :
  let s := exec (update_pf_ir_queue 0)
             (exec (@process_request_by_char lpf_protocol 0 (chars "lego/train/motor/pf/0/0/3"))
                   (ready 0)) in
  exists n m st o, queue s = [n; m; st; o] /\ 0 <= n <= 5.
Proof.
  intros s. apply (@queue_count_bounded lpf_protocol s).
  apply reach_queue, reach_request, reach_setup.
Defined.

(** ** From a subscription to the servo *)

Lemma barrier_command_effect `{LegoPowerFunctions} wild s (id sel : list Z) :
  well_formed s ->
  is_token id -> is_token sel ->
  fits (join [LEGO; TRAIN; BARRIER; id; sel]) ->
  0 <= uchar (atoi id) < NUM_SERVO_BARRIERS -> 0 <= uchar (atoi sel) <= 1 ->
  let run := process_request_by_char wild (join [LEGO; TRAIN; BARRIER; id; sel]) in
  servo_barrier (exec run s) =
    <[Z.to_nat (uchar (atoi id)) :=
        Some (if uchar (atoi sel) =? 0 then SERVO_BARRIER_MIN_ANGLE
              else SERVO_BARRIER_MAX_ANGLE)]> (servo_barrier s).
Proof.
  intros Hwf Hid Hsel Hfit Hi Ha run.
  destruct (process_request_by_char_parse wild (join [LEGO; TRAIN; BARRIER; id; sel]) s
              (well_formed_buffer1 s Hwf)) as (s1 & Hs1 & Hrun).
  assert (Hts : Forall is_token [LEGO; TRAIN; BARRIER; id; sel])
    by (repeat constructor; assumption).
  rewrite (parse_join _ Hts Hfit) in Hrun. cbn [pad] in Hrun.
  rewrite route_barrier in Hrun.
  rewrite act_barrier_in_range in Hrun by lia.
  rewrite barrier_angle in Hrun by lia.
  apply scratch_fields in Hs1 as (_ & _ & _ & Hba1 & _).
  unfold exec. subst run. rewrite Hrun.
  cbn [fst snd servo_barrier set_trace set_servo_barrier].
  rewrite Hba1. reflexivity.
Qed.

(** X24: the topics the sketch subscribes to for its switches and
    barriers are the ones its callback understands: a message with the
    payload [0] or [1] on the topic subscribed for switch [i] sends switch
    [i], and no other, to the minimum or the maximum angle, and likewise
    for the barriers. *)
Theorem subscribed_topic_drives_servo `{LegoPowerFunctions} wild s i a :
  well_formed s ->
  0 <= i < NUM_SERVO_SWITCHES -> 0 <= a <= 1 ->
  let switch_topic := join [LEGO; TRAIN; SWITCH; itoa i] in
  let barrier_topic := join [LEGO; TRAIN; BARRIER; itoa i] in
  switch_topic ∈ command_topics /\ barrier_topic ∈ command_topics /\
  servo_switch (exec (mqtt_callback wild switch_topic (itoa a)) s) =
    <[Z.to_nat i := Some (if a =? 0 then SERVO_SWITCH_MIN_ANGLE
                          else SERVO_SWITCH_MAX_ANGLE)]> (servo_switch s) /\
  servo_barrier (exec (mqtt_callback wild barrier_topic (itoa a)) s) =
    <[Z.to_nat i := Some (if a =? 0 then SERVO_BARRIER_MIN_ANGLE
                          else SERVO_BARRIER_MAX_ANGLE)]> (servo_barrier s).
Proof.
  intros Hwf Hi Ha switch_topic barrier_topic. subst switch_topic barrier_topic.
  assert (Hc : (i = 0 \/ i = 1 \/ i = 2 \/ i = 3) /\ (a = 0 \/ a = 1))
    by (unfold NUM_SERVO_SWITCHES in *; lia).
  assert (Hid : is_token (itoa i))
    by (clear - Hc; destruct Hc as [[-> | [-> | [-> | ->]]] _]; repeat constructor).
  assert (Hsel : is_token (itoa a))
    by (clear - Hc; destruct Hc as [_ [-> | ->]]; repeat constructor).
  assert (Hui : uchar (atoi (itoa i)) = i)
    by (clear - Hc; destruct Hc as [[-> | [-> | [-> | ->]]] _]; reflexivity).
  assert (Hua : uchar (atoi (itoa a)) = a)
    by (clear - Hc; destruct Hc as [_ [-> | ->]]; reflexivity).
  assert (Hfs : fits (join [LEGO; TRAIN; SWITCH; itoa i; itoa a]))
    by (clear - Hc; destruct Hc as [[-> | [-> | [-> | ->]]] [-> | ->]]; vm_compute;
        reflexivity).
  assert (Hfb : fits (join [LEGO; TRAIN; BARRIER; itoa i; itoa a]))
    by (clear - Hc; destruct Hc as [[-> | [-> | [-> | ->]]] [-> | ->]]; vm_compute;
        reflexivity).
  split; [|split; [|split]].
  - clear - Hc. destruct Hc as [[-> | [-> | [-> | ->]]] _]; vm_compute; set_solver.
  - clear - Hc. destruct Hc as [[-> | [-> | [-> | ->]]] _]; vm_compute; set_solver.
  - unfold mqtt_callback. rewrite exec_then_ret.
    rewrite (mqtt_callback_request_join [LEGO; TRAIN; SWITCH; itoa i] (itoa a))
      by (discriminate || assumption || (repeat constructor; assumption)).
    change ([LEGO; TRAIN; SWITCH; itoa i] ++ [itoa a])
      with [LEGO; TRAIN; SWITCH; itoa i; itoa a].
    destruct (switch_command_effect wild s (itoa i) (itoa a) Hwf Hid Hsel Hfs
                ltac:(rewrite Hui; exact Hi) ltac:(rewrite Hua; exact Ha)) as [_ Hrun].
    rewrite Hrun, Hui, Hua. reflexivity.
  - unfold mqtt_callback. rewrite exec_then_ret.
    rewrite (mqtt_callback_request_join [LEGO; TRAIN; BARRIER; itoa i] (itoa a))
      by (discriminate || assumption || (repeat constructor; assumption)).
    change ([LEGO; TRAIN; BARRIER; itoa i] ++ [itoa a])
      with [LEGO; TRAIN; BARRIER; itoa i; itoa a].
    rewrite (barrier_command_effect wild s (itoa i) (itoa a) Hwf Hid Hsel Hfb
               ltac:(rewrite Hui; exact Hi) ltac:(rewrite Hua; exact Ha)).
    rewrite Hui, Hua. reflexivity.
Qed.

Lemma subscribed_topic_drives_servo_witness :
  servo_barrier (exec (@mqtt_callback lpf_protocol 0 (chars "lego/train/barrier/3") (chars "1"))
                      (ready 0))
  = [Some 30; Some 30; Some 30; Some 128].
Proof.
  refine (proj2 (proj2 (proj2 (@subscribed_topic_drives_servo lpf_protocol 0 (ready 0) 3 1
                                 _ _ _)))).
  - vm_compute. repeat split.
  - vm_compute. split; [discriminate | reflexivity].
  - lia.
Defined.


(** ** The main loop *)

Lemma mqtt_subscribe_exec s :
  length (buffer1 s) = Z.to_nat MAX_BUFFER_SIZE ->
  length (buffer2 s) = Z.to_nat MAX_BUFFER_SIZE ->
  exists b1 b2,
    length b1 = Z.to_nat MAX_BUFFER_SIZE /\ length b2 = Z.to_nat MAX_BUFFER_SIZE /\
    mqtt_subscribe s = (command_topics, set_buffer2 b2 (set_buffer1 b1 s)).
Proof.
  intros Hl1 Hl2.
  apply (mqtt_subscribe_run s _ _ s
           (fun r => exists b1 b2,
              length b1 = Z.to_nat MAX_BUFFER_SIZE /\ length b2 = Z.to_nat MAX_BUFFER_SIZE /\
              r = (command_topics, set_buffer2 b2 (set_buffer1 b1 s)))
           (building_start s Hl1 Hl2)).
  intros s' t' u' ((b1 & b2 & ->) & H1 & H2 & _). exists b1, b2.
  cbn [buffer1 buffer2 set_buffer1 set_buffer2] in H1, H2. repeat split; assumption.
Qed.

Lemma process_request_by_client_exec `{LegoPowerFunctions} wild incoming s :
  exec (process_request_by_client wild incoming) s =
  exec (process_request_by_char wild (get_char_from_client incoming)) s.
Proof. unfold process_request_by_client, exec. rewrite bind_run. reflexivity. Qed.

Lemma callbacks_reachable `{LegoPowerFunctions} wild ms : forall s,
  reachable s ->
  reachable (exec (for_each ms (fun m => mqtt_callback wild (fst m) (snd m))) s).
Proof.
  induction ms as [|m ms IH]; intros s Hr; cbn [for_each]; [exact Hr|].
  rewrite exec_bind. apply IH. unfold mqtt_callback.
  rewrite exec_then_ret. apply reach_request, Hr.
Qed.

Lemma update_mqtt_reachable `{LegoPowerFunctions} wild up acc ms s :
  reachable s -> reachable (exec (update_mqtt wild up acc ms) s).
Proof.
  intros Hr. unfold update_mqtt. rewrite exec_bind.
  assert (H1 : reachable (exec (if negb up then reconnect_mqtt acc else ret []) s)).
  { destruct up; cbn [negb]; [exact Hr|]. unfold reconnect_mqtt.
    destruct acc; [|exact Hr].
    pose proof (reachable_well_formed s Hr) as (_ & _ & _ & _ & Hl1 & Hl2).
    destruct (mqtt_subscribe_exec s Hl1 Hl2) as (b1 & b2 & Hb1 & Hb2 & Hrun).
    unfold exec. rewrite Hrun. apply reach_scratch; assumption. }
  revert H1. generalize (exec (if negb up then reconnect_mqtt acc else ret []) s).
  intros s1 H1. cbv zeta. rewrite exec_bind.
  assert (H2 : reachable
                 (exec (if up || acc
                        then for_each ms (fun m => mqtt_callback wild (fst m) (snd m))
                        else ret tt) s1)).
  { destruct (up || acc); [apply callbacks_reachable, H1 | exact H1]. }
  exact H2.
Qed.

(** An iteration of [loop] leads from a reachable state to a reachable
    state. *)
Lemma loop_reachable `{LegoPowerFunctions} wild w mqtt s :
  reachable s -> reachable (exec (loop wild w mqtt) s).
Proof.
  intros Hr. unfold loop. rewrite exec_bind.
  match goal with
  | |- context [exec ?m s] =>
      assert (H1 : reachable (exec m s));
      [destruct (client w);
       [rewrite exec_bind, process_request_by_client_exec; apply reach_request, Hr
       | exact Hr]
      | revert H1; generalize (exec m s); intros s1 H1 ]
  end.
  cbv zeta. rewrite exec_bind.
  apply (reach_sensors wild (digitalRead w) (mqtt && link w)) in H1.
  revert H1. generalize (exec (update_position_sensors wild (digitalRead w) (mqtt && link w)) s1).
  intros s2 H2.
  rewrite exec_bind. apply (reach_queue (past_queue w)) in H2.
  revert H2. generalize (exec (update_pf_ir_queue (past_queue w)) s2).
  intros s3 H3.
  rewrite exec_bind. apply (reach_status_led (led_due w)) in H3.
  revert H3. generalize (exec (update_status_led (led_due w)) s3).
  intros s4 H4.
  rewrite exec_bind. apply update_mqtt_reachable, H4.
Qed.

(** ** What the loop never publishes *)

Lemma published_app t1 t2 : published (t1 ++ t2) = published t1 ++ published t2.
Proof. apply omap_app. Qed.

Global Instance hushed_preorder : PreOrder hushed.
Proof.
  split.
  - intros s. split; [reflexivity|]. exists []. rewrite app_nil_r. repeat split.
  - intros s1 s2 s3 (Hp1 & t1 & Ht1 & Hq1 & Hn1) (Hp2 & t2 & Ht2 & Hq2 & Hn2).
    split; [congruence|]. exists (t1 ++ t2). split; [|split].
    + rewrite Ht2, Ht1, app_assoc. reflexivity.
    + rewrite published_app, Hq1, Hq2. reflexivity.
    + rewrite notifications_app, Hn1, Hn2. reflexivity.
Qed.

Lemma rel_for_collect (R : state -> state -> Prop) `{!PreOrder R}
    {A B} (l : list A) (body : A -> M B) :
  (forall x, rel R (body x)) -> rel R (for_collect l body).
Proof.
  intros Hb. induction l as [|x l IH]; cbn [for_collect].
  - apply rel_ret; apply _.
  - apply rel_bind; [apply _ | apply Hb | intros b].
    apply rel_bind; [apply _ | exact IH | intros bs]. apply rel_ret; apply _.
Qed.

Ltac rel_step_mqtt :=
  first
    [ rel_step
    | lazymatch goal with
      | |- rel _ (for_collect _ _) => apply rel_for_collect; [apply _ | intro]
      | |- rel _ subscribe_buffer1 => unfold subscribe_buffer1
      | |- rel _ mqtt_subscribe => unfold mqtt_subscribe
      | |- rel _ (reconnect_mqtt _) => unfold reconnect_mqtt
      | |- rel _ (update_mqtt _ _ _ _) => unfold update_mqtt
      | |- rel _ (process_request_by_client _ _) => unfold process_request_by_client
      | |- rel _ (let _ := _ in _) => cbv zeta
      end ].

Ltac hushed_tac :=
  split; [reflexivity|];
  first [ exists []; split; [cbn; rewrite app_nil_r; reflexivity | split; reflexivity]
        | eexists [_]; split; [reflexivity | split; reflexivity] ].

Lemma process_request_by_client_hushed `{LegoPowerFunctions} wild incoming :
  rel hushed (process_request_by_client wild incoming).
Proof. repeat rel_step_mqtt; try solve [hushed_tac]. Qed.

Lemma update_pf_ir_queue_hushed wild : rel hushed (update_pf_ir_queue wild).
Proof. repeat rel_step_mqtt; try solve [hushed_tac]. Qed.

Lemma update_status_led_hushed due : rel hushed (update_status_led due).
Proof. repeat rel_step_mqtt; try solve [hushed_tac]. Qed.

Lemma update_mqtt_hushed `{LegoPowerFunctions} wild up acc ms :
  rel hushed (update_mqtt wild up acc ms).
Proof. repeat rel_step_mqtt; try solve [hushed_tac]. Qed.

Lemma exec_ret {A} (a : A) s : exec (ret a) s = s.
Proof. reflexivity. Qed.

Lemma first_poll_disconnected_exec wild (digitalRead : Z -> Z) s :
  position_sensor s = [2; 2] ->
  exec (update_position_sensors wild digitalRead false) s =
  set_trace (trace s ++ [PositionChanged 0 (inverted (digitalRead 2));
                         PositionChanged 1 (inverted (digitalRead 3))])
    (set_position_sensor [inverted (digitalRead 2); inverted (digitalRead 3)] s).
Proof.
  intros Hps. destruct s as [q led ps sw ba pn b1 b2 tr]. cbn [position_sensor] in Hps.
  subst ps. unfold update_position_sensors.
  rewrite seqZ_0_NUM_POSITION_SENSORS. cbn [for_each]. cbv zeta.
  change (uchar ((uchar (digitalRead (load POSITION_SENSOR_PINS 0 wild)) + 1) `mod` 2))
    with (inverted (digitalRead 2)).
  change (uchar ((uchar (digitalRead (load POSITION_SENSOR_PINS 1 wild)) + 1) `mod` 2))
    with (inverted (digitalRead 3)).
  destruct (inverted_bit (digitalRead 2)) as [-> | ->],
           (inverted_bit (digitalRead 3)) as [-> | ->];
    cbv -[app]; rewrite <- app_assoc; reflexivity.
Qed.

(** An iteration of [loop] as its three stages: the request of an HTTP
    client, the poll of the sensors, and the rest. *)
Lemma loop_stages `{LegoPowerFunctions} wild w mqtt s :
  exists s1,
    hushed s s1 /\
    hushed (exec (update_position_sensors wild (digitalRead w) (mqtt && link w)) s1)
           (exec (loop wild w mqtt) s).
Proof.
  unfold loop. rewrite exec_bind.
  match goal with
  | |- context [exec ?m s] =>
      assert (H1 : rel hushed m) by (repeat rel_step_mqtt; try solve [hushed_tac]);
      specialize (H1 s); revert H1; generalize (exec m s); intros s1 H1
  end.
  exists s1. split; [exact H1|]. cbv zeta.
  rewrite exec_bind.
  generalize (exec (update_position_sensors wild (digitalRead w) (mqtt && link w)) s1).
  intros s2. rewrite exec_bind.
  etransitivity; [apply update_pf_ir_queue_hushed|]. rewrite exec_bind.
  etransitivity; [apply update_status_led_hushed|]. rewrite exec_bind, exec_ret.
  apply update_mqtt_hushed.
Qed.

(** An iteration that reads the levels the sensors already hold. *)
Lemma loop_same_levels `{LegoPowerFunctions} wild rd w mqtt s :
  position_sensor s = [inverted (rd 2); inverted (rd 3)] ->
  hushed s (exec (loop wild (with_levels rd w) mqtt) s).
Proof.
  intros Hps.
  destruct (loop_stages wild (with_levels rd w) mqtt s) as (s1 & H1 & H2).
  cbn [digitalRead with_levels link] in H2.
  assert (Hpoll : exec (update_position_sensors wild rd (mqtt && link w)) s1 = s1).
  { unfold exec. rewrite poll_unchanged; [reflexivity|].
    destruct H1 as [-> _]. exact Hps. }
  rewrite Hpoll in H2.
  etransitivity; [exact H1 | exact H2].
Qed.

Lemma loops_same_levels `{LegoPowerFunctions} wild rd ws : forall mqtt s,
  position_sensor s = [inverted (rd 2); inverted (rd 3)] ->
  hushed s (exec (loops wild (map (with_levels rd) ws) mqtt) s).
Proof.
  induction ws as [|w ws IH]; intros mqtt s Hps; cbn [map loops].
  - reflexivity.
  - rewrite exec_bind.
    pose proof (loop_same_levels wild rd w mqtt s Hps) as H1.
    etransitivity; [exact H1|]. apply IH.
    destruct H1 as [-> _]. exact Hps.
Qed.

(** The first iteration after [setup]: the poll finds the sentinel and
    the MQTT client without a connection. *)
Lemma loop_at_startup `{LegoPowerFunctions} wild rd w s :
  position_sensor s = [2; 2] ->
  let s' := exec (loop wild (with_levels rd w) mqtt_at_startup) s in
  position_sensor s' = [inverted (rd 2); inverted (rd 3)] /\
  exists t, trace s' = trace s ++ t /\ published t = [] /\
            notifications t = [(0, inverted (rd 2)); (1, inverted (rd 3))].
Proof.
  intros Hps s'. subst s'.
  destruct (loop_stages wild (with_levels rd w) mqtt_at_startup s)
    as (s1 & (Hp1 & t1 & Ht1 & Hq1 & Hn1) & H2).
  cbn [digitalRead with_levels link] in H2.
  change (mqtt_at_startup && link w) with false in H2.
  rewrite first_poll_disconnected_exec in H2 by (rewrite Hp1; exact Hps).
  destruct H2 as (Hp2 & t2 & Ht2 & Hq2 & Hn2).
  cbn [position_sensor trace set_trace set_position_sensor] in Hp2, Ht2.
  split; [exact Hp2|].
  eexists. split; [rewrite Ht2, Ht1, <- !app_assoc; reflexivity|].
  rewrite !published_app, !notifications_app, Hq1, Hq2, Hn1, Hn2. split; reflexivity.
Qed.

(** C7: the values of the sensors at start-up are never sent.  The first
    poll after [setup] finds the sentinel 2 in both sensors and calls
    [mqtt_publish_position_sensor] once for each of them, with the
    inverted raw level; but the MQTT client has no connection yet, since
    the sketch connects only at the end of the iteration, so nothing is
    published and the sentinel is gone.  As long as the raw levels stay
    what they were, no later iteration reports or publishes anything,
    whatever requests and MQTT messages come in and whether or not the
    broker accepts the connection. *)
Theorem startup_values_never_sent `{LegoPowerFunctions} wild rd w ws :
  let run := loops wild (map (with_levels rd) (w :: ws)) mqtt_at_startup in
  position_sensor (ready wild) = [2; 2] /\
  notifications (emitted run (ready wild)) =
    [(0, inverted (rd 2)); (1, inverted (rd 3))] /\
  published (emitted run (ready wild)) = [] /\
  position_sensor (exec run (ready wild)) = [inverted (rd 2); inverted (rd 3)].
Proof.
  intros run. split; [reflexivity|].
  destruct (loop_at_startup wild rd w (ready wild) eq_refl)
    as (Hp1 & t1 & Ht1 & Hq1 & Hn1).
  cbv zeta in Hp1, Ht1.
  assert (Hrun : exec run (ready wild) =
                 exec (loops wild (map (with_levels rd) ws)
                         (mqtt_connected (eval (loop wild (with_levels rd w) mqtt_at_startup)
                                               (ready wild))))
                      (exec (loop wild (with_levels rd w) mqtt_at_startup) (ready wild)))
    by (subst run; cbn [map loops]; rewrite exec_bind; reflexivity).
  revert Hrun Hp1 Ht1.
  generalize (mqtt_connected (eval (loop wild (with_levels rd w) mqtt_at_startup)
                                   (ready wild))).
  generalize (exec (loop wild (with_levels rd w) mqtt_at_startup) (ready wild)).
  intros s1 mqtt Hrun Hp1 Ht1.
  destruct (loops_same_levels wild rd ws mqtt s1 Hp1) as (Hp2 & t2 & Ht2 & Hq2 & Hn2).
  rewrite <- Hrun in Hp2, Ht2.
  assert (Hem : emitted run (ready wild) = t1 ++ t2)
    by (apply emitted_app; rewrite Ht2, Ht1, <- app_assoc; reflexivity).
  rewrite Hem, notifications_app, published_app, Hq1, Hq2, Hn1, Hn2, Hp2, Hp1.
  repeat split.
Qed.

(** The scenario of C7 at work: sensor 0 reads [HIGH] and sensor 1 [LOW]
    from the start, the broker accepts the connection, nothing else
    happens.  The first iteration reports both sensors while the client
    has no connection, then connects and subscribes; the second iteration,
    on the connection, has nothing to report. *)
Lemma startup_values_never_sent_run :
  let rd := fun pin => if pin =? 2 then HIGH else LOW in
  let w := idle rd true true 0 in
  let first := @loop lpf_protocol 0 w mqtt_at_startup in
  notifications (emitted first (ready 0)) = [(0, 0); (1, 1)] /\
  published (emitted first (ready 0)) = [] /\
  mqtt_connected (eval first (ready 0)) = true /\
  emitted (@loop lpf_protocol 0 w true) (exec first (ready 0)) = [].
Proof. vm_compute. repeat split. Qed.


(** ** An idle iteration of the main loop *)

Lemma loop_idle_run `{LegoPowerFunctions} wild rd lnk acc past mqtt s m st o :
  position_sensor s = [inverted (rd 2); inverted (rd 3)] ->
  queue s = [0; m; st; o] ->
  loop wild (idle rd lnk acc past) mqtt s =
  (let r := update_mqtt wild (mqtt && lnk) acc [] s in
   ({| printed := None; subscribed := snd (fst r); mqtt_connected := fst (fst r) |},
    snd r)).
Proof.
  intros Hps Hq. unfold loop, idle.
  cbn [client digitalRead link accepted past_queue led_due messages].
  rewrite bind_run. cbn [ret fst snd]. cbv zeta.
  rewrite bind_run, (poll_unchanged wild rd (mqtt && lnk) s Hps). cbn [fst snd].
  rewrite bind_run, (update_pf_ir_queue_empty past m st o s Hq). cbn [fst snd].
  rewrite bind_run. cbn [update_status_led ret fst snd].
  rewrite bind_run. reflexivity.
Qed.

(** X18: an iteration of [loop] that finds no HTTP client, no MQTT
    message, no blink due, the raw sensor levels of the last poll and an
    empty queue does nothing but look after the MQTT connection.  With
    the connection up, or with the connection down and the broker refusing
    a new one, it leaves the whole state as it is and emits nothing; with
    the connection down and the broker accepting, it subscribes to the
    thirteen command topics, and only the two scratch buffers change. *)
Theorem idle_loop_changes_nothing `{LegoPowerFunctions} wild rd lnk acc past mqtt s m st o :
  well_formed s ->
  position_sensor s = [inverted (rd 2); inverted (rd 3)] ->
  queue s = [0; m; st; o] ->
  let run := loop wild (idle rd lnk acc past) mqtt in
  eval run s =
    {| printed := None;
       subscribed := if negb (mqtt && lnk) && acc then command_topics else [];
       mqtt_connected := (mqtt && lnk) || acc |} /\
  (negb (mqtt && lnk) && acc = false -> exec run s = s) /\
  (negb (mqtt && lnk) && acc = true ->
   exists b1 b2, exec run s = set_buffer2 b2 (set_buffer1 b1 s)).
Proof.
  intros Hwf Hps Hq run. subst run. unfold eval, exec.
  rewrite (loop_idle_run wild rd lnk acc past mqtt s m st o Hps Hq). cbv zeta.
  cbn [fst snd]. unfold update_mqtt.
  destruct (mqtt && lnk); cbn [negb andb orb].
  - rewrite !bind_run. cbn [ret for_each fst snd].
    split; [reflexivity|]. split; [reflexivity | discriminate].
  - rewrite bind_run. unfold reconnect_mqtt. destruct acc.
    + pose proof Hwf as (_ & _ & _ & _ & Hl1 & Hl2).
      destruct (mqtt_subscribe_exec s Hl1 Hl2) as (b1 & b2 & _ & _ & Hrun).
      rewrite Hrun. cbn [fst snd]. rewrite bind_run. cbn [ret for_each fst snd].
      split; [reflexivity|]. split; [discriminate|]. intros _. exists b1, b2. reflexivity.
    + cbn [ret fst snd]. rewrite bind_run. cbn [ret fst snd].
      split; [reflexivity|]. split; [reflexivity | discriminate].
Qed.

Lemma idle_loop_changes_nothing_witness :
  let rd := fun pin => if pin =? 2 then HIGH else LOW in
  let s := exec (update_position_sensors 0 rd false) (ready 0) in
  exec (@loop lpf_protocol 0 (idle rd true false 0) true) s = s /\
  subscribed (eval (@loop lpf_protocol 0 (idle rd true true 0) false) s) = command_topics.
Proof.
  intros rd s.
  pose proof (@idle_loop_changes_nothing lpf_protocol 0 rd true false 0 true s 0 0 0
                ltac:(vm_compute; repeat split) ltac:(vm_compute; reflexivity)
                ltac:(vm_compute; reflexivity)) as (_ & H1 & _).
  pose proof (@idle_loop_changes_nothing lpf_protocol 0 rd true true 0 false s 0 0 0
                ltac:(vm_compute; repeat split) ltac:(vm_compute; reflexivity)
                ltac:(vm_compute; reflexivity)) as (H2 & _).
  cbv zeta in H1, H2. split; [exact (H1 eq_refl)|]. rewrite H2. reflexivity.
Defined.

(** ** What the subscriptions are for *)

(** X20: on a connection the MQTT client accepts, the sketch subscribes
    to thirteen topics, whatever the scratch buffers held before:
    [lego/train/motor/pf/#], one topic [lego/train/switch/<i>] per switch,
    one topic [lego/train/barrier/<i>] per barrier and one topic
    [lego/train/signal/<i>/<j>] per lamp of a signal; on a refused
    connection it subscribes to nothing.  Only the scratch buffers are
    written.  The dispatcher accepts the request made of any message on
    one of the thirteen topics as they are written, and of any message on
    a topic [lego/train/motor/pf/<level>/.../<level>], which are the
    topics the wildcard stands for. *)
Theorem subscriptions_match_commands `{LegoPowerFunctions} wild acc s :
  well_formed s ->
  eval (reconnect_mqtt acc) s = (if acc then command_topics else []) /\
  (exists b1 b2, exec (reconnect_mqtt acc) s = set_buffer2 b2 (set_buffer1 b1 s)) /\
  length command_topics = 13%nat /\
  (forall topic p,
     topic ∈ command_topics -> is_token p -> fits (topic ++ 47 :: p) ->
     fst (eval (process_request_by_char wild (mqtt_callback_request topic p)) s) = true) /\
  (forall levels p,
     Forall is_token levels -> is_token p ->
     fits (join ([LEGO; TRAIN; MOTOR; PF] ++ levels) ++ 47 :: p) ->
     fst (eval (process_request_by_char wild
                  (mqtt_callback_request (join ([LEGO; TRAIN; MOTOR; PF] ++ levels)) p)) s)
     = true).
Proof.
  intros Hwf. pose proof Hwf as (_ & _ & _ & _ & Hl1 & Hl2).
  destruct (mqtt_subscribe_exec s Hl1 Hl2) as (b1 & b2 & _ & _ & Hrun).
  split; [|split; [|split; [reflexivity|split]]].
  - unfold eval, reconnect_mqtt. destruct acc; [rewrite Hrun|]; reflexivity.
  - unfold exec, reconnect_mqtt. destruct acc.
    + rewrite Hrun. exists b1, b2. reflexivity.
    + exists (buffer1 s), (buffer2 s). destruct s; reflexivity.
  - intros topic p Hin Hp Hf. rewrite accepted_top_level by exact Hwf.
    unfold command_topics in Hin.
    change (seqZ 0 NUM_SERVO_SWITCHES) with [0; 1; 2; 3] in Hin.
    change (seqZ 0 NUM_SERVO_BARRIERS) with [0; 1; 2; 3] in Hin.
    change (seqZ 0 NUM_SIGNALS) with [0; 1] in Hin.
    change (seqZ 0 2) with [0; 1] in Hin.
    cbn [map flat_map app] in Hin.
    in_cases Hin;
      (apply topic_accepted;
       [cbn [length]; lia | repeat constructor | exact Hp | exact Hf
       | vm_compute; reflexivity]).
  - intros levels p Hlv Hp Hf. rewrite accepted_top_level by exact Hwf.
    assert (Hts : Forall is_token ([LEGO; TRAIN; MOTOR; PF] ++ levels))
      by (apply Forall_app; split; [repeat constructor | exact Hlv]).
    rewrite mqtt_callback_request_join by (discriminate || assumption).
    rewrite <- join_snoc in Hf by discriminate.
    unfold top_level_match.
    rewrite tokens_of_join by (try apply Forall_app; auto).
    rewrite <- !app_assoc. rewrite pad_app_long by (cbn [length]; lia).
    reflexivity.
Qed.

Lemma subscriptions_match_commands_witness :
  eval (reconnect_mqtt true) (ready 0) =
    [chars "lego/train/motor/pf/#";
     chars "lego/train/switch/0"; chars "lego/train/switch/1";
     chars "lego/train/switch/2"; chars "lego/train/switch/3";
     chars "lego/train/barrier/0"; chars "lego/train/barrier/1";
     chars "lego/train/barrier/2"; chars "lego/train/barrier/3";
     chars "lego/train/signal/0/0"; chars "lego/train/signal/0/1";
     chars "lego/train/signal/1/0"; chars "lego/train/signal/1/1"] /\
  fst (eval (@process_request_by_char lpf_protocol 0
               (mqtt_callback_request (chars "lego/train/motor/pf/1/0") (chars "7")))
            (ready 0)) = true.
Proof.
  pose proof (@subscriptions_match_commands lpf_protocol 0 true (ready 0)
                ltac:(vm_compute; repeat split)) as (H1 & _ & _ & _ & H5).
  split; [exact H1|].
  apply (H5 [chars "1"; chars "0"] (chars "7")).
  - repeat constructor.
  - repeat constructor.
  - vm_compute. reflexivity.
Defined.
